(** * Uno: a shallow embedding of the iteration engine

    The development follows the C++ sources of the solver:
    - [Base]: the data shared by the components (linear_algebra/SparseVector.hpp,
      directions, multipliers) and the monad of the stateful code;
    - [COO]: linear_algebra/COOSymmetricMatrix.cpp;
    - [Hessian]: ingredients/subproblem/HessianModel.hpp;
    - [TrustRegion]: ingredients/mechanism/TrustRegionStrategy.cpp;
    - [L1]: ingredients/constraint_relaxation/l1Relaxation.cpp;
    - [Restoration]: ingredients/constraint_relaxation/FeasibilityRestoration.cpp;
    - [Sparse]: the other methods of linear_algebra/SparseVector.hpp;
    - [Bounds] and [ProblemBase]: the bounds of base/Problem.cpp, their
      residuals and their classification;
    - [MA27]: the queries of solvers/MA27/MA27Solver.cpp on the information
      that the factorization leaves;
    - [PredictedReduction]: the predicted reduction models of the LP, QP and
      SQP subproblems.
    The definitions come first, the properties after them, one module of
    properties for each module of definitions.

    Numbers.  A C++ [double] is modelled by a rational number of [Q]: the
    arithmetic and the comparisons of the code are those of an ordered
    field, exact, with neither rounding nor NaN.  The one place where the
    code relies on an infinite value (the sentinel of
    [smallest_diagonal_entry]) is modelled by an explicit extra value, and
    the bounds of variables and constraints, which may be infinite, have a
    type of their own ([Bounds.Bound]).
    A [size_t] index or counter is a [nat]: these counters are bounded by
    the length of a vector held in memory and never wrap.  Where the code
    converts between [size_t] and [int] (MA27), both are integers of [Z]
    and the conversions are written out.

    Objects.  A method that modifies its object, or an argument passed by
    reference, takes the state before and returns the state after.  The
    collaborators that the code reaches through an abstract class (the
    linear solver, the subproblem and its QP solver, the globalization
    strategies, the constraint-relaxation strategy of the mechanism) are
    type classes over the state of the object: every theorem holds for all
    their instances.  The instances named [toy_...] are small concrete
    collaborators on which the definitions are run.

    Loops.  A loop that the code does not bound takes a number of passes
    ([fuel]) and returns [None] when they are used up.

    Histories.  The machines of [L1] and [Restoration] carry the list of the
    calls made so far; it is only written, never read, by the code. *)

From Stdlib Require Import String.
From Stdlib Require Import QArith Qminmax Qabs List Bool Arith ZArith Znat Lia Lqa.
Import ListNotations.

Set Implicit Arguments.

(** [x < y] on doubles, as a boolean. *)
Definition Qlt_bool (x y : Q) : bool := negb (Qle_bool y x).

(** * Shared data model *)

Module Base.

(** [SparseVector<ElementType>]: two parallel vectors and a counter. *)
Record SparseVector (A : Type) : Type := mkSparse {
  indices : list nat;
  values : list A;
  number_nonzeros : nat
}.

Definition sparse_insert {A : Type} (v : SparseVector A) (index : nat) (value : A)
  : SparseVector A :=
  mkSparse (indices v ++ [index]) (values v ++ [value]) (S (number_nonzeros v)).

(** [for_each_value], with the state of the callback as an accumulator. *)
Definition for_each_value {A B : Type} (d : A) (v : SparseVector A)
    (f : A -> B -> B) (b : B) : B :=
  fold_left (fun acc k => f (nth k (values v) d) acc) (seq 0 (number_nonzeros v)) b.

(** [dot(x, y)] of a dense vector [x] and a sparse vector [y]; the source
    asserts that the indices of [y] are within [x]. *)
Definition dot (x : list Q) (y : SparseVector Q) : Q :=
  fold_left
    (fun dot_product k =>
       dot_product + nth (nth k (indices y) 0%nat) x 0 * nth k (values y) 0)
    (seq 0 (number_nonzeros y)) 0.

Record Multipliers : Type := mkMultipliers {
  lower_bounds : list Q;
  upper_bounds : list Q;
  constraints_multipliers : list Q
}.

(** Modelled from the spec: the status of a direction, "status in {optimal,
    infeasible, unbounded, error}" (section 3), whose declaration is not in
    the sources; the sources name [OPTIMAL], [INFEASIBLE] and
    [UNBOUNDED_PROBLEM]. *)
Inductive Status : Type := OPTIMAL | UNBOUNDED_PROBLEM | INFEASIBLE | ERROR.

Definition Status_eqb (a b : Status) : bool :=
  match a, b with
  | OPTIMAL, OPTIMAL | UNBOUNDED_PROBLEM, UNBOUNDED_PROBLEM
  | INFEASIBLE, INFEASIBLE | ERROR, ERROR => true
  | _, _ => false
  end.

(** Modelled from the spec: [ConstraintPartition] (section 3), whose
    declaration is not in the sources: four sets of constraint indices. *)
Record ConstraintPartition : Type := mkPartition {
  feasible : list nat;
  infeasible : list nat;
  lower_bound_infeasible : list nat;
  upper_bound_infeasible : list nat
}.

(** [direction.active_set.bounds] *)
Record ActiveBounds : Type := mkActiveBounds {
  at_lower_bound : list nat;
  at_upper_bound : list nat
}.

(** Modelled from the spec: [Direction] (section 3), whose declaration is
    not in the sources, with the fields that the sources read or write and
    the names they give them. *)
Record Direction : Type := mkDirection {
  x : list Q;
  multipliers : Multipliers;
  active_set_bounds : ActiveBounds;
  status : Status;
  norm : Q;
  objective : Q;
  objective_multiplier : Q;
  constraint_partition : option ConstraintPartition
}.

Definition set_x (d : Direction) (v : list Q) : Direction :=
  mkDirection v (multipliers d) (active_set_bounds d) (status d) (norm d)
              (objective d) (objective_multiplier d) (constraint_partition d).

Definition set_objective_multiplier (d : Direction) (v : Q) : Direction :=
  mkDirection (x d) (multipliers d) (active_set_bounds d) (status d) (norm d)
              (objective d) v (constraint_partition d).

Definition set_constraint_partition (d : Direction) (v : option ConstraintPartition)
  : Direction :=
  mkDirection (x d) (multipliers d) (active_set_bounds d) (status d) (norm d)
              (objective d) (objective_multiplier d) v.

(** [v[i] = a] on a vector. *)
Fixpoint assign (v : list Q) (i : nat) (a : Q) : list Q :=
  match v, i with
  | [], _ => []
  | _ :: v', O => a :: v'
  | b :: v', S i' => b :: assign v' i' a
  end.

Record ProgressMeasures : Type := mkProgress {
  feasibility : Q;
  objective_measure : Q
}.

(** Exceptions: the [NumericalError] of the solver, and any other exception. *)
Inductive Exception : Type :=
| NumericalError (what : String.string)
| OtherException (what : String.string).

(** How a call ends: it returns, throws, or stops on a violated [assert]. *)
Inductive Outcome (A : Type) : Type :=
| Returned (a : A)
| Thrown (e : Exception)
| Aborted (assertion : String.string).

Arguments Returned {A} a.
Arguments Thrown {A} e.
Arguments Aborted {A} assertion.

(** Computations on a state [St] that return, throw or abort. *)
Definition M (St A : Type) : Type := St -> St * Outcome A.

Definition ret {St A : Type} (a : A) : M St A := fun s => (s, Returned a).

Definition bind {St A B : Type} (c : M St A) (k : A -> M St B) : M St B :=
  fun s =>
    match c s with
    | (s', Returned a) => k a s'
    | (s', Thrown e) => (s', Thrown e)
    | (s', Aborted assertion) => (s', Aborted assertion)
    end.

(** An outcome that leaves the state as it is. *)
Definition pure {St A : Type} (o : Outcome A) : M St A := fun s => (s, o).

(** [assert(condition && message)] *)
Definition assert {St : Type} (condition : bool) (message : string) : M St unit :=
  pure (if condition then Returned tt else Aborted message).

Declare Scope monad_scope.
Delimit Scope monad_scope with monad.
Notation "v <- c ;; k" := (bind c (fun v => k))
  (at level 61, c at next level, right associativity) : monad_scope.
Notation "c ;;; k" := (bind c (fun _ => k))
  (at level 61, right associativity) : monad_scope.

(** [q^k] *)
Fixpoint Qpow (q : Q) (k : nat) : Q :=
  match k with
  | O => 1
  | S k' => q * Qpow q k'
  end.

End Base.

(** * Sparse vectors: the other methods *)

Module Sparse.
Import Base.

(** [v[i] = a] on a vector of any element type.  As for [assign], an index
    out of range leaves the vector as it is (the behaviour of the C++ code
    is undefined there). *)
Fixpoint update {A : Type} (v : list A) (i : nat) (a : A) : list A :=
  match v, i with
  | [], _ => []
  | _ :: v', O => a :: v'
  | b :: v', S i' => b :: update v' i' a
  end.

(** Constructor: [reserve(capacity)] has no observable effect. *)
Definition create {A : Type} (capacity : nat) : SparseVector A := mkSparse [] [] 0.

Definition size {A : Type} (v : SparseVector A) : nat := number_nonzeros v.

Definition insert {A : Type} (v : SparseVector A) (index : nat) (value : A)
  : SparseVector A :=
  sparse_insert v index value.

Definition clear {A : Type} (v : SparseVector A) : SparseVector A := mkSparse [] [] 0.

Definition empty {A : Type} (v : SparseVector A) : bool :=
  (number_nonzeros v =? 0)%nat.

(** [for_each], and the range-based [for] over [begin() .. end()], which
    visits the same positions [0 .. number_nonzeros - 1]; the state of the
    callback is an accumulator. *)
Definition for_each {A B : Type} (d : A) (v : SparseVector A)
    (f : nat -> A -> B -> B) (b : B) : B :=
  fold_left
    (fun acc index => f (nth index (indices v) 0%nat) (nth index (values v) d) acc)
    (seq 0 (number_nonzeros v)) b.

(** [transform]: [values[index] = f(values[index])] for every position. *)
Definition transform {A : Type} (d : A) (v : SparseVector A) (f : A -> A)
  : SparseVector A :=
  mkSparse (indices v)
    (fold_left (fun values index => update values index (f (nth index values d)))
               (seq 0 (number_nonzeros v)) (values v))
    (number_nonzeros v).

(** [norm_inf(x)] *)
Definition norm_inf (x : SparseVector Q) : Q :=
  for_each 0 x (fun _ element norm => Qmax norm (Qabs element)) 0.

Definition dot_assertion : string :=
  "Vector.dot: the sparse vector y is larger than the dense vector x".

(** [dot(x, y)] with its assertion: the program stops at the first stored
    index of [y] that is not within the dense vector [x]. *)
Definition dot (x : list Q) (y : SparseVector Q) : Outcome Q :=
  for_each 0 y
    (fun index y_element outcome =>
       match outcome with
       | Returned dot_product =>
           if (index <? length x)%nat
           then Returned (dot_product + nth index x 0 * y_element)
           else Aborted dot_assertion
       | stopped => stopped
       end)
    (Returned 0).

(** [scale(x, factor)] *)
Definition scale (x : SparseVector Q) (factor : Q) : SparseVector Q :=
  transform 0 x (fun element => factor * element).

(** The class invariant: the two vectors have [number_nonzeros] elements. *)
Definition well_formed {A : Type} (v : SparseVector A) : Prop :=
  length (indices v) = number_nonzeros v /\ length (values v) = number_nonzeros v.

End Sparse.

(** * Bounds *)

Module Bounds.

(** A bound of a variable or of a constraint: a double that may be
    [-INFINITY] or [INFINITY]. *)
Inductive Bound : Type :=
| MinusInfinity : Bound
| Finite : Q -> Bound
| PlusInfinity : Bound.

(** [a < b] on such doubles. *)
Definition ltb (a b : Bound) : bool :=
  match a, b with
  | MinusInfinity, MinusInfinity => false
  | MinusInfinity, _ => true
  | Finite _, MinusInfinity => false
  | Finite x, Finite y => Qlt_bool x y
  | Finite _, PlusInfinity => true
  | PlusInfinity, _ => false
  end.

(** [a == b] on such doubles. *)
Definition eqb (a b : Bound) : bool :=
  match a, b with
  | MinusInfinity, MinusInfinity => true
  | Finite x, Finite y => Qeq_bool x y
  | PlusInfinity, PlusInfinity => true
  | _, _ => false
  end.

(** [Range]: the two bounds of a variable or of a constraint. *)
Record Range : Type := mkRange { lb : Bound; ub : Bound }.

(** The range without bounds. *)
Definition free : Range := mkRange MinusInfinity PlusInfinity.

End Bounds.

(** * Symmetric matrices in coordinate format *)

Module COO.

(** The fields of [SymmetricMatrix] that the class reads ([dimension],
    [number_nonzeros]) and the three parallel vectors of
    [COOSymmetricMatrix].  [reserve(capacity)] has no observable effect. *)
Record COOSymmetricMatrix : Type := mkCOO {
  dimension : nat;
  number_nonzeros : nat;
  matrix : list Q;
  row_indices : list nat;
  column_indices : list nat
}.

(** Constructor: an empty matrix of the given dimension. *)
Definition create (dim capacity : nat) : COOSymmetricMatrix :=
  mkCOO dim 0 [] [] [].

Definition reset (m : COOSymmetricMatrix) : COOSymmetricMatrix :=
  mkCOO (dimension m) 0 [] [] [].

(** [for_each]: the callback mutates variables captured by reference; here
    it transforms an accumulator.  The loop runs over
    [k = 0 .. number_nonzeros - 1] and reads the three vectors at [k]. *)
Definition for_each {A : Type} (m : COOSymmetricMatrix)
    (f : nat -> nat -> Q -> A -> A) (a : A) : A :=
  fold_left
    (fun acc k =>
       f (nth k (row_indices m) 0%nat) (nth k (column_indices m) 0%nat)
         (nth k (matrix m) 0) acc)
    (seq 0 (number_nonzeros m)) a.

(** [find]: linear search for the first stored (row, column) pair; the loop
    stops at [number_nonzeros] when there is none.  Every round increments
    [position], so [number_nonzeros] rounds are enough. *)
Fixpoint find_loop (m : COOSymmetricMatrix) (row_index column_index : nat)
    (rounds position : nat) : nat :=
  match rounds with
  | O => position
  | S rounds' =>
      if position <? number_nonzeros m then
        if (nth position (row_indices m) 0%nat =? row_index)%nat
           && (nth position (column_indices m) 0%nat =? column_index)%nat
        then position
        else find_loop m row_index column_index rounds' (S position)
      else position
  end.

Definition find (m : COOSymmetricMatrix) (row_index column_index : nat) : nat :=
  find_loop m row_index column_index (number_nonzeros m) 0.

(** [matrix[position] += term] *)
Fixpoint add_at (l : list Q) (position : nat) (term : Q) : list Q :=
  match l, position with
  | [], _ => []
  | v :: l', O => (v + term) :: l'
  | v :: l', S p => v :: add_at l' p term
  end.

(** [insert]: the test of the first branch is [false && position < number_nonzeros]. *)
Definition insert (m : COOSymmetricMatrix) (term : Q)
    (row_index column_index : nat) : COOSymmetricMatrix :=
  let position := find m row_index column_index in
  if false && (position <? number_nonzeros m) then
    mkCOO (dimension m) (number_nonzeros m)
          (add_at (matrix m) position term) (row_indices m) (column_indices m)
  else
    mkCOO (dimension m) (S (number_nonzeros m))
          (matrix m ++ [term]) (row_indices m ++ [row_index])
          (column_indices m ++ [column_index]).

Definition pop (m : COOSymmetricMatrix) : COOSymmetricMatrix :=
  mkCOO (dimension m) (pred (number_nonzeros m))
        (removelast (matrix m)) (removelast (row_indices m))
        (removelast (column_indices m)).

(** [add_identity_multiple]: [for i in 0 .. dimension - 1: insert(multiple, i, i)]. *)
Definition add_identity_multiple (m : COOSymmetricMatrix) (multiple : Q)
  : COOSymmetricMatrix :=
  fold_left (fun acc i => insert acc multiple i i) (seq 0 (dimension m)) m.

(** The running minimum of [smallest_diagonal_entry] starts at
    [+infinity]. *)
Inductive Extended : Type :=
| Infinity : Extended
| Finite : Q -> Extended.

(** [std::min(smallest_entry, entry)] for a finite [entry]. *)
Definition min_extended (smallest_entry : Extended) (entry : Q) : Extended :=
  match smallest_entry with
  | Infinity => Finite entry
  | Finite s => Finite (Qmin s entry)
  end.

Definition smallest_diagonal_entry (m : COOSymmetricMatrix) : Q :=
  let smallest_entry :=
    for_each m
      (fun i j entry smallest_entry =>
         if (i =? j)%nat then min_extended smallest_entry entry
         else smallest_entry)
      Infinity in
  match smallest_entry with
  | Infinity => 0
  | Finite s => s
  end.

(** ** Specification vocabulary *)

(** The triples the matrix stores, in storage order. *)
Definition stored_entries (m : COOSymmetricMatrix) : list (nat * nat * Q) :=
  map (fun k => (nth k (row_indices m) 0%nat,
                 nth k (column_indices m) 0%nat,
                 nth k (matrix m) 0))
      (seq 0 (number_nonzeros m)).

(** The values of the stored entries whose row index equals their column index. *)
Definition diagonal_values (m : COOSymmetricMatrix) : list Q :=
  map snd (filter (fun e => (fst (fst e) =? snd (fst e))%nat) (stored_entries m)).

(** The class invariant: the three vectors have [number_nonzeros] elements. *)
Definition well_formed (m : COOSymmetricMatrix) : Prop :=
  length (matrix m) = number_nonzeros m /\
  length (row_indices m) = number_nonzeros m /\
  length (column_indices m) = number_nonzeros m.

End COO.

(** * Hessian model and inertia correction *)

Module Hessian.
Import COO.

(** The interface [LinearSolver<SYMMETRIC_MATRIX>] that [modify_inertia]
    consumes, with the solver object as an explicit state [Solver]. *)
Class LinearSolver (Solver : Type) : Type := {
  do_symbolic_factorization : Solver -> COOSymmetricMatrix -> Solver;
  do_numerical_factorization : Solver -> COOSymmetricMatrix -> Solver;
  matrix_is_singular : Solver -> bool;
  number_negative_eigenvalues : Solver -> nat
}.

Definition beta : Q := 1 # 10000.

Section ModifyInertia.
Context {Solver : Type} `{LinearSolver Solver}.

(** The local variables of [modify_inertia] that live across the loop. *)
Record InertiaState : Type := mkInertia {
  matrix_of : COOSymmetricMatrix;
  solver_of : Solver;
  inertia : Q;
  previous_inertia : Q
}.

(** The inertia term chosen before the first factorization. *)
Definition initial_inertia (matrix : COOSymmetricMatrix) : Q :=
  let smallest_diagonal_entry := smallest_diagonal_entry matrix in
  if Qle_bool smallest_diagonal_entry 0 then beta - smallest_diagonal_entry
  else 0.

(** The code up to the loop: choice of the inertia term, first update of the
    matrix, symbolic and numerical factorization. *)
Definition first_factorization (matrix : COOSymmetricMatrix) (linear_solver : Solver)
  : InertiaState :=
  let inertia := initial_inertia matrix in
  let previous_inertia := 0 in
  let matrix :=
    if Qlt_bool 0 inertia
    then add_identity_multiple matrix (inertia - previous_inertia)
    else matrix in
  let linear_solver := do_symbolic_factorization linear_solver matrix in
  let linear_solver := do_numerical_factorization linear_solver matrix in
  mkInertia matrix linear_solver inertia previous_inertia.

(** The test of the loop body. *)
Definition good_inertia (linear_solver : Solver) : bool :=
  negb (matrix_is_singular linear_solver)
  && (number_negative_eigenvalues linear_solver =? 0)%nat.

(** [inertia = (inertia == 0.) ? beta : 2 * inertia] *)
Definition next_inertia (inertia : Q) : Q :=
  if Qeq_bool inertia 0 then beta else 2 * inertia.

(** The [else] branch of the loop body. *)
Definition increase_inertia (st : InertiaState) : InertiaState :=
  let previous_inertia := inertia st in
  let inertia := next_inertia (inertia st) in
  let matrix := add_identity_multiple (matrix_of st) (inertia - previous_inertia) in
  let linear_solver := do_numerical_factorization (solver_of st) matrix in
  mkInertia matrix linear_solver inertia previous_inertia.

(** [while (!good_inertia)]: the loop ends when the solver reports a
    nonsingular matrix without negative eigenvalue; [fuel] bounds the number
    of tests. *)
Fixpoint inertia_loop (fuel : nat) (st : InertiaState) : option InertiaState :=
  match fuel with
  | O => None
  | S fuel' =>
      if good_inertia (solver_of st) then Some st
      else inertia_loop fuel' (increase_inertia st)
  end.

Definition modify_inertia_run (fuel : nat) (matrix : COOSymmetricMatrix)
    (linear_solver : Solver) : option InertiaState :=
  inertia_loop fuel (first_factorization matrix linear_solver).

(** [modify_inertia] returns the matrix; the solver is modified in place. *)
Definition modify_inertia (fuel : nat) (matrix : COOSymmetricMatrix)
    (linear_solver : Solver) : option (COOSymmetricMatrix * Solver) :=
  match modify_inertia_run fuel matrix linear_solver with
  | Some st => Some (matrix_of st, solver_of st)
  | None => None
  end.

(** ** Specification vocabulary *)

(** The inertia terms tested one after the other, from the first one. *)
Fixpoint inertia_sequence (delta : Q) (k : nat) : Q :=
  match k with
  | O => delta
  | S k' => inertia_sequence (next_inertia delta) k'
  end.

(** The values appended to the matrix by [k] increases from [delta]: each
    increase appends [dimension] copies of the difference of two successive
    inertia terms. *)
Fixpoint increments (dim : nat) (delta : Q) (k : nat) : list Q :=
  match k with
  | O => []
  | S k' =>
      repeat (next_inertia delta - delta) dim ++ increments dim (next_inertia delta) k'
  end.

(** The state reached after [k] failed factorizations. *)
Fixpoint after_failures (k : nat) (st : InertiaState) : InertiaState :=
  match k with
  | O => st
  | S k' => after_failures k' (increase_inertia st)
  end.

(** The initial inertia term as the specification words it:
    [max(0, beta - min_diag(H))]. *)
Definition spec_initial_inertia (matrix : COOSymmetricMatrix) : Q :=
  Qmax 0 (beta - smallest_diagonal_entry matrix).

End ModifyInertia.

(** A direct solver for matrices of dimension 2, for the scenarios: the
    state is the dense matrix [[a, b], [b, c]] of the last numerical
    factorization, duplicate entries being summed. *)
Definition dense_entry (m : COOSymmetricMatrix) (i j : nat) : Q :=
  for_each m
    (fun r c entry acc =>
       if ((r =? i) && (c =? j) || (r =? j) && (c =? i))%nat then acc + entry else acc)
    0.

Definition determinant2 (d : Q * Q * Q) : Q :=
  let '(a, b, c) := d in a * c - b * b.

Definition trace2 (d : Q * Q * Q) : Q :=
  let '(a, b, c) := d in a + c.

#[export] Instance solver2 : LinearSolver (Q * Q * Q) := {
  do_symbolic_factorization s _ := s;
  do_numerical_factorization _ m := (dense_entry m 0 0, dense_entry m 1 0, dense_entry m 1 1);
  matrix_is_singular s := Qeq_bool (determinant2 s) 0;
  number_negative_eigenvalues s :=
    if Qlt_bool (determinant2 s) 0 then 1%nat
    else if Qlt_bool (trace2 s) 0
         then (if Qeq_bool (determinant2 s) 0 then 1%nat else 2%nat)
         else 0%nat
}.

(** [[0, 1], [1, 0]]: eigenvalues 1 and -1. *)
Definition saddle : COOSymmetricMatrix :=
  insert (create 2 4) 1 1 0.

(** [[1/20000, 0], [0, 1]]: positive definite, smallest diagonal entry below [beta]. *)
Definition tiny_diagonal : COOSymmetricMatrix :=
  insert (insert (create 2 4) (1 # 20000) 0 0) 1 1 1.

End Hessian.

(** * Trust-region mechanism *)

Module TrustRegion.
Import Base.

Record TrustRegionStrategy : Type := mkTR {
  radius : Q;
  increase_factor : Q;
  decrease_factor : Q;
  activity_tolerance : Q;
  min_radius : Q;
  number_iterations : nat
}.

Definition set_radius (tr : TrustRegionStrategy) (r : Q) : TrustRegionStrategy :=
  mkTR r (increase_factor tr) (decrease_factor tr) (activity_tolerance tr)
       (min_radius tr) (number_iterations tr).

Definition set_number_iterations (tr : TrustRegionStrategy) (n : nat)
  : TrustRegionStrategy :=
  mkTR (radius tr) (increase_factor tr) (decrease_factor tr) (activity_tolerance tr)
       (min_radius tr) n.

(** What the mechanism calls: the constraint-relaxation strategy, the static
    [assemble_trial_iterate] of [GlobalizationMechanism] and the statistics.
    [World] holds all that these calls reach by reference (the strategy and
    its subproblem, the statistics, the current iterate); each call may
    throw. *)
Class ConstraintRelaxationStrategy (World Iterate Model : Type) : Type := {
  create_current_subproblem : World -> Q -> World * Outcome unit;
  compute_feasible_direction : World -> World * Outcome Direction;
  assemble_trial_iterate : World -> Direction -> Q -> World * Outcome Iterate;
  generate_predicted_reduction_model : World -> Direction -> World * Outcome Model;
  is_acceptable :
    World -> Iterate -> Direction -> Model -> Q -> World * Outcome (bool * Iterate);
  register_accepted_iterate : World -> Iterate -> World * Outcome unit;
  add_statistic : World -> string -> Q -> World
}.

Definition radius_assertion : string := "0 < radius".
Definition unbounded_assertion : string :=
  "Trust-region subproblem is unbounded, this should not happen".
Definition too_small_error : string := "Trust-region radius became too small".
Definition unexpected_error : string := "Trust-region failed with an unexpected error".

(** The parameters of the mechanism, which no code modifies. *)
Definition same_parameters (a b : TrustRegionStrategy) : Prop :=
  increase_factor a = increase_factor b /\
  decrease_factor a = decrease_factor b /\
  activity_tolerance a = activity_tolerance b /\
  min_radius a = min_radius b.

(** [termination] *)
Definition termination (tr : TrustRegionStrategy) : bool :=
  Qlt_bool (radius tr) (min_radius tr).

(** [check_unboundedness] *)
Definition check_unboundedness (direction : Direction) : Outcome unit :=
  if negb (Status_eqb (status direction) UNBOUNDED_PROBLEM) then Returned tt
  else Aborted unbounded_assertion.

(** One of the two loops of [rectify_active_set]: the indices whose
    component of the direction equals [bound] leave the active set and their
    multiplier is set to 0. *)
Fixpoint rectify_bounds (x : list Q) (bound : Q) (active : list nat)
    (bound_multipliers : list Q) : list nat * list Q :=
  match active with
  | [] => ([], bound_multipliers)
  | i :: rest =>
      if Qeq_bool (nth i x 0) bound
      then rectify_bounds x bound rest (assign bound_multipliers i 0)
      else let (kept, mu) := rectify_bounds x bound rest bound_multipliers in
           (i :: kept, mu)
  end.

Definition rectify_active_set (direction : Direction) (radius : Q) : Outcome Direction :=
  if Qlt_bool 0 radius then
    let (lower, mu_lower) :=
      rectify_bounds (x direction) (- radius)
        (at_lower_bound (active_set_bounds direction))
        (lower_bounds (multipliers direction)) in
    let (upper, mu_upper) :=
      rectify_bounds (x direction) radius
        (at_upper_bound (active_set_bounds direction))
        (upper_bounds (multipliers direction)) in
    Returned
      (mkDirection (x direction)
         (mkMultipliers mu_lower mu_upper
            (constraints_multipliers (multipliers direction)))
         (mkActiveBounds lower upper) (status direction) (norm direction)
         (objective direction) (objective_multiplier direction)
         (constraint_partition direction))
  else Aborted radius_assertion.

Section Mechanism.
Context {World Iterate Model : Type} `{ConstraintRelaxationStrategy World Iterate Model}.
Open Scope monad_scope.

(** The mechanism and what it reaches. *)
Record Machine : Type := mkMachine {
  this : TrustRegionStrategy;
  world : World
}.

(** Computations that modify the machine. *)
Definition M (A : Type) : Type := Base.M Machine A.

(** A call to a collaborator. *)
Definition call {A : Type} (f : World -> World * Outcome A) : M A :=
  fun m => (mkMachine (this m) (fst (f (world m))), snd (f (world m))).

Definition get : M TrustRegionStrategy := fun m => (m, Returned (this m)).

Definition put (tr : TrustRegionStrategy) : M unit :=
  fun m => (mkMachine tr (world m), Returned tt).

(** [add_statistics] *)
Definition add_statistics (direction : Direction) : M unit :=
  tr <- get ;;
  call (fun w =>
    let w := add_statistic w "minor" (inject_Z (Z.of_nat (number_iterations tr))) in
    let w := add_statistic w "TR radius" (radius tr) in
    let w := add_statistic w "step norm" (norm direction) in
    (w, Returned tt)).

(** How the body of the [try] block ends when it does not throw: with the
    [return] of the accepted iterate, or at the end of the [else] branch. *)
Inductive Step : Type :=
| AcceptedStep (trial_iterate : Iterate) (direction : Direction)
| RejectedStep (direction : Direction).

(** The body of the [try] block. *)
Definition try_block : M Step :=
  tr <- get ;;
  assert (Qlt_bool 0 (radius tr)) radius_assertion ;;;
  put (set_number_iterations tr (S (number_iterations tr))) ;;;
  tr <- get ;;
  call (fun w => create_current_subproblem w (radius tr)) ;;;
  direction <- call compute_feasible_direction ;;
  pure (check_unboundedness direction) ;;;
  direction <- pure (rectify_active_set direction (radius tr)) ;;
  let full_step_length := 1 in
  trial_iterate <- call (fun w => assemble_trial_iterate w direction full_step_length) ;;
  predicted_reduction_model <-
    call (fun w => generate_predicted_reduction_model w direction) ;;
  acceptance <-
    call (fun w => is_acceptable w trial_iterate direction predicted_reduction_model
                                 full_step_length) ;;
  let (accept, trial_iterate) := acceptance : bool * Iterate in
  if accept then
    add_statistics direction ;;;
    (if Qle_bool (radius tr - activity_tolerance tr) (norm direction)
     then put (set_radius tr (radius tr * increase_factor tr))
     else ret tt) ;;;
    call (fun w => register_accepted_iterate w trial_iterate) ;;;
    ret (AcceptedStep trial_iterate direction)
  else
    put (set_radius tr (Qmin (radius tr) (norm direction) / decrease_factor tr)) ;;;
    ret (RejectedStep direction).

(** The [catch] clause. *)
Definition catch_numerical_error (m : Machine) : Machine :=
  mkMachine (set_radius (this m) (radius (this m) / decrease_factor (this m))) (world m).

(** How [compute_acceptable_iterate] ends. *)
Inductive Result : Type :=
| ReturnedIterate (trial_iterate : Iterate) (norm : Q)
| RuntimeError (what : string)
| Uncaught (e : Exception)
| AssertionViolated (assertion : string).

(** The code after the loop. *)
Definition after_loop (tr : TrustRegionStrategy) : Result :=
  if Qlt_bool (radius tr) (min_radius tr) then RuntimeError too_small_error
  else RuntimeError unexpected_error.

(** One pass through the body of the loop, [try] block and [catch] clause:
    the pass ends the call with a result, or the loop goes on. *)
Definition iteration (m : Machine) : Machine * option Result :=
  match try_block m with
  | (m', Returned (AcceptedStep trial_iterate direction)) =>
      (m', Some (ReturnedIterate trial_iterate (norm direction)))
  | (m', Returned (RejectedStep _)) => (m', None)
  | (m', Thrown (NumericalError _)) => (catch_numerical_error m', None)
  | (m', Thrown e) => (m', Some (Uncaught e))
  | (m', Aborted assertion) => (m', Some (AssertionViolated assertion))
  end.

(** [while (!this->termination())]; [fuel] bounds the number of tests. *)
Fixpoint loop (fuel : nat) (m : Machine) : option (Machine * Result) :=
  match fuel with
  | O => None
  | S fuel' =>
      if termination (this m) then Some (m, after_loop (this m))
      else
        match iteration m with
        | (m', Some result) => Some (m', result)
        | (m', None) => loop fuel' m'
        end
  end.

(** The machine at the entry of pass number [k] (from 0) of the loop
    started on [m], when the loop gets there. *)
Fixpoint entry (k : nat) (m : Machine) : option Machine :=
  if termination (this m) then None
  else
    match k with
    | O => Some m
    | S k' =>
        match iteration m with
        | (m', None) => entry k' m'
        | (_, Some _) => None
        end
    end.

Definition compute_acceptable_iterate (fuel : nat) (m : Machine)
  : option (Machine * Result) :=
  loop fuel (mkMachine (set_number_iterations (this m) 0) (world m)).

End Mechanism.

Arguments Machine World : clear implicits.

(** A relaxation strategy for the scenarios.  Its state is the radius of the
    current subproblem; the direction is a full step to the boundary of the
    trust region; an evaluation fails when the radius exceeds 4; the trial
    iterate is accepted when the step is no longer than [1/4]. *)
Definition boundary_direction (r : Q) : Direction :=
  mkDirection [r] (mkMultipliers [0] [0] []) (mkActiveBounds [] [0%nat]) OPTIMAL r 0 1 None.

#[export] Instance toy_strategy : ConstraintRelaxationStrategy Q Q unit := {
  create_current_subproblem _ r := (r, Returned tt);
  compute_feasible_direction r :=
    if Qlt_bool 4 r then (r, Thrown (NumericalError "evaluation error"))
    else (r, Returned (boundary_direction r));
  assemble_trial_iterate r d alpha := (r, Returned (alpha * nth 0 (x d) 0));
  generate_predicted_reduction_model r _ := (r, Returned tt);
  is_acceptable r trial d _ _ := (r, Returned (Qle_bool (norm d) (1 # 4), trial));
  register_accepted_iterate r _ := (r, Returned tt);
  add_statistic r _ _ := r
}.

Definition toy_machine (r : Q) : Machine Q :=
  mkMachine (mkTR r 2 2 (1 # 1000000) (1 # 1000) 0) r.


End TrustRegion.

(** * l1 relaxation *)

Module L1.
Import Base.

Record l1RelaxationParameters : Type := mkParameters {
  decrease_factor : Q;
  epsilon1 : Q;
  epsilon2 : Q
}.

(** Each map sends a constraint index to the index of its elastic variable. *)
Record ElasticVariables : Type := mkElastic {
  positive : SparseVector nat;
  negative : SparseVector nat
}.

(** What the strategy reads of the problem.  [compute_constraint_violation
    c j] stands for [problem.compute_constraint_violation(scaling, c, j)],
    whose code is not part of the sources. *)
Record Problem : Type := mkProblem {
  number_constraints : nat;
  compute_constraint_violation : Q -> nat -> Q
}.

(** The fields of [Iterate] that the strategy reads or writes. *)
Record Iterate : Type := mkIterate {
  iterate_x : list Q;
  iterate_multipliers : Multipliers;
  constraints : list Q;
  constraints_jacobian : list (SparseVector Q);
  errors_constraints : Q;
  progress : ProgressMeasures;
  lagrangian_gradient : list Q
}.

Definition Statistics : Type := list (string * Q).

(** Modelled from the spec: [norm_1] of a dense vector, declared in
    Vector.hpp without its code: the l1 norm of section 4.4.1, the sum of
    the absolute values. *)
Definition norm_1 (v : list Q) : Q :=
  fold_left (fun acc vi => acc + Qabs vi) v 0.

(** Modelled from the spec: [norm_1(f, size)], absent from the sources: the
    l1 norm of [f(0), ..., f(size - 1)]. *)
Definition norm_1_function (f : nat -> Q) (size : nat) : Q :=
  fold_left (fun acc j => acc + Qabs (f j)) (seq 0 size) 0.

(** The subproblem behind [this->subproblem], the static members of
    [Subproblem] and the methods of [Iterate] and of the base class
    [ConstraintRelaxationStrategy] that the strategy calls; [Sub] is the
    state of the subproblem and of its solver.  These calls return: a call
    of the strategy during which one of them throws is left by the
    exception, and is not described here. *)
Class Subproblem (Sub : Type) : Type := {
  solve : Sub -> Iterate -> Sub * Iterate * Direction;
  build_objective_model : Sub -> Iterate -> Q -> Sub * Iterate;
  compute_progress_measures : Sub -> Iterate -> Iterate;
  subproblem_definition_changed : Sub -> bool;
  set_subproblem_definition_changed : Sub -> bool -> Sub;
  add_elastic_variables_to_subproblem : ElasticVariables -> Sub -> Sub;
  remove_elastic_variables_from_subproblem : ElasticVariables -> Sub -> Sub;
  compute_optimality_conditions : Iterate -> Q -> Iterate;
  compute_complementarity_error : Iterate -> Multipliers -> Q;
  evaluate_lagrangian_gradient : Iterate -> Q -> Multipliers -> Iterate
}.

(** [GlobalizationStrategy], with the strategy object as a state [G]. *)
Class GlobalizationStrategy (G : Type) : Type := {
  reset : G -> G;
  check_acceptance :
    G -> Statistics -> ProgressMeasures -> ProgressMeasures -> Q -> Q
    -> G * Statistics * bool
}.

(** The two iterates that [is_acceptable] receives by reference. *)
Inductive Which : Type := Current | Trial.

(** Ghost history of a run: the calls to the collaborators and to
    [compute_predicted_reduction], and the assignments to
    [penalty_parameter], oldest first. *)
Inductive Event : Type :=
| ev_solve
| ev_build_objective_model (objective_multiplier : Q)
| ev_reset
| ev_compute_progress_measures (which : Which)
| ev_compute_predicted_reduction (step_length : Q)
| ev_check_acceptance (penalty_parameter predicted_reduction : Q)
| ev_compute_optimality_conditions (which : Which) (objective_multiplier : Q)
| ev_compute_error (penalty_parameter : Q)
| ev_penalty_parameter (value : Q).

(** The values assigned to the penalty parameter, oldest first. *)
Fixpoint assigned_penalties (events : list Event) : list Q :=
  match events with
  | [] => []
  | ev_penalty_parameter v :: rest => v :: assigned_penalties rest
  | _ :: rest => assigned_penalties rest
  end.

Definition is_check_acceptance (e : Event) : bool :=
  match e with ev_check_acceptance _ _ => true | _ => false end.

Definition is_compute_predicted_reduction (e : Event) : bool :=
  match e with ev_compute_predicted_reduction _ => true | _ => false end.

(** [chain R a l]: in the sequence [a :: l], each value is related by [R]
    to the next one. *)
Fixpoint chain (R : Q -> Q -> Prop) (a : Q) (l : list Q) : Prop :=
  match l with
  | [] => True
  | b :: rest => R a b /\ chain R b rest
  end.

(** The three updates of the penalty parameter, from [u] to [v]. *)
Definition penalty_update (decrease_factor u v : Q) : Prop :=
  (exists t, v = Qmin u (t * t)) \/ v = u / decrease_factor \/ v = 0.

(** An update that keeps the parameter nonnegative and does not increase it. *)
Definition decreasing_update (decrease_factor u v : Q) : Prop :=
  0 <= v /\ v <= u /\ penalty_update decrease_factor u v.

Definition no_infeasible_constraint (direction : Direction) : bool :=
  match constraint_partition direction with
  | Some partition =>
      match infeasible partition with [] => true | _ :: _ => false end
  | None => true
  end.

(** [compute_predicted_reduction] *)
Definition compute_predicted_reduction (problem : Problem) (current_iterate : Iterate)
    (direction : Direction) (predicted_reduction_model : Q -> Q) (step_length : Q) : Q :=
  if Qeq_bool step_length 1 then
    errors_constraints current_iterate + predicted_reduction_model step_length
  else
    let residual_function j :=
      let component_j :=
        nth j (constraints current_iterate) 0
        + step_length * dot (x direction)
                            (nth j (constraints_jacobian current_iterate) (mkSparse [] [] 0)) in
      compute_constraint_violation problem component_j j in
    let linearized_constraint_violation :=
      norm_1_function residual_function (number_constraints problem) in
    errors_constraints current_iterate - linearized_constraint_violation
    + predicted_reduction_model step_length.

(** The linearized constraint violation at step length [alpha], in the
    words of the specification: the l1 norm over the constraints [j] of the
    violation of [c_j(x) + alpha * (grad c_j . d)]. *)
Definition spec_linearized_violation (problem : Problem) (current_iterate : Iterate)
    (direction : Direction) (alpha : Q) : Q :=
  norm_1_function
    (fun j =>
       compute_constraint_violation problem
         (nth j (constraints current_iterate) 0
          + alpha * dot (x direction)
                        (nth j (constraints_jacobian current_iterate) (mkSparse [] [] 0)))
         j)
    (number_constraints problem).

(** The predicted reduction in the words of the specification. *)
Definition spec_predicted_reduction (problem : Problem) (current_iterate : Iterate)
    (direction : Direction) (predicted_reduction_model : Q -> Q) (alpha : Q) : Q :=
  (errors_constraints current_iterate
   - spec_linearized_violation problem current_iterate direction alpha)
  + predicted_reduction_model alpha.

Record Range : Type := mkRange { lb : Q; ub : Q }.

(** Modelled from the spec: [Problem::compute_constraint_violation], absent
    from the sources, after "Constraint infeasibility = max(0, c_L - c(x),
    c(x) - c_U)" (section 4.6), for the constraint bounds [bounds]. *)
Definition spec_problem (bounds : list Range) : Problem :=
  mkProblem (List.length bounds)
    (fun c j =>
       let range := nth j bounds (mkRange 0 0) in
       Qmax (Qmax 0 (lb range - c)) (c - ub range)).

Section Strategy.
Context {Sub G : Type} `{Subproblem Sub} `{GlobalizationStrategy G}.
Open Scope monad_scope.

(** The fields of [l1Relaxation]. *)
Record l1Relaxation : Type := mkL1 {
  subproblem : Sub;
  globalization_strategy : G;
  penalty_parameter : Q;
  parameters : l1RelaxationParameters;
  penalty_threshold : Q;
  elastic_variables : ElasticVariables
}.

(** The strategy and what its methods receive by reference. *)
Record Machine : Type := mkMachine {
  this : l1Relaxation;
  statistics : Statistics;
  current_iterate : Iterate;
  trial_iterate : Iterate;
  history : list Event
}.

Definition M (A : Type) : Type := Base.M Machine A.

Definition get : M Machine := fun m => (m, Returned m).

Definition log (e : Event) : M unit :=
  fun m => (mkMachine (this m) (statistics m) (current_iterate m) (trial_iterate m)
                      (history m ++ [e]), Returned tt).

Definition put_subproblem (s : Sub) : M unit :=
  fun m => (mkMachine (mkL1 s (globalization_strategy (this m)) (penalty_parameter (this m))
                            (parameters (this m)) (penalty_threshold (this m))
                            (elastic_variables (this m)))
                      (statistics m) (current_iterate m) (trial_iterate m) (history m),
            Returned tt).

Definition put_globalization_strategy (g : G) : M unit :=
  fun m => (mkMachine (mkL1 (subproblem (this m)) g (penalty_parameter (this m))
                            (parameters (this m)) (penalty_threshold (this m))
                            (elastic_variables (this m)))
                      (statistics m) (current_iterate m) (trial_iterate m) (history m),
            Returned tt).

Definition put_statistics (s : Statistics) : M unit :=
  fun m => (mkMachine (this m) s (current_iterate m) (trial_iterate m) (history m),
            Returned tt).

Definition put_iterate (which : Which) (iterate : Iterate) : M unit :=
  fun m =>
    (match which with
     | Current => mkMachine (this m) (statistics m) iterate (trial_iterate m) (history m)
     | Trial => mkMachine (this m) (statistics m) (current_iterate m) iterate (history m)
     end, Returned tt).

Definition iterate_of (which : Which) (m : Machine) : Iterate :=
  match which with Current => current_iterate m | Trial => trial_iterate m end.

(** [this->penalty_parameter = value] *)
Definition set_penalty_parameter (value : Q) : M unit :=
  fun m => (mkMachine (mkL1 (subproblem (this m)) (globalization_strategy (this m)) value
                            (parameters (this m)) (penalty_threshold (this m))
                            (elastic_variables (this m)))
                      (statistics m) (current_iterate m) (trial_iterate m)
                      (history m ++ [ev_penalty_parameter value]),
            Returned tt).

(** ** Calls to the collaborators *)

Definition subproblem_solve : M Direction :=
  m <- get ;;
  let '(s, iterate, direction) := solve (subproblem (this m)) (current_iterate m) in
  log ev_solve ;;; put_subproblem s ;;; put_iterate Current iterate ;;; ret direction.

Definition subproblem_build_objective_model (objective_multiplier : Q) : M unit :=
  m <- get ;;
  let '(s, iterate) :=
    build_objective_model (subproblem (this m)) (current_iterate m) objective_multiplier in
  log (ev_build_objective_model objective_multiplier) ;;;
  put_subproblem s ;;; put_iterate Current iterate.

Definition add_elastic_variables : M unit :=
  m <- get ;;
  put_subproblem
    (add_elastic_variables_to_subproblem (elastic_variables (this m)) (subproblem (this m))).

Definition remove_elastic_variables : M unit :=
  m <- get ;;
  put_subproblem
    (remove_elastic_variables_from_subproblem (elastic_variables (this m))
                                              (subproblem (this m))).

Definition strategy_reset : M unit :=
  m <- get ;;
  log ev_reset ;;; put_globalization_strategy (reset (globalization_strategy (this m))).

Definition subproblem_compute_progress_measures (which : Which) : M unit :=
  m <- get ;;
  log (ev_compute_progress_measures which) ;;;
  put_iterate which (compute_progress_measures (subproblem (this m)) (iterate_of which m)).

Definition strategy_check_acceptance (predicted_reduction : Q) : M bool :=
  m <- get ;;
  let '(g, s, accept) :=
    check_acceptance (globalization_strategy (this m)) (statistics m)
                     (progress (current_iterate m)) (progress (trial_iterate m))
                     (penalty_parameter (this m)) predicted_reduction in
  log (ev_check_acceptance (penalty_parameter (this m)) predicted_reduction) ;;;
  put_globalization_strategy g ;;; put_statistics s ;;; ret accept.

Definition subproblem_compute_optimality_conditions (which : Which)
    (objective_multiplier : Q) : M unit :=
  m <- get ;;
  log (ev_compute_optimality_conditions which objective_multiplier) ;;;
  put_iterate which (compute_optimality_conditions (iterate_of which m) objective_multiplier).

(** [statistics.add_statistic(name, value)] *)
Definition add_statistic (name : string) (value : Q) : M unit :=
  m <- get ;; put_statistics (statistics m ++ [(name, value)]).

(** ** Methods of [l1Relaxation] *)

Definition infeasible_assertion_solve : string :=
  "solve_subproblem: infeasible constraints found, although direction is feasible".
Definition infeasible_assertion_resolve : string :=
  "resolve_subproblem: infeasible constraints found, although direction is feasible".

(** [solve_subproblem] *)
Definition solve_subproblem : M Direction :=
  direction <- subproblem_solve ;;
  assert (no_infeasible_constraint direction) infeasible_assertion_solve ;;;
  m <- get ;;
  let direction := set_objective_multiplier direction (penalty_parameter (this m)) in
  remove_elastic_variables ;;;
  ret direction.

(** [resolve_subproblem] *)
Definition resolve_subproblem (objective_multiplier : Q) : M Direction :=
  subproblem_build_objective_model objective_multiplier ;;;
  add_elastic_variables ;;;
  direction <- subproblem_solve ;;
  assert (no_infeasible_constraint direction) infeasible_assertion_resolve ;;;
  let direction := set_objective_multiplier direction objective_multiplier in
  remove_elastic_variables ;;;
  ret direction.

(** [compute_linearized_constraint_residual]: the sum of the elastic
    variables of the direction. *)
Definition compute_linearized_constraint_residual (elastic : ElasticVariables)
    (direction : list Q) : Q :=
  let add_variable_contribution (i : nat) (residual : Q) := residual + nth i direction 0 in
  let residual := 0 in
  let residual := for_each_value 0%nat (positive elastic) add_variable_contribution residual in
  for_each_value 0%nat (negative elastic) add_variable_contribution residual.

(** [multipliers.constraints[j] += iterate.multipliers.constraints[j]] for
    [j < number_constraints] *)
Definition add_constraint_multipliers (problem : Problem) (displacements current : list Q)
  : list Q :=
  fold_left (fun acc j => assign acc j (nth j acc 0 + nth j current 0))
            (seq 0 (number_constraints problem)) displacements.

(** [compute_error]: complementarity error plus l1 norm of the gradient of
    the Lagrangian, for the multipliers of the direction added to those of
    the iterate. *)
Definition compute_error (problem : Problem) (multipliers_displacements : Multipliers)
    (current_penalty_parameter : Q) : M Q :=
  m <- get ;;
  let iterate := current_iterate m in
  let multipliers :=
    mkMultipliers
      (lower_bounds multipliers_displacements)
      (upper_bounds multipliers_displacements)
      (add_constraint_multipliers problem
         (constraints_multipliers multipliers_displacements)
         (constraints_multipliers (iterate_multipliers iterate))) in
  log (ev_compute_error current_penalty_parameter) ;;;
  let error := compute_complementarity_error iterate multipliers in
  let iterate := evaluate_lagrangian_gradient iterate current_penalty_parameter multipliers in
  put_iterate Current iterate ;;;
  ret (error + norm_1 (lagrangian_gradient iterate)).

(** [is_acceptable] *)
Definition is_acceptable (problem : Problem) (direction : Direction)
    (predicted_reduction_model : Q -> Q) (step_length : Q) : M bool :=
  m <- get ;;
  (if subproblem_definition_changed (subproblem (this m)) then
     strategy_reset ;;;
     m <- get ;;
     put_subproblem (set_subproblem_definition_changed (subproblem (this m)) false) ;;;
     subproblem_compute_progress_measures Current
   else ret tt) ;;;
  accept <-
    (if Qeq_bool (norm direction) 0 then ret true
     else
       subproblem_compute_progress_measures Trial ;;;
       m <- get ;;
       log (ev_compute_predicted_reduction step_length) ;;;
       let predicted_reduction :=
         compute_predicted_reduction problem (current_iterate m) direction
                                     predicted_reduction_model step_length in
       strategy_check_acceptance predicted_reduction) ;;
  (if accept : bool then
     m <- get ;;
     add_statistic "penalty param." (penalty_parameter (this m)) ;;;
     subproblem_compute_optimality_conditions Trial (objective_multiplier direction)
   else ret tt) ;;;
  ret accept.

(** The test of stage d, which sets [condition1]. *)
Definition fraction_of_ideal_decrease (epsilon1 violation residual_lowest_violation
    linearized_residual : Q) : bool :=
  (Qeq_bool residual_lowest_violation 0 && Qeq_bool linearized_residual 0)
  || (negb (Qeq_bool residual_lowest_violation 0)
      && Qle_bool (epsilon1 * (violation - residual_lowest_violation))
                  (violation - linearized_residual)).

(** Stages d and e at the head of the body of the loop: the new values of
    [condition1] and [condition2]. *)
Definition steering_conditions (direction_lowest_violation : Direction)
    (residual_lowest_violation : Q) (direction : Direction) (linearized_residual : Q)
    (condition1 : bool) (m : Machine) : bool * bool :=
  let violation := errors_constraints (current_iterate m) in
  let condition1 :=
    if negb condition1 then
      fraction_of_ideal_decrease (epsilon1 (parameters (this m))) violation
                                 residual_lowest_violation linearized_residual
    else condition1 in
  let condition2 :=
    condition1
    && Qle_bool (epsilon2 (parameters (this m))
                 * (violation - objective direction_lowest_violation))
                (violation - objective direction) in
  (condition1, condition2).

(** The body of [while (!condition2)]: it modifies the strategy and the
    local variables [direction], [linearized_residual], [condition1] and
    [condition2], whose final values it returns. *)
Definition steering_pass (direction_lowest_violation : Direction)
    (residual_lowest_violation : Q) (direction : Direction) (linearized_residual : Q)
    (condition1 : bool) : M (Direction * Q * bool * bool) :=
  m <- get ;;
  let (condition1, condition2) :=
    steering_conditions direction_lowest_violation residual_lowest_violation
                        direction linearized_residual condition1 m in
  if negb condition2 then
    set_penalty_parameter
      (penalty_parameter (this m) / decrease_factor (parameters (this m))) ;;;
    m <- get ;;
    if Qlt_bool (penalty_parameter (this m)) (penalty_threshold (this m)) then
      set_penalty_parameter 0 ;;;
      ret (direction, linearized_residual, condition1, true)
    else
      direction <- resolve_subproblem (penalty_parameter (this m)) ;;
      m <- get ;;
      let linearized_residual :=
        compute_linearized_constraint_residual (elastic_variables (this m)) (x direction) in
      ret (direction, linearized_residual, condition1, condition2)
  else ret (direction, linearized_residual, condition1, condition2).

(** [while (!condition2)], entered with [condition2 = false]; the loop
    returns the final [direction].  [fuel] bounds the number of passes. *)
Fixpoint steering_loop (fuel : nat) (direction_lowest_violation : Direction)
    (residual_lowest_violation : Q) (direction : Direction) (linearized_residual : Q)
    (condition1 : bool) (m : Machine) : option (Machine * Outcome Direction) :=
  match fuel with
  | O => None
  | S fuel' =>
      match steering_pass direction_lowest_violation residual_lowest_violation
                          direction linearized_residual condition1 m with
      | (m, Returned (direction, linearized_residual, condition1, condition2)) =>
          if condition2 : bool then Some (m, Returned direction)
          else steering_loop fuel' direction_lowest_violation residual_lowest_violation
                             direction linearized_residual condition1 m
      | (m, Thrown e) => Some (m, Thrown e)
      | (m, Aborted a) => Some (m, Aborted a)
      end
  end.

(** The stages c to f of [solve_with_steering_rule], which run when the
    problem had to be relaxed, up to the loop: the result is the direction
    and whether the loop is to run. *)
Definition update_penalty_parameter (problem : Problem) (direction : Direction)
    (direction_lowest_violation : Direction) (residual_lowest_violation : Q)
  : M (Direction * bool) :=
  m <- get ;;
  if negb (Qlt_bool 0 (errors_constraints (current_iterate m))
           && Qeq_bool residual_lowest_violation (errors_constraints (current_iterate m)))
  then
    error_lowest_violation <-
      compute_error problem (multipliers direction_lowest_violation) 0 ;;
    if Qeq_bool error_lowest_violation 0 then
      set_penalty_parameter 0 ;;;
      ret (direction_lowest_violation, false)
    else
      m <- get ;;
      let updated_penalty_parameter := penalty_parameter (this m) in
      let term :=
        error_lowest_violation / Qmax 1 (errors_constraints (current_iterate m)) in
      set_penalty_parameter (Qmin (penalty_parameter (this m)) (term * term)) ;;;
      m <- get ;;
      direction <-
        (if Qlt_bool (penalty_parameter (this m)) updated_penalty_parameter then
           if Qeq_bool (penalty_parameter (this m)) 0 then ret direction_lowest_violation
           else resolve_subproblem (penalty_parameter (this m))
         else ret direction) ;;
      ret (direction, true)
  else ret (direction, false).

(** Stage c and the stages up to the loop: the direction of lowest
    violation (penalty parameter 0), its linearized residual, and the
    result of [update_penalty_parameter]. *)
Definition lowest_violation_stage (problem : Problem) (direction : Direction)
  : M (Direction * Q * (Direction * bool)) :=
  direction_lowest_violation <- resolve_subproblem 0 ;;
  m <- get ;;
  let residual_lowest_violation :=
    compute_linearized_constraint_residual (elastic_variables (this m))
                                           (x direction_lowest_violation) in
  update <- update_penalty_parameter problem direction direction_lowest_violation
                                     residual_lowest_violation ;;
  ret (direction_lowest_violation, residual_lowest_violation, update).

(** The stages c to f, loop included: they return the final [direction]. *)
Definition relaxed_stages (fuel : nat) (problem : Problem) (direction : Direction)
    (linearized_residual : Q) (m : Machine) : option (Machine * Outcome Direction) :=
  match lowest_violation_stage problem direction m with
  | (m, Returned (direction_lowest_violation, residual_lowest_violation,
                  (direction, run_loop))) =>
      if run_loop : bool then
        steering_loop fuel direction_lowest_violation residual_lowest_violation
                      direction linearized_residual false m
      else Some (m, Returned direction)
  | (m, Thrown e) => Some (m, Thrown e)
  | (m, Aborted a) => Some (m, Aborted a)
  end.

(** The end of the block "if problem had to be relaxed". *)
Definition reset_if_decreased (current_penalty_parameter : Q) : M unit :=
  m <- get ;;
  if Qlt_bool (penalty_parameter (this m)) current_penalty_parameter
  then strategy_reset else ret tt.

(** [solve_with_steering_rule] *)
Definition solve_with_steering_rule (fuel : nat) (problem : Problem) (m : Machine)
  : option (Machine * Outcome Direction) :=
  match solve_subproblem m with
  | (m, Returned direction) =>
      if Qlt_bool 0 (penalty_parameter (this m)) then
        let linearized_residual :=
          compute_linearized_constraint_residual (elastic_variables (this m)) (x direction) in
        if negb (Qeq_bool linearized_residual 0) then
          let current_penalty_parameter := penalty_parameter (this m) in
          match relaxed_stages fuel problem direction linearized_residual m with
          | Some (m, Returned direction) =>
              Some ((reset_if_decreased current_penalty_parameter ;;; ret direction) m)
          | other => other
          end
        else Some (m, Returned direction)
      else Some (m, Returned direction)
  | (m, Thrown e) => Some (m, Thrown e)
  | (m, Aborted a) => Some (m, Aborted a)
  end.

(** ** Specification vocabulary *)

(** [m'] is reached from [m] by a run that assigns the values [l], in this
    order, to the penalty parameter, and that neither calls the
    globalization strategy nor modifies the constants of the strategy. *)
Definition updates (m m' : Machine) (l : list Q) : Prop :=
  exists events,
    history m' = history m ++ events /\
    assigned_penalties events = l /\
    ~ In ev_reset events /\
    penalty_parameter (this m') = last l (penalty_parameter (this m)) /\
    globalization_strategy (this m') = globalization_strategy (this m) /\
    parameters (this m') = parameters (this m) /\
    penalty_threshold (this m') = penalty_threshold (this m) /\
    elastic_variables (this m') = elastic_variables (this m).

(** A computation that leaves the penalty parameter alone. *)
Definition Quiet {A : Type} (c : M A) : Prop :=
  forall m m' o, c m = (m', o) -> updates m m' [].

(** What a call of [solve_with_steering_rule] that ends in [m'] with the
    outcome [o] has done to the penalty parameter and to the globalization
    strategy. *)
Definition steering_summary (m m' : Machine) (o : Outcome Direction) : Prop :=
  let sigma := penalty_parameter (this m) in
  let df := decrease_factor (parameters (this m)) in
  exists events,
    history m' = history m ++ events /\
    chain (penalty_update df) sigma (assigned_penalties events) /\
    chain (fun u v => v <= u) sigma (assigned_penalties events) /\
    penalty_parameter (this m') = last (assigned_penalties events) sigma /\
    penalty_parameter (this m') <= sigma /\
    (forall d, o = Returned d ->
       if Qlt_bool (penalty_parameter (this m')) sigma
       then globalization_strategy (this m') = reset (globalization_strategy (this m)) /\
            exists before, events = before ++ [ev_reset] /\ ~ In ev_reset before
       else globalization_strategy (this m') = globalization_strategy (this m) /\
            ~ In ev_reset events).

End Strategy.

Arguments Machine Sub G : clear implicits.
Arguments l1Relaxation Sub G : clear implicits.

(** ** A scenario

    One variable [d] in the trust region [[-1, 1]], one constraint whose
    linearization [d >= 3] is infeasible there, one elastic variable [p]
    (index 1) with [p >= 3 - d], and an objective of slope 40: the
    subproblem minimizes [40 mu d + p], for the objective multiplier [mu] of
    its current model.  Its solution is [d = 1, p = 2] when [40 mu < 1] and
    [d = -1, p = 4] otherwise.  The state of the subproblem is [mu] and the
    flag [subproblem_definition_changed]; the state of the globalization
    strategy counts its resets and accepts every step. *)
Definition toy_direction (mu : Q) : Direction :=
  if Qlt_bool (40 * mu) 1
  then mkDirection [1; 2] (mkMultipliers [0; 0] [0; 0] [0]) (mkActiveBounds [] [0%nat])
                   OPTIMAL 1 (40 * mu * 1 + 2) 0 None
  else mkDirection [-1; 4] (mkMultipliers [0; 0] [0; 0] [0]) (mkActiveBounds [0%nat] [])
                   OPTIMAL 1 (40 * mu * (-1) + 4) 0 None.

Definition set_lagrangian_gradient (iterate : Iterate) (g : list Q) : Iterate :=
  mkIterate (iterate_x iterate) (iterate_multipliers iterate) (constraints iterate)
            (constraints_jacobian iterate) (errors_constraints iterate) (progress iterate) g.

#[export] Instance toy_subproblem : Subproblem (Q * bool) := {
  solve s iterate := (s, iterate, toy_direction (fst s));
  build_objective_model s iterate objective_multiplier :=
    ((objective_multiplier, snd s), iterate);
  compute_progress_measures _ iterate := iterate;
  subproblem_definition_changed s := snd s;
  set_subproblem_definition_changed s b := (fst s, b);
  add_elastic_variables_to_subproblem _ s := s;
  remove_elastic_variables_from_subproblem _ s := s;
  compute_optimality_conditions iterate _ := iterate;
  compute_complementarity_error _ _ := 0;
  evaluate_lagrangian_gradient iterate objective_multiplier _ :=
    set_lagrangian_gradient iterate [40 * objective_multiplier - 1]
}.

#[export] Instance toy_globalization : GlobalizationStrategy nat := {
  reset g := S g;
  check_acceptance g s _ _ _ _ := (g, s, true)
}.

Definition toy_problem : Problem := spec_problem [mkRange 3 10].

Definition toy_iterate : Iterate :=
  mkIterate [0] (mkMultipliers [0] [0] [0]) [0] [mkSparse [0%nat] [1] 1] 3
            (mkProgress 3 0) [].

Definition toy_elastic : ElasticVariables :=
  mkElastic (mkSparse [0%nat] [1%nat] 1) (mkSparse [] [] 0).

(** The strategy with penalty parameter [sigma], the subproblem built for
    it, and the given threshold. *)
Definition toy_machine (sigma threshold : Q) (changed : bool) : Machine (Q * bool) nat :=
  mkMachine
    (mkL1 (sigma, changed) 0%nat sigma (mkParameters 10 (1 # 10) (1 # 10)) threshold
          toy_elastic)
    [] toy_iterate toy_iterate [].

(** A direction of norm 0, and a model of the predicted reduction, for the
    scenarios. *)
Definition null_direction : Direction :=
  mkDirection [0; 0] (mkMultipliers [0; 0] [0; 0] [0]) (mkActiveBounds [] [])
              OPTIMAL 0 0 1 None.

Definition toy_model (direction : Direction) (step_length : Q) : Q :=
  - step_length * objective direction.

(** ** Multipliers of the violated constraints *)

(** [set_multipliers]: the multiplier of a constraint violated at its lower
    bound becomes 1, that of a constraint violated at its upper bound
    becomes -1; the others are left as they are.  [constraint_bounds] is
    [problem.constraint_bounds]. *)
Definition set_multipliers (number_constraints : nat)
    (constraint_bounds : list Bounds.Range) (current_iterate : Iterate)
    (constraints_multipliers : list Q) : list Q :=
  fold_left
    (fun constraints_multipliers j =>
       let bounds := nth j constraint_bounds Bounds.free in
       let constraint := Bounds.Finite (nth j (constraints current_iterate) 0) in
       if Bounds.ltb constraint (Bounds.lb bounds)
       then assign constraints_multipliers j 1
       else if Bounds.ltb (Bounds.ub bounds) constraint
            then assign constraints_multipliers j (-1)
            else constraints_multipliers)
    (seq 0 number_constraints) constraints_multipliers.

End L1.

(** * Feasibility restoration *)

Module Restoration.
Import Base.

(** The two phases ([Phase], whose declaration is not in the sources). *)
Inductive Phase : Type := FEASIBILITY_RESTORATION | OPTIMALITY.

(** The fields of [Iterate] that the strategy reads or writes. *)
Record Iterate : Type := mkIterate {
  iterate_x : list Q;
  constraints : list Q;
  multipliers_constraints : list Q;
  progress : ProgressMeasures
}.

Definition set_progress (iterate : Iterate) (p : ProgressMeasures) : Iterate :=
  mkIterate (iterate_x iterate) (constraints iterate) (multipliers_constraints iterate) p.

Definition set_multipliers_constraints (iterate : Iterate) (mu : list Q) : Iterate :=
  mkIterate (iterate_x iterate) (constraints iterate) mu (progress iterate).

Record ElasticVariables : Type := mkElastic {
  positive : SparseVector nat;
  negative : SparseVector nat
}.

(** A value of the statistics: a number, or the phase ([is_acceptable]
    records [static_cast<int>(current_phase)]). *)
Inductive StatisticValue : Type :=
| stat_number (value : Q)
| stat_phase (phase : Phase).

Definition Statistics : Type := list (string * StatisticValue).

(** The subproblem, and the methods of [Problem], [Iterate] and of the base
    class [ConstraintRelaxationStrategy] that the strategy calls, for the
    problem at hand; their code is not part of the sources.  These calls
    return: a call of the strategy during which one of them throws is left
    by the exception, and is not described here. *)
Class Subproblem (Sub : Type) : Type := {
  compute_progress_measures : Sub -> Iterate -> Iterate;
  compute_residuals : Sub -> Iterate -> Q -> Iterate;
  subproblem_definition_changed : Sub -> bool;
  set_subproblem_definition_changed : Sub -> bool -> Sub;
  get_proximal_coefficient : Sub -> Q;
  number_variables : Sub -> nat;
  evaluate_constraints : Iterate -> Iterate;
  set_number_variables : Iterate -> nat -> Iterate;
  compute_constraint_violation : Sub -> list Q -> Q;
  compute_constraint_violation_of : Sub -> list Q -> list nat -> Q;
  evaluate_relaxed_constraints : ElasticVariables -> Iterate -> Iterate;
  is_small_step : Direction -> bool
}.

(** [GlobalizationStrategy], with the strategy object as a state [G]. *)
Class GlobalizationStrategy (G : Type) : Type := {
  reset : G -> G;
  notify : G -> Iterate -> G;
  check_acceptance :
    G -> Statistics -> ProgressMeasures -> ProgressMeasures -> Q -> Q
    -> G * Statistics * bool
}.

Inductive Which : Type := Current | Trial.
Inductive StrategyId : Type := Phase1 | Phase2.

(** Ghost history of a run: the calls made by [is_acceptable] and
    [switch_phase], oldest first.  A notification carries the iterate that
    is passed. *)
Inductive Event : Type :=
| ev_reset (strategy : StrategyId)
| ev_notify (strategy : StrategyId) (iterate : Iterate)
| ev_check_acceptance (strategy : StrategyId) (objective_multiplier predicted_reduction : Q)
| ev_compute_infeasibility_measures (which : Which)
| ev_add_proximal_term_to_progress_measures
| ev_compute_progress_measures (which : Which)
| ev_evaluate_constraints (which : Which)
| ev_set_number_variables (which : Which)
| ev_compute_residuals (which : Which) (objective_multiplier : Q).

(** [set_restoration_multipliers] *)
Definition set_restoration_multipliers (constraint_multipliers : list Q)
    (constraint_partition : ConstraintPartition) : list Q :=
  let mu :=
    fold_left (fun mu j => assign mu j 1)
              (lower_bound_infeasible constraint_partition) constraint_multipliers in
  fold_left (fun mu j => assign mu j (-1)) (upper_bound_infeasible constraint_partition) mu.

Section Strategy.
Context {Sub G : Type} `{Subproblem Sub} `{GlobalizationStrategy G}.
Open Scope monad_scope.

(** The fields of [FeasibilityRestoration]. *)
Record FeasibilityRestoration : Type := mkFR {
  subproblem : Sub;
  phase_1_strategy : G;
  phase_2_strategy : G;
  current_phase : Phase;
  use_proximal_term : bool;
  number_subproblem_variables : nat;
  elastic_variables : ElasticVariables;
  elastic_objective_coefficient : Q
}.

(** The strategy and what its methods receive by reference. *)
Record Machine : Type := mkMachine {
  this : FeasibilityRestoration;
  statistics : Statistics;
  current_iterate : Iterate;
  trial_iterate : Iterate;
  history : list Event
}.

Definition M (A : Type) : Type := Base.M Machine A.

Definition get : M Machine := fun m => (m, Returned m).

Definition log (e : Event) : M unit :=
  fun m => (mkMachine (this m) (statistics m) (current_iterate m) (trial_iterate m)
                      (history m ++ [e]), Returned tt).

Definition put_this (t : FeasibilityRestoration) : M unit :=
  fun m => (mkMachine t (statistics m) (current_iterate m) (trial_iterate m) (history m),
            Returned tt).

Definition put_statistics (s : Statistics) : M unit :=
  fun m => (mkMachine (this m) s (current_iterate m) (trial_iterate m) (history m),
            Returned tt).

Definition put_iterate (which : Which) (iterate : Iterate) : M unit :=
  fun m =>
    (match which with
     | Current => mkMachine (this m) (statistics m) iterate (trial_iterate m) (history m)
     | Trial => mkMachine (this m) (statistics m) (current_iterate m) iterate (history m)
     end, Returned tt).

Definition iterate_of (which : Which) (m : Machine) : Iterate :=
  match which with Current => current_iterate m | Trial => trial_iterate m end.

Definition set_subproblem (t : FeasibilityRestoration) (s : Sub) : FeasibilityRestoration :=
  mkFR s (phase_1_strategy t) (phase_2_strategy t) (current_phase t) (use_proximal_term t)
       (number_subproblem_variables t) (elastic_variables t) (elastic_objective_coefficient t).

Definition set_strategy (t : FeasibilityRestoration) (id : StrategyId) (g : G)
  : FeasibilityRestoration :=
  match id with
  | Phase1 =>
      mkFR (subproblem t) g (phase_2_strategy t) (current_phase t) (use_proximal_term t)
           (number_subproblem_variables t) (elastic_variables t)
           (elastic_objective_coefficient t)
  | Phase2 =>
      mkFR (subproblem t) (phase_1_strategy t) g (current_phase t) (use_proximal_term t)
           (number_subproblem_variables t) (elastic_variables t)
           (elastic_objective_coefficient t)
  end.

Definition strategy_of (t : FeasibilityRestoration) (id : StrategyId) : G :=
  match id with Phase1 => phase_1_strategy t | Phase2 => phase_2_strategy t end.

(** [this->current_phase = p] *)
Definition set_current_phase (p : Phase) : M unit :=
  m <- get ;;
  let t := this m in
  put_this (mkFR (subproblem t) (phase_1_strategy t) (phase_2_strategy t) p
                 (use_proximal_term t) (number_subproblem_variables t)
                 (elastic_variables t) (elastic_objective_coefficient t)).

(** ** Calls *)

Definition strategy_reset (id : StrategyId) : M unit :=
  m <- get ;;
  log (ev_reset id) ;;;
  put_this (set_strategy (this m) id (reset (strategy_of (this m) id))).

Definition strategy_notify (id : StrategyId) (which : Which) : M unit :=
  m <- get ;;
  log (ev_notify id (iterate_of which m)) ;;;
  put_this (set_strategy (this m) id (notify (strategy_of (this m) id) (iterate_of which m))).

Definition strategy_check_acceptance (id : StrategyId) (objective_multiplier
    predicted_reduction : Q) : M bool :=
  m <- get ;;
  let '(g, s, accept) :=
    check_acceptance (strategy_of (this m) id) (statistics m)
                     (progress (current_iterate m)) (progress (trial_iterate m))
                     objective_multiplier predicted_reduction in
  log (ev_check_acceptance id objective_multiplier predicted_reduction) ;;;
  put_this (set_strategy (this m) id g) ;;; put_statistics s ;;; ret accept.

Definition subproblem_compute_progress_measures (which : Which) : M unit :=
  m <- get ;;
  log (ev_compute_progress_measures which) ;;;
  put_iterate which (compute_progress_measures (subproblem (this m)) (iterate_of which m)).

Definition subproblem_compute_residuals (which : Which) (objective_multiplier : Q) : M unit :=
  m <- get ;;
  log (ev_compute_residuals which objective_multiplier) ;;;
  put_iterate which
    (compute_residuals (subproblem (this m)) (iterate_of which m) objective_multiplier).

Definition iterate_evaluate_constraints (which : Which) : M unit :=
  m <- get ;;
  log (ev_evaluate_constraints which) ;;;
  put_iterate which (evaluate_constraints (iterate_of which m)).

Definition iterate_set_number_variables (which : Which) (n : nat) : M unit :=
  m <- get ;;
  log (ev_set_number_variables which) ;;;
  put_iterate which (set_number_variables (iterate_of which m) n).

Definition add_statistic (name : string) (value : StatisticValue) : M unit :=
  m <- get ;; put_statistics (statistics m ++ [(name, value)]).

(** ** Methods of [FeasibilityRestoration] *)

(** [compute_infeasibility_measures], on the iterate it is given. *)
Definition infeasibility_measures (t : FeasibilityRestoration) (iterate : Iterate)
    (optional_constraint_partition : option ConstraintPartition) : Iterate :=
  match optional_constraint_partition with
  | Some constraint_partition =>
      let iterate := evaluate_constraints iterate in
      let feasibility_measure :=
        compute_constraint_violation (subproblem t) (constraints iterate) in
      let objective_measure :=
        compute_constraint_violation_of (subproblem t) (constraints iterate)
                                        (infeasible constraint_partition) in
      set_progress iterate (mkProgress feasibility_measure objective_measure)
  | None =>
      let iterate := evaluate_relaxed_constraints (elastic_variables t) iterate in
      let iterate := compute_progress_measures (subproblem t) iterate in
      let add_elastic (i : nat) (it : Iterate) :=
        set_progress it
          (mkProgress (feasibility (progress it))
                      (objective_measure (progress it)
                       + elastic_objective_coefficient t * nth i (iterate_x it) 0)) in
      let iterate := for_each_value 0%nat (negative (elastic_variables t)) add_elastic iterate in
      for_each_value 0%nat (positive (elastic_variables t)) add_elastic iterate
  end.

Definition compute_infeasibility_measures (which : Which)
    (optional_constraint_partition : option ConstraintPartition) : M unit :=
  m <- get ;;
  log (ev_compute_infeasibility_measures which) ;;;
  put_iterate which
    (infeasibility_measures (this m) (iterate_of which m) optional_constraint_partition).

(** [std::min(1., 1/std::abs(x))]; the division of 1 by 0 gives [+infinity]
    and the minimum is then 1. *)
Definition proximal_weight (xi : Q) : Q :=
  if Qeq_bool xi 0 then 1 else Qmin 1 (1 / Qabs xi).

(** [add_proximal_term_to_progress_measures] *)
Definition add_proximal_term_to_progress_measures : M unit :=
  m <- get ;;
  let coefficient := get_proximal_coefficient (subproblem (this m)) in
  let current := current_iterate m in
  let add_term (trial : Iterate) (i : nat) :=
    let dr := proximal_weight (nth i (iterate_x current) 0) in
    let d := dr * (nth i (iterate_x trial) 0 - nth i (iterate_x current) 0) in
    let proximal_term := coefficient * (d * d) in
    set_progress trial
      (mkProgress (feasibility (progress trial))
                  (objective_measure (progress trial) + proximal_term)) in
  log ev_add_proximal_term_to_progress_measures ;;;
  put_iterate Trial
    (fold_left add_term (seq 0 (number_variables (subproblem (this m)))) (trial_iterate m)).

(** [switch_phase]; it returns the strategy of the current phase, here by
    its name. *)
Definition switch_phase (direction : Direction) : M StrategyId :=
  m <- get ;;
  (match current_phase (this m) with
   | FEASIBILITY_RESTORATION =>
       if Qlt_bool 0 (objective_multiplier direction) then
         set_current_phase OPTIMALITY ;;;
         (match constraint_partition direction with
          | Some _ =>
              iterate_set_number_variables Current (number_subproblem_variables (this m))
          | None => ret tt
          end) ;;;
         iterate_evaluate_constraints Current ;;;
         subproblem_compute_progress_measures Current
       else ret tt
   | OPTIMALITY =>
       if Qeq_bool (objective_multiplier direction) 0 then
         set_current_phase FEASIBILITY_RESTORATION ;;;
         strategy_notify Phase2 Current ;;;
         strategy_reset Phase1 ;;;
         compute_infeasibility_measures Current (constraint_partition direction) ;;;
         strategy_notify Phase1 Current
       else ret tt
   end) ;;;
  m <- get ;;
  (match current_phase (this m) with
   | OPTIMALITY =>
       iterate_set_number_variables Trial (number_subproblem_variables (this m)) ;;;
       iterate_evaluate_constraints Trial ;;;
       subproblem_compute_progress_measures Trial
   | FEASIBILITY_RESTORATION =>
       compute_infeasibility_measures Trial (constraint_partition direction) ;;;
       if use_proximal_term (this m) then add_proximal_term_to_progress_measures
       else ret tt
   end) ;;;
  ret (match current_phase (this m) with
       | OPTIMALITY => Phase2
       | FEASIBILITY_RESTORATION => Phase1
       end).

(** The head of [is_acceptable]: "check if subproblem definition changed". *)
Definition refresh_if_definition_changed : M unit :=
  m <- get ;;
  if subproblem_definition_changed (subproblem (this m)) then
    put_this (set_subproblem (this m)
                (set_subproblem_definition_changed (subproblem (this m)) false)) ;;;
    strategy_reset Phase2 ;;;
    subproblem_compute_progress_measures Current
  else ret tt.

(** The block [if (accept)] of [is_acceptable]. *)
Definition record_acceptance (direction : Direction) : M unit :=
  m <- get ;;
  add_statistic "phase" (stat_phase (current_phase (this m))) ;;;
  (match constraint_partition direction with
   | Some constraint_partition =>
       if Qeq_bool (objective_multiplier direction) 0 then
         m <- get ;;
         put_iterate Trial
           (set_multipliers_constraints (trial_iterate m)
              (set_restoration_multipliers
                 (multipliers_constraints (trial_iterate m)) constraint_partition))
       else ret tt
   | None => ret tt
   end) ;;;
  subproblem_compute_residuals Trial (objective_multiplier direction).

(** [is_acceptable] *)
Definition is_acceptable (direction : Direction) (predicted_reduction_model : Q -> Q)
    (step_length : Q) : M bool :=
  refresh_if_definition_changed ;;;
  accept <-
    (if is_small_step direction then
       subproblem_compute_progress_measures Trial ;;; ret true
     else
       current_phase_strategy <- switch_phase direction ;;
       let predicted_reduction := predicted_reduction_model step_length in
       strategy_check_acceptance current_phase_strategy (objective_multiplier direction)
                                 predicted_reduction) ;;
  (if accept : bool then record_acceptance direction else ret tt) ;;;
  ret accept.

(** ** Specification vocabulary *)


End Strategy.

Arguments Machine Sub G : clear implicits.
Arguments FeasibilityRestoration Sub G : clear implicits.

(** ** A scenario

    The state of the subproblem is the flag [subproblem_definition_changed];
    a step is small when the norm of the direction is 0, as the l1
    relaxation strategy tests it; a globalization strategy is the list of
    the iterates it has been notified of (its filter), which a reset
    empties, and it accepts every step. *)
#[export] Instance toy_subproblem : Subproblem bool := {
  compute_progress_measures _ iterate := iterate;
  compute_residuals _ iterate _ := iterate;
  subproblem_definition_changed s := s;
  set_subproblem_definition_changed _ b := b;
  get_proximal_coefficient _ := 0;
  number_variables _ := 1%nat;
  evaluate_constraints iterate := iterate;
  set_number_variables iterate _ := iterate;
  compute_constraint_violation _ c := L1.norm_1 c;
  compute_constraint_violation_of _ c set :=
    L1.norm_1 (map (fun j => nth j c 0) set);
  evaluate_relaxed_constraints _ iterate := iterate;
  is_small_step direction := Qeq_bool (norm direction) 0
}.

#[export] Instance toy_globalization : GlobalizationStrategy (list Iterate) := {
  reset _ := [];
  notify g iterate := g ++ [iterate];
  check_acceptance g s _ _ _ _ := (g, s, true)
}.

Definition toy_iterate (xi ci : Q) : Iterate :=
  mkIterate [xi] [ci] [0] (mkProgress (Qabs ci) xi).

Definition toy_machine (phase : Phase) : Machine bool (list Iterate) :=
  mkMachine
    (mkFR false [] [] phase false 1 (mkElastic (mkSparse [] [] 0) (mkSparse [] [] 0)) 1)
    [] (toy_iterate 0 3) (toy_iterate 1 2) [].

(** A feasibility direction ([objective_multiplier = 0]) with the given
    primal step. *)
Definition feasibility_direction (d : Q) : Direction :=
  mkDirection [d] (mkMultipliers [0] [0] [0]) (mkActiveBounds [] []) OPTIMAL (Qabs d) 0 0
              (Some (mkPartition [] [0%nat] [0%nat] [])).

(** An optimality direction ([objective_multiplier = 1]). *)
Definition optimality_direction (d : Q) : Direction :=
  mkDirection [d] (mkMultipliers [0] [0] [0]) (mkActiveBounds [] []) OPTIMAL (Qabs d) 0 1 None.

(** ** The computation of a direction *)

(** What the computation of a direction calls besides: the solve of the
    subproblem and the methods that turn the subproblem into the
    feasibility problem, with [initialize_vector]; their code is not part
    of the sources.  As above, these calls return. *)
Class DirectionSubproblem (Sub : Type) : Type := {
  solve : Sub -> Statistics -> Iterate -> Sub * Statistics * Iterate * Direction;
  clear_objective_gradient : Sub -> Sub;
  build_objective_model : Sub -> Iterate -> Q -> Sub * Iterate;
  add_proximal_term_to_hessian : Sub -> (nat -> Q) -> Sub;
  compute_feasibility_linear_objective : Sub -> Iterate -> ConstraintPartition -> Sub;
  generate_feasibility_bounds : Sub -> list Q -> ConstraintPartition -> Sub;
  set_initial_point : Sub -> list Q -> Sub;
  add_elastic_variables_to_subproblem : ElasticVariables -> Sub -> Iterate -> Sub * Iterate;
  remove_elastic_variables_from_subproblem : ElasticVariables -> Sub -> Sub;
  initialize_vector : list Q -> Q -> list Q
}.

Definition not_solved_assertion : string := "The subproblem was not solved properly".
Definition not_optimal_assertion : string := "The subproblem was not solved to optimality".
Definition no_infeasible_assertion : string :=
  "The subproblem is infeasible but no constraint is infeasible".

Section Directions.
Context {Sub G : Type} {direction_interface : DirectionSubproblem Sub}.
Open Scope monad_scope.

(** [this->subproblem->solve(statistics, problem, current_iterate)] *)
Definition subproblem_solve : M (Sub := Sub) (G := G) Direction :=
  m <- get ;;
  let '(s, statistics, iterate, direction) :=
    solve (subproblem (this m)) (statistics m) (current_iterate m) in
  put_this (set_subproblem (this m) s) ;;; put_statistics statistics ;;;
  put_iterate Current iterate ;;; ret direction.

(** A call that modifies the subproblem only. *)
Definition update_subproblem (f : Sub -> Sub) : M (Sub := Sub) (G := G) unit :=
  m <- get ;; put_this (set_subproblem (this m) (f (subproblem (this m)))).

Definition subproblem_build_objective_model (objective_multiplier : Q)
  : M (Sub := Sub) (G := G) unit :=
  m <- get ;;
  let '(s, iterate) :=
    build_objective_model (subproblem (this m)) (current_iterate m) objective_multiplier in
  put_this (set_subproblem (this m) s) ;;; put_iterate Current iterate.

Definition add_elastic_variables : M (Sub := Sub) (G := G) unit :=
  m <- get ;;
  let '(s, iterate) :=
    add_elastic_variables_to_subproblem (elastic_variables (this m)) (subproblem (this m))
                                        (current_iterate m) in
  put_this (set_subproblem (this m) s) ;;; put_iterate Current iterate.

Definition remove_elastic_variables : M (Sub := Sub) (G := G) unit :=
  m <- get ;;
  update_subproblem (remove_elastic_variables_from_subproblem (elastic_variables (this m))).

(** [current_iterate.multipliers.constraints = mu] *)
Definition put_current_multipliers (mu : list Q) : M (Sub := Sub) (G := G) unit :=
  m <- get ;; put_iterate Current (set_multipliers_constraints (current_iterate m) mu).

(** [add_proximal_term_to_subproblem]: the diagonal term of position [i]
    is [min(1, 1/|x_i|)^2]. *)
Definition add_proximal_term_to_subproblem : M (Sub := Sub) (G := G) unit :=
  m <- get ;;
  update_subproblem
    (fun s =>
       add_proximal_term_to_hessian s
         (fun i =>
            let weight := proximal_weight (nth i (iterate_x (current_iterate m)) 0) in
            weight * weight)).

(** [constraint_partition.infeasible.empty()] *)
Definition no_infeasible (constraint_partition : ConstraintPartition) : bool :=
  match infeasible constraint_partition with [] => true | _ :: _ => false end.

(** [create_current_feasibility_problem] *)
Definition create_current_feasibility_problem
    (optional_phase_2_primal_direction : option (list Q))
    (optional_constraint_partition : option ConstraintPartition)
  : M (Sub := Sub) (G := G) unit :=
  (match optional_constraint_partition with
   | Some constraint_partition =>
       assert (negb (no_infeasible constraint_partition)) no_infeasible_assertion ;;;
       m <- get ;;
       put_current_multipliers
         (set_restoration_multipliers (multipliers_constraints (current_iterate m))
                                      constraint_partition) ;;;
       update_subproblem clear_objective_gradient ;;;
       subproblem_build_objective_model 0 ;;;
       m <- get ;;
       (if use_proximal_term (this m) then add_proximal_term_to_subproblem else ret tt) ;;;
       m <- get ;;
       update_subproblem
         (fun s => compute_feasibility_linear_objective s (current_iterate m)
                                                        constraint_partition) ;;;
       m <- get ;;
       update_subproblem
         (fun s => generate_feasibility_bounds s (constraints (current_iterate m))
                                               constraint_partition)
   | None =>
       m <- get ;;
       put_current_multipliers
         (initialize_vector (multipliers_constraints (current_iterate m)) 0) ;;;
       subproblem_build_objective_model 0 ;;;
       m <- get ;;
       (if use_proximal_term (this m) then add_proximal_term_to_subproblem else ret tt) ;;;
       add_elastic_variables
   end) ;;;
  match optional_phase_2_primal_direction with
  | Some phase_2_primal_direction =>
      update_subproblem (fun s => set_initial_point s phase_2_primal_direction)
  | None => ret tt
  end.

(** [solve_feasibility_problem] *)
Definition solve_feasibility_problem
    (optional_phase_2_primal_direction : option (list Q))
    (optional_constraint_partition : option ConstraintPartition)
  : M (Sub := Sub) (G := G) Direction :=
  create_current_feasibility_problem optional_phase_2_primal_direction
                                     optional_constraint_partition ;;;
  feasibility_direction <- subproblem_solve ;;
  let feasibility_direction := set_objective_multiplier feasibility_direction 0 in
  assert (Status_eqb (status feasibility_direction) OPTIMAL) not_optimal_assertion ;;;
  match optional_constraint_partition with
  | Some constraint_partition =>
      ret (set_constraint_partition feasibility_direction (Some constraint_partition))
  | None =>
      remove_elastic_variables ;;; ret feasibility_direction
  end.

(** [compute_feasible_direction]; [objective_sign] is
    [problem.objective_sign]. *)
Definition compute_feasible_direction (objective_sign : Q)
  : M (Sub := Sub) (G := G) Direction :=
  direction <- subproblem_solve ;;
  let direction := set_objective_multiplier direction objective_sign in
  assert (Status_eqb (status direction) OPTIMAL || Status_eqb (status direction) INFEASIBLE)
         not_solved_assertion ;;;
  if Status_eqb (status direction) INFEASIBLE then
    solve_feasibility_problem (Some (x direction)) (constraint_partition direction)
  else ret direction.

End Directions.

(** A subproblem for the scenarios of the computation of a direction: its
    state is the objective multiplier of its model; the linearized
    constraints are infeasible, so that the solve fails with the first
    constraint infeasible at its lower bound unless the model is that of
    the feasibility problem (multiplier 0). *)
#[export] Instance toy_direction_subproblem : DirectionSubproblem Q := {
  solve s statistics iterate :=
    (s, statistics, iterate,
     if Qeq_bool s 0
     then mkDirection [1] (mkMultipliers [0] [0] [0]) (mkActiveBounds [] []) OPTIMAL 1 2 1 None
     else mkDirection [0] (mkMultipliers [0] [0] [0]) (mkActiveBounds [] []) INFEASIBLE 0 0 1
                      (Some (mkPartition [] [0%nat] [0%nat] [])));
  clear_objective_gradient s := s;
  build_objective_model _ iterate objective_multiplier := (objective_multiplier, iterate);
  add_proximal_term_to_hessian s _ := s;
  compute_feasibility_linear_objective s _ _ := s;
  generate_feasibility_bounds s _ _ := s;
  set_initial_point s _ := s;
  add_elastic_variables_to_subproblem _ s iterate := (s, iterate);
  remove_elastic_variables_from_subproblem _ s := s;
  initialize_vector v a := map (fun _ => a) v
}.

Definition toy_direction_machine : Machine Q (list Iterate) :=
  mkMachine
    (mkFR 1 [] [] OPTIMALITY false 1 (mkElastic (mkSparse [] [] 0) (mkSparse [] [] 0)) 1)
    [] (toy_iterate 0 3) (toy_iterate 0 3) [].

End Restoration.

(** * The interface to MA27 *)

Module MA27.

(** [static_cast<size_t>(i)] of an [int]: the value modulo 2^64. *)
Definition to_size_t (i : Z) : Z := (i mod 2 ^ 64)%Z.

(** [static_cast<int>(s)] of a [size_t]: the value modulo 2^32, between
    [-2^31] and [2^31 - 1]. *)
Definition to_int (s : Z) : Z := ((s + 2 ^ 31) mod 2 ^ 32 - 2 ^ 31)%Z.

(** [enum eINFO]: positions in [info]. *)
Definition IFLAG : nat := 0.
Definition IERROR : nat := 1.
Definition NEIG : nat := 14.

(** [enum eIFLAG]: values of [info[IFLAG]]. *)
Definition SINGULAR : Z := -5.
Definition INSUFFICIENTREAL : Z := -4.
Definition INSUFFICIENTINTEGER : Z := -3.
Definition SUCCESS : Z := 0.
Definition IDXOUTOFRANGE : Z := 1.
Definition FALSEDEFINITENESS : Z := 2.
Definition RANKDEFECT : Z := 3.

(** The fields of [MA27Solver] that the functions below read or write:
    [n], the row and column indices in the format of the Fortran routines,
    and the array [info] that these routines fill. *)
Record MA27Solver : Type := mkMA27 {
  n : Z;
  irn : list Z;
  icn : list Z;
  info : list Z
}.

Definition number_negative_eigenvalues (s : MA27Solver) : Z :=
  to_size_t (nth NEIG (info s) 0%Z).

Definition matrix_is_singular (s : MA27Solver) : bool :=
  (nth IFLAG (info s) 0 =? SINGULAR)%Z || (nth IFLAG (info s) 0 =? RANKDEFECT)%Z.

Definition rank (s : MA27Solver) : Z :=
  if (nth IFLAG (info s) 0 =? RANKDEFECT)%Z
  then to_size_t (nth IERROR (info s) 0%Z)
  else to_size_t (n s).

(** [get_inertia]: the numbers of positive, negative and zero eigenvalues;
    the subtractions are those of [size_t]. *)
Definition get_inertia (s : MA27Solver) : Z * Z * Z :=
  let rankA := rank s in
  let num_negative_eigenvalues := number_negative_eigenvalues s in
  let num_positive_eigenvalues := ((rankA - num_negative_eigenvalues) mod 2 ^ 64)%Z in
  let num_zero_eigenvalues := ((to_size_t (n s) - rankA) mod 2 ^ 64)%Z in
  (num_positive_eigenvalues, num_negative_eigenvalues, num_zero_eigenvalues).

(** [save_matrix_to_local_format]; [matrix] is the sequence of the triples
    (row, column, element) that the iteration over the matrix yields. *)
Definition save_matrix_to_local_format (s : MA27Solver) (matrix : list (nat * nat * Q))
  : MA27Solver :=
  let fortran_shift := 1%Z in
  let step (acc : list Z * list Z) (entry : nat * nat * Q) :=
    let '(row_index, column_index, _) := entry in
    (fst acc ++ [to_int (to_size_t (Z.of_nat row_index + fortran_shift))],
     snd acc ++ [to_int (to_size_t (Z.of_nat column_index + fortran_shift))]) in
  let (irn, icn) := fold_left step matrix ([], []) in
  mkMA27 (n s) irn icn (info s).

End MA27.

(** * The problem: bounds and constraints (base/Problem.cpp) *)

Module ProblemBase.
Import Bounds.

(** [lb - c] and [c - ub] for a bound that may be infinite and a finite
    [c]. *)
Definition bound_minus (b : Bound) (c : Q) : Bound :=
  match b with
  | MinusInfinity => MinusInfinity
  | Finite q => Finite (q - c)
  | PlusInfinity => PlusInfinity
  end.

Definition minus_bound (c : Q) (b : Bound) : Bound :=
  match b with
  | MinusInfinity => PlusInfinity
  | Finite q => Finite (c - q)
  | PlusInfinity => MinusInfinity
  end.

(** [std::max(a, b)]: [b] when [a < b], and [a] otherwise. *)
Definition max (a b : Bound) : Bound := if ltb a b then b else a.

(** The residual of one constraint:
    [max(max(0, lb - c), c - ub)]. *)
Definition residual (bounds : Range) (c : Q) : Bound :=
  max (max (Finite 0) (bound_minus (lb bounds) c)) (minus_bound c (ub bounds)).

(** The vector [residuals] of [compute_constraint_residual] before its norm
    is taken: as long as [constraints], filled with zeros, then set for
    [j < number_constraints]. *)
Definition constraint_residuals (number_constraints : nat) (constraint_bounds : list Range)
    (constraints : list Q) : list Bound :=
  fold_left
    (fun residuals j =>
       Sparse.update residuals j (residual (nth j constraint_bounds free) (nth j constraints 0)))
    (seq 0 number_constraints) (repeat (Finite 0) (length constraints)).

(** [compute_constraint_residual]: [norm] is the norm chosen by
    [norm_value], whose code is not in the sources. *)
Definition compute_constraint_residual (norm : list Bound -> Bound) (number_constraints : nat)
    (constraint_bounds : list Range) (constraints : list Q) : Bound :=
  norm (constraint_residuals number_constraints constraint_bounds constraints).

(** [enum ConstraintType] *)
Inductive ConstraintType : Type :=
| EQUAL_BOUNDS | BOUNDED_LOWER | BOUNDED_UPPER | BOUNDED_BOTH_SIDES | UNBOUNDED.

Definition ConstraintType_eqb (a b : ConstraintType) : bool :=
  match a, b with
  | EQUAL_BOUNDS, EQUAL_BOUNDS | BOUNDED_LOWER, BOUNDED_LOWER
  | BOUNDED_UPPER, BOUNDED_UPPER | BOUNDED_BOTH_SIDES, BOUNDED_BOTH_SIDES
  | UNBOUNDED, UNBOUNDED => true
  | _, _ => false
  end.

(** The body of the loop of [determine_bounds_types]. *)
Definition bounds_type (bounds : Range) : ConstraintType :=
  if eqb (lb bounds) (ub bounds) then EQUAL_BOUNDS
  else if ltb MinusInfinity (lb bounds) && ltb (ub bounds) PlusInfinity then BOUNDED_BOTH_SIDES
  else if ltb MinusInfinity (lb bounds) then BOUNDED_LOWER
  else if ltb (ub bounds) PlusInfinity then BOUNDED_UPPER
  else UNBOUNDED.

(** [determine_bounds_types] *)
Definition determine_bounds_types (bounds : list Range) (status : list ConstraintType)
  : list ConstraintType :=
  fold_left (fun status i => Sparse.update status i (bounds_type (nth i bounds free)))
            (seq 0 (length bounds)) status.

(** A [std::map<int, int>], by its lookups. *)
Definition IndexMap : Type := nat -> option nat.

Definition empty_map : IndexMap := fun _ => None.

(** [map[key] = value] *)
Definition map_set (map : IndexMap) (key value : nat) : IndexMap :=
  fun k => if (k =? key)%nat then Some value else map k.

(** The state of the loop of [determine_constraints_]: the two maps and
    the two counters. *)
Record ConstraintMaps : Type := mkMaps {
  equality_constraints : IndexMap;
  inequality_constraints : IndexMap;
  current_equality_constraint : nat;
  current_inequality_constraint : nat
}.

(** [determine_constraints_], from the maps the problem holds. *)
Definition determine_constraints_ (number_constraints : nat)
    (constraint_status : list ConstraintType)
    (equality_constraints inequality_constraints : IndexMap) : ConstraintMaps :=
  fold_left
    (fun maps j =>
       if ConstraintType_eqb (nth j constraint_status UNBOUNDED) EQUAL_BOUNDS then
         mkMaps (map_set (ProblemBase.equality_constraints maps) j
                         (current_equality_constraint maps))
                (ProblemBase.inequality_constraints maps)
                (S (current_equality_constraint maps))
                (current_inequality_constraint maps)
       else
         mkMaps (ProblemBase.equality_constraints maps)
                (map_set (ProblemBase.inequality_constraints maps) j
                         (current_inequality_constraint maps))
                (current_equality_constraint maps)
                (S (current_inequality_constraint maps)))
    (seq 0 number_constraints)
    (mkMaps equality_constraints inequality_constraints 0 0).

End ProblemBase.

(** * Predicted reduction of the subproblems *)

Module PredictedReduction.
Import Base.

(** Modelled from the spec: [PredictedReductionModel] (section 3), whose
    code is not in the sources: "a lazy, two-stage closure"; "stage-1
    returns the value at alpha = 1 cheaply; stage-2 precomputes the
    quadratic coefficients once and yields an O(1) alpha-evaluator".  The
    constructor takes the value of the full step and the precomputation. *)
Record PredictedReductionModel : Type := mkModel {
  full_step_value : Q;
  partial_step_precomputation : unit -> Q -> Q
}.

Definition evaluate (model : PredictedReductionModel) (step_length : Q) : Q :=
  if Qeq_bool step_length 1 then full_step_value model
  else partial_step_precomputation model tt step_length.

(** [LPSubproblem::generate_predicted_reduction_model] *)
Definition LP_generate_predicted_reduction_model (direction : Direction)
  : PredictedReductionModel :=
  mkModel (- objective direction)
    (fun _ => fun step_length => - step_length * objective direction).

(** [QPSubproblem::generate_predicted_reduction_model]; [quadratic_product x
    y] stands for [hessian->quadratic_product(x, y, number_variables)],
    whose code is not in the sources. *)
Definition QP_generate_predicted_reduction_model
    (quadratic_product : list Q -> list Q -> Q) (objective_gradient : SparseVector Q)
    (direction : Direction) : PredictedReductionModel :=
  mkModel (- objective direction)
    (fun _ =>
       let linear_term := dot (x direction) objective_gradient in
       let quadratic_term := quadratic_product (x direction) (x direction) / 2 in
       fun step_length => - step_length * (linear_term + step_length * quadratic_term)).

(** [SQP::compute_predicted_reduction] *)
Definition SQP_compute_predicted_reduction
    (quadratic_product : list Q -> list Q -> Q) (objective_gradient : SparseVector Q)
    (direction : Direction) (step_length : Q) : Q :=
  if Qeq_bool step_length 1 then - objective direction
  else
    let linear_term := dot (x direction) objective_gradient in
    let quadratic_term := quadratic_product (x direction) (x direction) / 2 in
    - step_length * (linear_term + step_length * quadratic_term).

End PredictedReduction.

(** * Properties *)

Lemma Qlt_bool_iff (x y : Q) : Qlt_bool x y = true <-> x < y.
Proof.
  unfold Qlt_bool. rewrite negb_true_iff. split; intro H.
  - apply Qnot_le_lt. intro L. apply Qle_bool_iff in L. congruence.
  - destruct (Qle_bool y x) eqn:E; [|reflexivity].
    apply Qle_bool_iff in E. exfalso. apply (Qlt_not_le _ _ H E).
Qed.

Lemma Qlt_bool_false_iff (x y : Q) : Qlt_bool x y = false <-> y <= x.
Proof.
  unfold Qlt_bool. rewrite negb_false_iff. apply Qle_bool_iff.
Qed.


(** ** Vectors and loops *)

Module Base_facts.
Import Base Sparse.

Lemma fold_left_ext_in (A B : Type) (f g : A -> B -> A) (l : list B) (a : A) :
  (forall a b, In b l -> f a b = g a b) -> fold_left f l a = fold_left g l a.
Proof.
  revert a. induction l as [|b l IH]; intros a Hfg; simpl; [reflexivity|].
  rewrite (Hfg a b) by now left. apply IH. intros a' b' Hb'. apply Hfg. now right.
Qed.

Lemma assign_length (v : list Q) (i : nat) (a : Q) : length (assign v i a) = length v.
Proof.
  revert i. induction v as [|b v IH]; intros [|i]; simpl; auto.
Qed.

Lemma nth_assign_eq (v : list Q) (i : nat) (a d : Q) :
  (i < length v)%nat -> nth i (assign v i a) d = a.
Proof.
  revert i. induction v as [|b v IH]; intros [|i] Hi; simpl in *; try lia; auto.
  apply IH. lia.
Qed.

Lemma nth_assign_neq (v : list Q) (i j : nat) (a d : Q) :
  i <> j -> nth j (assign v i a) d = nth j v d.
Proof.
  revert i j. induction v as [|b v IH]; intros [|i] [|j] Hij; simpl; auto; try lia.
Qed.

Lemma assign_out_of_range (v : list Q) (i : nat) (a : Q) :
  (length v <= i)%nat -> assign v i a = v.
Proof.
  revert i. induction v as [|b v IH]; intros [|i] Hi; simpl in *; auto; try lia.
  f_equal. apply IH. lia.
Qed.

(** Setting an element to the default value: no side condition. *)
Lemma nth_assign_default (v : list Q) (i j : nat) (d : Q) :
  nth j (assign v i d) d = if (j =? i)%nat then d else nth j v d.
Proof.
  destruct (Nat.eqb_spec j i) as [->|N].
  - destruct (Nat.lt_ge_cases i (length v)) as [L|L].
    + now apply nth_assign_eq.
    + rewrite assign_out_of_range by exact L. now apply nth_overflow.
  - apply nth_assign_neq. congruence.
Qed.

(** A loop that sets the listed positions to one value. *)
Lemma nth_assigned (a : Q) (l : list nat) (v : list Q) (j : nat) :
  (j < length v)%nat ->
  nth j (fold_left (fun mu i => assign mu i a) l v) 0
  = if existsb (Nat.eqb j) l then a else nth j v 0.
Proof.
  revert v. induction l as [|i l IH]; intros v Hj; simpl; [reflexivity|].
  rewrite IH by (now rewrite assign_length).
  destruct (Nat.eqb_spec j i) as [->|N]; simpl.
  - destruct (existsb (Nat.eqb i) l); [reflexivity|]. now apply nth_assign_eq.
  - destruct (existsb (Nat.eqb j) l); [reflexivity|]. apply nth_assign_neq. congruence.
Qed.

Lemma assigned_length (a : Q) (l : list nat) (v : list Q) :
  length (fold_left (fun mu i => assign mu i a) l v) = length v.
Proof.
  revert v. induction l as [|i l IH]; intros v; simpl; [reflexivity|].
  now rewrite IH, assign_length.
Qed.

Lemma nth_zeroed (l : list nat) (v : list Q) (j : nat) :
  nth j (fold_left (fun mu i => assign mu i 0) l v) 0
  = if existsb (Nat.eqb j) l then 0 else nth j v 0.
Proof.
  revert v. induction l as [|i l IH]; intros v; simpl; [reflexivity|].
  rewrite IH, nth_assign_default.
  destruct (j =? i)%nat; simpl; [now destruct (existsb (Nat.eqb j) l)|reflexivity].
Qed.

(** A loop over [j < n] that assigns at most once to each position: the
    value of a position after the loop. *)
Lemma assign_loop (g : nat -> option Q) (n : nat) (v : list Q) :
  let r := fold_left (fun mu j => match g j with Some a => assign mu j a | None => mu end)
                     (seq 0 n) v in
  length r = length v /\
  forall j, (j < length v)%nat ->
    nth j r 0 = if (j <? n)%nat
                then match g j with Some a => a | None => nth j v 0 end
                else nth j v 0.
Proof.
  induction n as [|n IH]; cbv zeta.
  - split; [reflexivity|]. intros j _. reflexivity.
  - rewrite seq_S, fold_left_app. simpl Nat.add.
    destruct IH as [Hl Hk]. set (r := fold_left _ (seq 0 n) v) in *. cbn [fold_left].
    split.
    + destruct (g n); [now rewrite assign_length|exact Hl].
    + intros j Hj. destruct (Nat.eq_dec n j) as [<-|Hne].
      * replace (n <? S n)%nat with true by (symmetry; apply Nat.ltb_lt; lia).
        destruct (g n) as [a|] eqn:Eg.
        -- apply nth_assign_eq. lia.
        -- rewrite Hk by exact Hj. now rewrite Nat.ltb_irrefl.
      * assert (E : nth j (match g n with Some a => assign r n a | None => r end) 0
                    = nth j r 0).
        { destruct (g n); [now apply nth_assign_neq|reflexivity]. }
        rewrite E, Hk by exact Hj.
        destruct (j <? n)%nat eqn:E1, (j <? S n)%nat eqn:E2; try reflexivity.
        -- apply Nat.ltb_lt in E1. apply Nat.ltb_ge in E2. lia.
        -- apply Nat.ltb_ge in E1. apply Nat.ltb_lt in E2. lia.
Qed.

Lemma update_length (A : Type) (v : list A) (i : nat) (a : A) :
  length (update v i a) = length v.
Proof.
  revert i. induction v as [|b v IH]; intros [|i]; simpl; auto.
Qed.

Lemma nth_update_eq (A : Type) (v : list A) (i : nat) (a d : A) :
  (i < length v)%nat -> nth i (update v i a) d = a.
Proof.
  revert i. induction v as [|b v IH]; intros [|i] Hi; simpl in *; try lia; auto.
  apply IH. lia.
Qed.

Lemma nth_update_neq (A : Type) (v : list A) (i j : nat) (a d : A) :
  i <> j -> nth j (update v i a) d = nth j v d.
Proof.
  revert i j. induction v as [|b v IH]; intros [|i] [|j] Hij; simpl; auto; try lia.
Qed.

(** A loop that sets the positions [j < n] of a vector. *)
Lemma update_loop (A : Type) (g : nat -> A) (d : A) (n : nat) (v : list A) :
  let r := fold_left (fun v j => update v j (g j)) (seq 0 n) v in
  length r = length v /\
  forall j, (j < length v)%nat -> nth j r d = if (j <? n)%nat then g j else nth j v d.
Proof.
  induction n as [|n IH]; cbv zeta.
  - split; [reflexivity|]. intros j _. reflexivity.
  - rewrite seq_S, fold_left_app. simpl Nat.add.
    destruct IH as [Hl Hk]. set (r := fold_left _ (seq 0 n) v) in *. cbn [fold_left].
    split; [now rewrite update_length|].
    intros j Hj. destruct (Nat.eq_dec n j) as [<-|Hne].
    + rewrite nth_update_eq by lia.
      replace (n <? S n)%nat with true by (symmetry; apply Nat.ltb_lt; lia). reflexivity.
    + rewrite nth_update_neq by exact Hne. rewrite Hk by exact Hj.
      destruct (j <? n)%nat eqn:E1, (j <? S n)%nat eqn:E2; try reflexivity.
      * apply Nat.ltb_lt in E1. apply Nat.ltb_ge in E2. lia.
      * apply Nat.ltb_ge in E1. apply Nat.ltb_lt in E2. lia.
Qed.

(** Sums and maxima over positions, as the loops compute them. *)
Lemma fold_sum_compat (g h : nat -> Q) (l : list nat) (a b : Q) :
  a == b -> (forall k, In k l -> g k == h k) ->
  fold_left (fun acc k => acc + g k) l a == fold_left (fun acc k => acc + h k) l b.
Proof.
  revert a b. induction l as [|k l IH]; intros a b Hab Hg; simpl; [exact Hab|].
  apply IH.
  - rewrite Hab, (Hg k); [reflexivity|now left].
  - intros k' Hk'. apply Hg. now right.
Qed.

Lemma fold_sum_scale (c : Q) (h : nat -> Q) (l : list nat) (a : Q) :
  fold_left (fun acc k => acc + c * h k) l (c * a)
  == c * fold_left (fun acc k => acc + h k) l a.
Proof.
  revert a. induction l as [|k l IH]; intros a; simpl; [reflexivity|].
  rewrite <- IH. apply fold_sum_compat; [ring|reflexivity].
Qed.

(** A sum of nonnegative terms is no less than its start, and equal to it
    exactly when every term is zero. *)
Lemma fold_sum_nonneg (g : nat -> Q) (l : list nat) (a : Q) :
  (forall k, In k l -> 0 <= g k) ->
  a <= fold_left (fun acc k => acc + g k) l a /\
  (fold_left (fun acc k => acc + g k) l a == a <-> forall k, In k l -> g k == 0).
Proof.
  revert a. induction l as [|k l IH]; intros a Hg; simpl.
  - split; [apply Qle_refl|]. split; [intros _ k []|reflexivity].
  - assert (Hk : 0 <= g k) by (apply Hg; now left).
    destruct (IH (a + g k)) as [Hle Hiff]; [intros k' Hk'; apply Hg; now right|].
    split; [lra|]. split.
    + intros E k' [<-|Hk'].
      * lra.
      * apply Hiff; [|exact Hk']. lra.
    + intros Hz. assert (Z : g k == 0) by (apply Hz; now left).
      destruct Hiff as [_ Hback]. rewrite Hback; [lra|].
      intros k' Hk'. apply Hz. now right.
Qed.

Lemma fold_max_compat (g h : nat -> Q) (l : list nat) (a b : Q) :
  a == b -> (forall k, In k l -> g k == h k) ->
  fold_left (fun acc k => Qmax acc (g k)) l a
  == fold_left (fun acc k => Qmax acc (h k)) l b.
Proof.
  revert a b. induction l as [|k l IH]; intros a b Hab Hg; simpl; [exact Hab|].
  apply IH.
  - rewrite Hab, (Hg k); [reflexivity|now left].
  - intros k' Hk'. apply Hg. now right.
Qed.

Lemma Qmax_scale (c a b : Q) : 0 <= c -> Qmax (c * a) (c * b) == c * Qmax a b.
Proof.
  intros Hc. destruct (Q.max_spec a b) as [[Hlt E]|[Hle E]]; rewrite E.
  - apply Q.max_r. rewrite (Qmult_comm c a), (Qmult_comm c b).
    apply Qmult_le_compat_r; lra.
  - apply Q.max_l. rewrite (Qmult_comm c a), (Qmult_comm c b).
    apply Qmult_le_compat_r; lra.
Qed.

Lemma fold_max_scale (c : Q) (h : nat -> Q) (l : list nat) (a : Q) :
  0 <= c ->
  fold_left (fun acc k => Qmax acc (c * h k)) l (c * a)
  == c * fold_left (fun acc k => Qmax acc (h k)) l a.
Proof.
  intros Hc. revert a. induction l as [|k l IH]; intros a; simpl; [reflexivity|].
  rewrite <- IH. apply fold_max_compat; [now apply Qmax_scale|reflexivity].
Qed.

(** A running maximum is the start value or one of the terms, and is above
    all of them. *)
Lemma fold_max_spec (h : nat -> Q) (l : list nat) (a : Q) :
  let r := fold_left (fun acc k => Qmax acc (h k)) l a in
  a <= r /\ (forall k, In k l -> h k <= r) /\
  (r == a \/ exists k, In k l /\ r == h k).
Proof.
  revert a. induction l as [|k l IH]; intros a; simpl.
  - split; [apply Qle_refl|]. split; [intros k []|left; reflexivity].
  - destruct (IH (Qmax a (h k))) as (Ha & Hall & Hex).
    split; [eapply Qle_trans; [apply Q.le_max_l|exact Ha]|]. split.
    + intros k' [<-|Hk']; [eapply Qle_trans; [apply Q.le_max_r|exact Ha]|now apply Hall].
    + destruct Hex as [E|(k' & Hk' & E)].
      * destruct (Q.max_dec a (h k)) as [M|M].
        -- left. eapply Qeq_trans; [exact E|exact M].
        -- right. exists k. split; [now left|]. eapply Qeq_trans; [exact E|exact M].
      * right. exists k'. split; [now right|exact E].
Qed.

End Base_facts.

(** ** Sparse vectors *)

Module Sparse_facts.
Import Base Sparse Base_facts.

(** The values after the loop of [transform]: the first [n] are transformed. *)
Lemma transform_loop (A : Type) (d : A) (f : A -> A) (n : nat) (l : list A) :
  (n <= length l)%nat ->
  let l' := fold_left (fun values index => update values index (f (nth index values d)))
                      (seq 0 n) l in
  length l' = length l /\
  forall k, nth k l' d = if (k <? n)%nat then f (nth k l d) else nth k l d.
Proof.
  induction n as [|n IH]; intros Hn; cbv zeta.
  - split; [reflexivity|]. intros k. reflexivity.
  - rewrite seq_S, fold_left_app. simpl Nat.add.
    destruct IH as [Hl Hk]; [lia|].
    set (l0 := fold_left _ (seq 0 n) l) in *. cbn [fold_left].
    split; [now rewrite update_length|].
    intros k. destruct (Nat.eq_dec n k) as [<-|Hne].
    + rewrite nth_update_eq by lia. rewrite Hk.
      rewrite Nat.ltb_irrefl. replace (n <? S n)%nat with true; [reflexivity|].
      symmetry. apply Nat.ltb_lt. lia.
    + rewrite nth_update_neq by exact Hne. rewrite Hk.
      destruct (k <? n)%nat eqn:E1, (k <? S n)%nat eqn:E2; try reflexivity.
      * apply Nat.ltb_lt in E1. apply Nat.ltb_ge in E2. lia.
      * apply Nat.ltb_ge in E1. apply Nat.ltb_lt in E2. lia.
Qed.

(** [transform] applies [f] to every stored value and leaves the indices
    and the size as they are. *)
Lemma transform_values (A : Type) (d : A) (f : A -> A) (v : SparseVector A) :
  well_formed v ->
  indices (transform d v f) = indices v /\
  number_nonzeros (transform d v f) = number_nonzeros v /\
  values (transform d v f) = map f (values v).
Proof.
  intros [Hi Hv]. split; [reflexivity|]. split; [reflexivity|].
  unfold transform; simpl.
  destruct (@transform_loop A d f (number_nonzeros v) (values v)) as [Hl Hk]; [lia|].
  apply nth_ext with (d := d) (d' := f d).
  - now rewrite length_map.
  - intros k Hlt. rewrite Hk. rewrite Hl, Hv in Hlt.
    replace (k <? number_nonzeros v)%nat with true by (symmetry; now apply Nat.ltb_lt).
    now rewrite map_nth.
Qed.

Lemma nth_scaled (factor : Q) (l : list Q) (k : nat) :
  (k < length l)%nat ->
  nth k (map (fun element => factor * element) l) 0 = factor * nth k l 0.
Proof.
  intros Hk. rewrite (nth_indep _ 0 (factor * 0)) by (now rewrite length_map).
  now rewrite (map_nth (fun element => factor * element)).
Qed.

(** X1. [norm_inf] of a sparse vector is the largest absolute value among
    the stored values: it is nonnegative, no stored value exceeds it in
    absolute value, and it is 0 (as for the empty vector) or the absolute
    value of a stored value. *)
Theorem norm_inf_spec (x : SparseVector Q) :
  0 <= norm_inf x /\
  (forall k, (k < number_nonzeros x)%nat -> Qabs (nth k (values x) 0) <= norm_inf x) /\
  (norm_inf x == 0 \/
   exists k, (k < number_nonzeros x)%nat /\ norm_inf x == Qabs (nth k (values x) 0)).
Proof.
  unfold norm_inf, for_each.
  destruct (fold_max_spec (fun k => Qabs (nth k (values x) 0))
                          (seq 0 (number_nonzeros x)) 0) as (Ha & Hall & Hex).
  cbv zeta in *. split; [exact Ha|]. split.
  - intros k Hk. apply Hall. apply in_seq. lia.
  - destruct Hex as [E|(k & Hk & E)]; [now left|].
    right. exists k. split; [apply in_seq in Hk; lia|exact E].
Qed.

(** X2. [scale(x, factor)] multiplies every stored value by [factor] and
    keeps the indices and the size; so the infinity norm is multiplied by
    [|factor|].  This holds for [factor = 0] as well. *)
Theorem scale_spec (x : SparseVector Q) (factor : Q) :
  well_formed x ->
  well_formed (scale x factor) /\
  indices (scale x factor) = indices x /\
  size (scale x factor) = size x /\
  values (scale x factor) = map (fun element => factor * element) (values x) /\
  norm_inf (scale x factor) == Qabs factor * norm_inf x.
Proof.
  intros W. pose proof W as [Wi Wv].
  destruct (transform_values 0 (fun element => factor * element) W) as (Hi & Hn & Hv).
  fold (scale x factor) in Hi, Hn, Hv.
  split; [|split; [exact Hi|split; [exact Hn|split; [exact Hv|]]]].
  - split; [now rewrite Hi, Hn|]. now rewrite Hv, length_map, Hn.
  - unfold norm_inf, for_each. rewrite Hn, Hv.
    rewrite <- fold_max_scale by apply Qabs_nonneg.
    apply fold_max_compat; [ring|].
    intros k Hk. apply in_seq in Hk. rewrite nth_scaled by lia. apply Qabs_Qmult.
Qed.

Lemma scale_spec_witness :
  let x := insert (insert (create 2) 1 (-3)) 0 (1 # 2) in
  values (scale x 2) = map (fun element => 2 * element) (values x) /\
  norm_inf (scale x 2) == Qabs 2 * norm_inf x.
Proof.
  intros x.
  assert (W : well_formed x) by (split; reflexivity).
  destruct (scale_spec 2 W) as (_ & _ & _ & Hv & Hn).
  split; [exact Hv|exact Hn].
Defined.

(** The loop of [dot], from any outcome so far. *)
Lemma dot_loop (v : list Q) (x : SparseVector Q) (l : list nat) (o : Outcome Q) :
  fold_left
    (fun acc index =>
       (fun index y_element outcome =>
          match outcome with
          | Returned dot_product =>
              if (index <? length v)%nat
              then Returned (dot_product + nth index v 0 * y_element)
              else Aborted dot_assertion
          | stopped => stopped
          end) (nth index (indices x) 0%nat) (nth index (values x) 0) acc) l o
  = match o with
    | Returned d =>
        if forallb (fun k => (nth k (indices x) 0%nat <? length v)%nat) l
        then Returned
               (fold_left
                  (fun dot_product k =>
                     dot_product + nth (nth k (indices x) 0%nat) v 0 * nth k (values x) 0)
                  l d)
        else Aborted dot_assertion
    | stopped => stopped
    end.
Proof.
  revert o. induction l as [|k l IH]; intros o; simpl.
  - destruct o; reflexivity.
  - rewrite IH. destruct o as [d|e|a]; try reflexivity.
    destruct (nth k (indices x) 0%nat <? length v)%nat; reflexivity.
Qed.

(** [dot] returns exactly when every stored index is within the dense
    vector, with the sum of the products in the order of the entries, and
    stops on its assertion otherwise. *)
Lemma dot_outcome (v : list Q) (x : SparseVector Q) :
  dot v x =
  if forallb (fun k => (nth k (indices x) 0%nat <? length v)%nat) (seq 0 (number_nonzeros x))
  then Returned (Base.dot v x) else Aborted dot_assertion.
Proof.
  unfold dot, for_each. rewrite dot_loop. reflexivity.
Qed.

(** X3. [insert] appends one entry: the size grows by one and the vector is
    not empty.  When [dot] with a dense vector [v] returned before the
    insertion, it now returns that value plus [v[index] * value] if [index]
    is within [v] (an index already stored is not merged: its contributions
    add up), and stops on its assertion if [index] is beyond [v]; when it
    stopped on its assertion before, it still does.  The infinity norm
    becomes the maximum of the former norm and [|value|]. *)
Theorem insert_spec (x : SparseVector Q) (index : nat) (value : Q) (v : list Q) :
  well_formed x ->
  well_formed (insert x index value) /\
  size (insert x index value) = S (size x) /\
  empty (insert x index value) = false /\
  (forall dot_product, dot v x = Returned dot_product -> (index < length v)%nat ->
     dot v (insert x index value) = Returned (dot_product + nth index v 0 * value)) /\
  ((length v <= index)%nat -> dot v (insert x index value) = Aborted dot_assertion) /\
  (forall assertion, dot v x = Aborted assertion ->
     dot v (insert x index value) = Aborted assertion) /\
  norm_inf (insert x index value) = Qmax (norm_inf x) (Qabs value).
Proof.
  intros [Wi Wv].
  assert (D : dot v (insert x index value)
              = match dot v x with
                | Returned d =>
                    if (index <? length v)%nat
                    then Returned (d + nth index v 0 * value)
                    else Aborted dot_assertion
                | stopped => stopped
                end).
  { unfold dot, for_each, insert, sparse_insert.
    simpl number_nonzeros. simpl indices. simpl values.
    rewrite seq_S, fold_left_app. simpl Nat.add. cbn [fold_left].
    rewrite !app_nth2 by lia. rewrite Wi, Wv, Nat.sub_diag. cbn [nth].
    match goal with
    | |- match ?a with _ => _ end = match ?b with _ => _ end =>
        replace a with b; [destruct b; reflexivity|]
    end.
    apply fold_left_ext_in. intros a k Hk. apply in_seq in Hk.
    rewrite !app_nth1 by lia. reflexivity. }
  unfold insert, sparse_insert, size, empty, well_formed. simpl.
  split; [rewrite !length_app; simpl; lia|]. split; [reflexivity|]. split; [reflexivity|].
  fold (sparse_insert x index value). fold (insert x index value).
  split; [|split; [|split]].
  - intros d E Hi. rewrite D, E.
    replace (index <? length v)%nat with true by (symmetry; now apply Nat.ltb_lt).
    reflexivity.
  - intros Hi. rewrite D. rewrite dot_outcome.
    replace (index <? length v)%nat with false by (symmetry; now apply Nat.ltb_ge).
    destruct (forallb _ _); reflexivity.
  - intros a E. rewrite D, E. reflexivity.
  - unfold norm_inf, for_each, insert, sparse_insert.
    simpl number_nonzeros. simpl indices. simpl values.
    rewrite seq_S, fold_left_app. simpl Nat.add. cbn [fold_left].
    rewrite !app_nth2 by lia. rewrite Wv, Nat.sub_diag. simpl nth at 2.
    f_equal. apply fold_left_ext_in. intros a k Hk. apply in_seq in Hk.
    rewrite !app_nth1 by lia. reflexivity.
Qed.

Lemma insert_spec_witness :
  let x := insert (create 2) 1 (-3) in
  dot [4; 5] (insert x 1 7) = Returned (-15 + 5 * 7) /\
  dot [4; 5] (insert x 2 7) = Aborted dot_assertion.
Proof.
  intros x.
  assert (W : well_formed x) by (split; reflexivity).
  split.
  - destruct (insert_spec 1 7 [4; 5] W) as (_ & _ & _ & Hd & _).
    apply (Hd (-15)); [reflexivity|simpl; lia].
  - destruct (insert_spec 2 7 [4; 5] W) as (_ & _ & _ & _ & Ha & _).
    apply Ha. simpl. lia.
Defined.

End Sparse_facts.


(** ** Coordinate matrices *)

Module COO_facts.
Import COO.

(** [for_each] visits the stored entries in storage order. *)
Lemma for_each_stored_entries (A : Type) (m : COOSymmetricMatrix)
    (f : nat -> nat -> Q -> A -> A) (a : A) :
  for_each m f a =
  fold_left (fun acc e => f (fst (fst e)) (snd (fst e)) (snd e) acc)
            (stored_entries m) a.
Proof.
  unfold for_each, stored_entries.
  generalize (seq 0 (number_nonzeros m)) a.
  induction l as [|k l IH]; intros a0; simpl; [reflexivity|apply IH].
Qed.

Lemma insert_unfold (m : COOSymmetricMatrix) (term : Q) (row_index column_index : nat) :
  insert m term row_index column_index =
  mkCOO (dimension m) (S (number_nonzeros m)) (matrix m ++ [term])
        (row_indices m ++ [row_index]) (column_indices m ++ [column_index]).
Proof. reflexivity. Qed.

Lemma insert_diagonal_fold (multiple : Q) (l : list nat) (m : COOSymmetricMatrix) :
  fold_left (fun acc i => insert acc multiple i i) l m =
  mkCOO (dimension m) (number_nonzeros m + length l)
        (matrix m ++ repeat multiple (length l))
        (row_indices m ++ l) (column_indices m ++ l).
Proof.
  revert m. induction l as [|i l IH]; intros m; simpl.
  - destruct m; simpl. now rewrite Nat.add_0_r, !app_nil_r.
  - rewrite IH, insert_unfold; simpl.
    rewrite <- !app_assoc; simpl. f_equal. lia.
Qed.

Lemma insert_well_formed (m : COOSymmetricMatrix) (term : Q) (r c : nat) :
  well_formed m -> well_formed (insert m term r c).
Proof.
  unfold well_formed; rewrite insert_unfold; simpl.
  rewrite !length_app; simpl. lia.
Qed.

Lemma nth_combine_entries (vs : list Q) (rs cs : list nat) (n : nat) :
  length vs = n -> length rs = n -> length cs = n ->
  map (fun k => (nth k rs 0%nat, nth k cs 0%nat, nth k vs 0)) (seq 0 n) =
  combine (combine rs cs) vs.
Proof.
  revert vs rs cs. induction n as [|n IH]; intros vs rs cs Hv Hr Hc.
  - destruct vs, rs, cs; simpl in *; try discriminate; reflexivity.
  - destruct vs as [|v vs], rs as [|r rs], cs as [|c cs]; simpl in *; try discriminate.
    f_equal. rewrite <- seq_shift, map_map. apply IH; congruence.
Qed.

(** On a well-formed matrix the stored entries are the three vectors zipped. *)
Lemma stored_entries_well_formed (m : COOSymmetricMatrix) :
  well_formed m ->
  stored_entries m = combine (combine (row_indices m) (column_indices m)) (matrix m).
Proof.
  intros (Hv & Hr & Hc). unfold stored_entries. now apply nth_combine_entries.
Qed.

Lemma Qmin_cases (a b : Q) : Qmin a b = a \/ Qmin a b = b.
Proof.
  unfold Qmin, GenericMinMax.gmin. destruct (a ?= b); auto.
Qed.

Lemma min_extended_fold (l : list Q) (s : Q) :
  exists r, fold_left min_extended l (Finite s) = Finite r /\
            In r (s :: l) /\ forall v, In v (s :: l) -> r <= v.
Proof.
  revert s. induction l as [|e l IH]; intros s; simpl.
  - exists s. repeat split; auto. intros v [<-|[]]. apply Qle_refl.
  - destruct (IH (Qmin s e)) as (r & Hr & Hin & Hle).
    exists r. split; [exact Hr|]. split.
    + destruct Hin as [Heq|Hin]; [|now right; right].
      destruct (Qmin_cases s e) as [E|E]; rewrite E in Heq; subst; simpl; auto.
    + intros v [<-|[<-|Hv]].
      * eapply Qle_trans; [apply Hle; now left|apply Q.le_min_l].
      * eapply Qle_trans; [apply Hle; now left|apply Q.le_min_r].
      * apply Hle. now right.
Qed.

Lemma smallest_diagonal_entry_fold (m : COOSymmetricMatrix) :
  smallest_diagonal_entry m =
  match fold_left min_extended (diagonal_values m) Infinity with
  | Infinity => 0
  | Finite s => s
  end.
Proof.
  unfold smallest_diagonal_entry, diagonal_values.
  rewrite for_each_stored_entries.
  generalize (stored_entries m) Infinity.
  induction l as [|e l IH]; intros a; simpl; [reflexivity|].
  destruct (fst (fst e) =? snd (fst e))%nat; simpl; apply IH.
Qed.

(** C8. [insert] appends the triple [(row, column, value)] it is given and
    increments the nonzero count by exactly one, whatever the matrix already
    stores (an entry already stored at the same position is not merged with);
    consequently [add_identity_multiple delta] appends exactly [dimension]
    diagonal entries [(i, i, delta)], [i = 0 .. dimension - 1], and increases
    the nonzero count by [dimension]. *)
Theorem insert_always_appends :
  (forall (m : COOSymmetricMatrix) (term : Q) (row_index column_index : nat),
      let m' := insert m term row_index column_index in
      matrix m' = matrix m ++ [term] /\
      row_indices m' = row_indices m ++ [row_index] /\
      column_indices m' = column_indices m ++ [column_index] /\
      number_nonzeros m' = S (number_nonzeros m) /\
      dimension m' = dimension m) /\
  (forall (m : COOSymmetricMatrix) (delta : Q),
      let m' := add_identity_multiple m delta in
      matrix m' = matrix m ++ repeat delta (dimension m) /\
      row_indices m' = row_indices m ++ seq 0 (dimension m) /\
      column_indices m' = column_indices m ++ seq 0 (dimension m) /\
      number_nonzeros m' = (number_nonzeros m + dimension m)%nat /\
      dimension m' = dimension m).
Proof.
  split.
  - intros m term r c m'. subst m'. rewrite insert_unfold. simpl. tauto.
  - intros m delta m'. subst m'. unfold add_identity_multiple.
    rewrite insert_diagonal_fold. simpl. rewrite length_seq. tauto.
Qed.

(** Inserting twice at the same position keeps both entries. *)
Example insert_duplicate :
  let m := insert (insert (create 2 4) 3 1 1) 5 1 1 in
  find (insert (create 2 4) 3 1 1) 1 1 = 0%nat /\
  stored_entries m = [(1%nat, 1%nat, 3); (1%nat, 1%nat, 5)] /\
  number_nonzeros m = 2%nat.
Proof. repeat split. Qed.

(** C9. [smallest_diagonal_entry] returns 0 when no stored entry lies on the
    diagonal, and otherwise the minimum of the values of the stored entries
    whose row index equals their column index: one of these values, below
    all of them. *)
Theorem smallest_diagonal_entry_spec (m : COOSymmetricMatrix) :
  (diagonal_values m = [] -> smallest_diagonal_entry m = 0) /\
  (diagonal_values m <> [] ->
     In (smallest_diagonal_entry m) (diagonal_values m) /\
     forall v, In v (diagonal_values m) -> smallest_diagonal_entry m <= v).
Proof.
  rewrite smallest_diagonal_entry_fold.
  destruct (diagonal_values m) as [|d l]; split; intros H; try reflexivity;
    try discriminate; try congruence.
  simpl fold_left.
  destruct (min_extended_fold l d) as (r & -> & Hin & Hle). auto.
Qed.

Example smallest_diagonal_entry_example :
  smallest_diagonal_entry
    (insert (insert (insert (insert (create 2 4) 3 0 0) (-5) 1 0) 2 1 1) (-1) 0 0)
  = -1 /\
  smallest_diagonal_entry (insert (create 2 4) (-5) 1 0) = 0.
Proof. split; reflexivity. Qed.

(** *** Lookup, removal and shifts of the diagonal *)

Lemma find_loop_spec (m : COOSymmetricMatrix) (row_index column_index rounds position : nat) :
  (number_nonzeros m <= position + rounds)%nat ->
  let q := find_loop m row_index column_index rounds position in
  (position <= q)%nat /\
  (q <= Nat.max position (number_nonzeros m))%nat /\
  (forall k, (position <= k < q)%nat ->
     ~ (nth k (row_indices m) 0%nat = row_index /\
        nth k (column_indices m) 0%nat = column_index)) /\
  ((q < number_nonzeros m)%nat ->
     nth q (row_indices m) 0%nat = row_index /\
     nth q (column_indices m) 0%nat = column_index).
Proof.
  revert position. induction rounds as [|rounds IH]; intros position Hn; simpl.
  - repeat split; try lia.
  - destruct (position <? number_nonzeros m)%nat eqn:L.
    + apply Nat.ltb_lt in L.
      destruct ((nth position (row_indices m) 0 =? row_index)%nat
                && (nth position (column_indices m) 0 =? column_index)%nat) eqn:T.
      * apply andb_true_iff in T. destruct T as [Tr Tc].
        apply Nat.eqb_eq in Tr, Tc. repeat split; try lia; assumption.
      * destruct (IH (S position)) as (H1 & H2 & H3 & H4); [lia|].
        split; [lia|]. split; [lia|]. split; [|exact H4].
        intros k Hk [Er Ec]. destruct (Nat.eq_dec k position) as [->|Hne].
        -- rewrite Er, Ec, !Nat.eqb_refl in T. discriminate.
        -- apply (H3 k); [lia|]. split; assumption.
    + apply Nat.ltb_ge in L. repeat split; try lia.
Qed.

(** X4. [find] returns the position of the first stored entry with the
    given row and column, and [number_nonzeros] when no stored entry has
    them; the result never exceeds [number_nonzeros]. *)
Theorem find_spec (m : COOSymmetricMatrix) (row_index column_index : nat) :
  let position := find m row_index column_index in
  (position <= number_nonzeros m)%nat /\
  (forall k, (k < position)%nat ->
     ~ (nth k (row_indices m) 0%nat = row_index /\
        nth k (column_indices m) 0%nat = column_index)) /\
  ((position < number_nonzeros m)%nat ->
     nth position (row_indices m) 0%nat = row_index /\
     nth position (column_indices m) 0%nat = column_index).
Proof.
  unfold find.
  destruct (@find_loop_spec m row_index column_index (number_nonzeros m) 0)
    as (H1 & H2 & H3 & H4); [lia|].
  cbv zeta in *. split; [lia|]. split; [|exact H4].
  intros k Hk. apply H3. lia.
Qed.

(** The result of [find] is the only position with these properties. *)
Lemma find_unique (m : COOSymmetricMatrix) (row_index column_index q : nat) :
  (q <= number_nonzeros m)%nat ->
  (forall k, (k < q)%nat ->
     ~ (nth k (row_indices m) 0%nat = row_index /\
        nth k (column_indices m) 0%nat = column_index)) ->
  ((q < number_nonzeros m)%nat ->
     nth q (row_indices m) 0%nat = row_index /\
     nth q (column_indices m) 0%nat = column_index) ->
  find m row_index column_index = q.
Proof.
  intros Hq Hbefore Hat. unfold find.
  destruct (@find_loop_spec m row_index column_index (number_nonzeros m) 0)
    as (H1 & H2 & H3 & H4); [lia|].
  cbv zeta in *.
  set (p := find_loop m row_index column_index (number_nonzeros m) 0) in *.
  destruct (Nat.lt_trichotomy p q) as [Hlt|[Heq|Hgt]]; [|exact Heq|].
  - exfalso. apply (Hbefore p Hlt). apply H4. lia.
  - exfalso. apply (H3 q); [lia|]. apply Hat. lia.
Qed.

(** X5. [pop] undoes [insert]: removing the last entry after an insertion
    gives back the matrix, whatever it stores. *)
Theorem pop_insert (m : COOSymmetricMatrix) (term : Q) (row_index column_index : nat) :
  pop (insert m term row_index column_index) = m.
Proof.
  rewrite insert_unfold. unfold pop. simpl.
  rewrite !removelast_last. now destruct m.
Qed.

(** X6. After [insert(term, row, column)], [find(row, column)] returns what
    it returned before the insertion: the position of the first entry
    already stored with this row and column when there is one, and otherwise
    the position of the new entry, which is the former [number_nonzeros].
    In both cases the pair is now found.  A different pair is found where
    it was, and a pair that was absent stays absent. *)
Theorem find_insert (m : COOSymmetricMatrix) (term : Q) (row_index column_index : nat) :
  well_formed m ->
  let m' := insert m term row_index column_index in
  find m' row_index column_index = find m row_index column_index /\
  (find m' row_index column_index < number_nonzeros m')%nat /\
  (forall r c, (r, c) <> (row_index, column_index) ->
     find m' r c =
     if (find m r c <? number_nonzeros m)%nat then find m r c else number_nonzeros m').
Proof.
  intros (Wv & Wr & Wc) m'. subst m'. rewrite insert_unfold.
  set (m' := mkCOO _ _ _ _ _).
  assert (Hold : forall k, (k < number_nonzeros m)%nat ->
            nth k (row_indices m') 0%nat = nth k (row_indices m) 0%nat /\
            nth k (column_indices m') 0%nat = nth k (column_indices m) 0%nat).
  { intros k Hk. subst m'. simpl. rewrite !app_nth1 by lia. auto. }
  assert (Hnew : nth (number_nonzeros m) (row_indices m') 0%nat = row_index /\
                 nth (number_nonzeros m) (column_indices m') 0%nat = column_index).
  { subst m'. simpl. rewrite !app_nth2 by lia. rewrite Wr, Wc, Nat.sub_diag. auto. }
  assert (Hn : number_nonzeros m' = S (number_nonzeros m)) by reflexivity.
  assert (Hsame : find m' row_index column_index = find m row_index column_index).
  { destruct (@find_loop_spec m row_index column_index (number_nonzeros m) 0)
      as (H1 & H2 & H3 & H4); [lia|]. cbv zeta in *. fold (find m row_index column_index) in *.
    apply find_unique.
    - lia.
    - intros k Hk [Er Ec]. apply (H3 k); [lia|].
      destruct (Hold k) as [<- <-]; [lia|]. auto.
    - intros Hlt. destruct (Nat.eq_dec (find m row_index column_index) (number_nonzeros m))
        as [E|Hne].
      + rewrite E. exact Hnew.
      + destruct (Hold (find m row_index column_index)) as [-> ->]; [lia|].
        apply H4. lia. }
  split; [exact Hsame|]. split.
  - rewrite Hsame, Hn.
    destruct (@find_loop_spec m row_index column_index (number_nonzeros m) 0)
      as (H1 & H2 & _); [lia|]. cbv zeta in *. fold (find m row_index column_index) in *. lia.
  - intros r c Hrc.
    destruct (@find_loop_spec m r c (number_nonzeros m) 0) as (H1 & H2 & H3 & H4); [lia|].
    cbv zeta in *. fold (find m r c) in *.
    destruct (find m r c <? number_nonzeros m)%nat eqn:L.
    + apply Nat.ltb_lt in L. apply find_unique.
      * lia.
      * intros k Hk [Er Ec]. apply (H3 k); [lia|].
        destruct (Hold k) as [<- <-]; [lia|]. auto.
      * intros _. destruct (Hold (find m r c) L) as [-> ->]. now apply H4.
    + apply Nat.ltb_ge in L. assert (E : find m r c = number_nonzeros m) by lia.
      apply find_unique.
      * lia.
      * intros k Hk [Er Ec]. rewrite Hn in Hk.
        destruct (Nat.eq_dec k (number_nonzeros m)) as [->|Hne].
        -- destruct Hnew as [Nr Nc]. apply Hrc. congruence.
        -- apply (H3 k); [lia|]. destruct (Hold k) as [<- <-]; [lia|]. auto.
      * intros Hlt. lia.
Qed.

Lemma find_insert_witness :
  let m := insert (insert (create 2 4) 3 1 1) 5 0 1 in
  find (insert m 7 1 1) 1 1 = find m 1 1 /\
  find (insert m 7 0 0) 0 0 = number_nonzeros m.
Proof.
  intros m.
  assert (W : well_formed m) by (repeat split).
  split.
  - destruct (find_insert 7 1 1 W) as [E _]. exact E.
  - destruct (find_insert 7 0 0 W) as [E _]. rewrite E. reflexivity.
Defined.

Lemma combine_app_eq (A B : Type) (l1 l2 : list A) (l1' l2' : list B) :
  length l1 = length l1' ->
  combine (l1 ++ l2) (l1' ++ l2') = combine l1 l1' ++ combine l2 l2'.
Proof.
  revert l1'. induction l1 as [|a l1 IH]; intros [|b l1'] E; simpl in *;
    try discriminate; [reflexivity|].
  f_equal. apply IH. congruence.
Qed.

Lemma add_identity_multiple_fields (m : COOSymmetricMatrix) (multiple : Q) :
  add_identity_multiple m multiple =
  mkCOO (dimension m) (number_nonzeros m + dimension m)
        (matrix m ++ repeat multiple (dimension m))
        (row_indices m ++ seq 0 (dimension m))
        (column_indices m ++ seq 0 (dimension m)).
Proof.
  unfold add_identity_multiple. now rewrite insert_diagonal_fold, length_seq.
Qed.

Lemma add_identity_multiple_well_formed (m : COOSymmetricMatrix) (multiple : Q) :
  well_formed m -> well_formed (add_identity_multiple m multiple).
Proof.
  intros (Wv & Wr & Wc). rewrite add_identity_multiple_fields.
  unfold well_formed. simpl. rewrite !length_app, repeat_length, length_seq. lia.
Qed.

Lemma combine_diagonal (multiple : Q) (l : list nat) :
  combine (combine l l) (repeat multiple (length l)) = map (fun i => (i, i, multiple)) l.
Proof.
  induction l as [|i l IH]; simpl; [reflexivity|now rewrite IH].
Qed.

(** The entries stored after [add_identity_multiple]: the former entries,
    then the diagonal. *)
Lemma stored_entries_add_identity (m : COOSymmetricMatrix) (multiple : Q) :
  well_formed m ->
  stored_entries (add_identity_multiple m multiple) =
  stored_entries m ++ map (fun i => (i, i, multiple)) (seq 0 (dimension m)).
Proof.
  intros W. rewrite (stored_entries_well_formed (add_identity_multiple_well_formed multiple W)).
  rewrite (stored_entries_well_formed W). destruct W as (Wv & Wr & Wc).
  rewrite add_identity_multiple_fields. simpl.
  rewrite !combine_app_eq.
  - f_equal. pose proof (combine_diagonal multiple (seq 0 (dimension m))) as C.
    rewrite length_seq in C. exact C.
  - rewrite length_combine. lia.
  - lia.
Qed.

Lemma diagonal_values_add_identity (m : COOSymmetricMatrix) (multiple : Q) :
  well_formed m ->
  diagonal_values (add_identity_multiple m multiple) =
  diagonal_values m ++ repeat multiple (dimension m).
Proof.
  intros W. unfold diagonal_values. rewrite (stored_entries_add_identity multiple W).
  rewrite filter_app, map_app. f_equal.
  assert (G : forall l : list nat,
            map snd (filter (fun e => (fst (fst e) =? snd (fst e))%nat)
                            (map (fun i => (i, i, multiple)) l))
            = repeat multiple (length l)).
  { induction l as [|i l IH]; simpl; [reflexivity|].
    rewrite Nat.eqb_refl. simpl. now rewrite IH. }
  rewrite G. now rewrite length_seq.
Qed.

Lemma min_extended_repeat (multiple : Q) (n : nat) (s : Q) :
  exists r, fold_left min_extended (repeat multiple (S n)) (Finite s) = Finite r /\
            r == Qmin s multiple.
Proof.
  revert s. induction n as [|n IH]; intros s.
  - simpl. exists (Qmin s multiple). split; reflexivity.
  - destruct (IH (Qmin s multiple)) as (r & Hr & E).
    exists r. split; [exact Hr|]. rewrite E.
    apply Q.min_l. apply Q.le_min_r.
Qed.

(** X7. [add_identity_multiple] does not shift the diagonal entries it
    finds: it stores [dimension] further diagonal entries of value
    [multiple] after them.  So [smallest_diagonal_entry] afterwards is
    [multiple] when no diagonal entry was stored, and otherwise the minimum
    of the former smallest diagonal entry and [multiple]: in particular it
    is unchanged when [multiple] is not below it.  For dimension 0 nothing
    changes. *)
Theorem smallest_diagonal_entry_add_identity (m : COOSymmetricMatrix) (multiple : Q) :
  well_formed m ->
  diagonal_values (add_identity_multiple m multiple) =
    diagonal_values m ++ repeat multiple (dimension m) /\
  (dimension m = 0%nat ->
     smallest_diagonal_entry (add_identity_multiple m multiple) = smallest_diagonal_entry m) /\
  ((0 < dimension m)%nat -> diagonal_values m = [] ->
     smallest_diagonal_entry (add_identity_multiple m multiple) == multiple) /\
  ((0 < dimension m)%nat -> diagonal_values m <> [] ->
     smallest_diagonal_entry (add_identity_multiple m multiple)
     == Qmin (smallest_diagonal_entry m) multiple) /\
  (diagonal_values m <> [] -> smallest_diagonal_entry m <= multiple ->
     smallest_diagonal_entry (add_identity_multiple m multiple)
     == smallest_diagonal_entry m).
Proof.
  intros W. pose proof (diagonal_values_add_identity multiple W) as D.
  split; [exact D|].
  assert (Hzero : dimension m = 0%nat ->
            smallest_diagonal_entry (add_identity_multiple m multiple)
            = smallest_diagonal_entry m).
  { intros Z. rewrite !smallest_diagonal_entry_fold, D, Z. simpl. now rewrite app_nil_r. }
  assert (Hmin : (0 < dimension m)%nat -> diagonal_values m <> [] ->
            smallest_diagonal_entry (add_identity_multiple m multiple)
            == Qmin (smallest_diagonal_entry m) multiple).
  { intros P N. rewrite !smallest_diagonal_entry_fold, D, fold_left_app.
    destruct (diagonal_values m) as [|d l]; [congruence|].
    simpl fold_left at 2 3.
    destruct (min_extended_fold l d) as (s & -> & _).
    destruct (dimension m) as [|n]; [lia|].
    destruct (min_extended_repeat multiple n s) as (r & -> & E). exact E. }
  split; [exact Hzero|]. split; [|split; [exact Hmin|]].
  - intros P N. rewrite smallest_diagonal_entry_fold, D, N. simpl app.
    destruct (dimension m) as [|n]; [lia|].
    change (fold_left min_extended (repeat multiple (S n)) Infinity)
      with (fold_left min_extended (repeat multiple n) (Finite multiple)).
    destruct n as [|n]; [reflexivity|].
    destruct (min_extended_repeat multiple n multiple) as (r & -> & E).
    rewrite E. apply Q.min_id.
  - intros N L. destruct (dimension m) as [|n] eqn:Z.
    + rewrite Hzero by reflexivity. reflexivity.
    + rewrite Hmin by (auto; lia). now apply Q.min_l.
Qed.

Lemma smallest_diagonal_entry_add_identity_witness :
  let m := insert (insert (create 2 4) (-3) 0 0) 1 1 1 in
  smallest_diagonal_entry (add_identity_multiple m 5) == smallest_diagonal_entry m.
Proof.
  intros m.
  assert (W : well_formed m) by (repeat split).
  destruct (smallest_diagonal_entry_add_identity 5 W) as (_ & _ & _ & _ & H).
  apply H; [discriminate|]. vm_compute. discriminate.
Defined.

(** X8. The class invariant, that the three vectors have
    [number_nonzeros] elements, holds for a new matrix and after [reset],
    and is kept by [insert], by [add_identity_multiple], and by [pop] on a
    matrix that stores an entry, which then stores one entry less. *)
Theorem well_formed_invariant :
  (forall dim capacity, well_formed (create dim capacity)) /\
  (forall m, well_formed (reset m) /\ number_nonzeros (reset m) = 0%nat /\
             dimension (reset m) = dimension m) /\
  (forall m term row_index column_index,
     well_formed m -> well_formed (insert m term row_index column_index)) /\
  (forall m multiple, well_formed m -> well_formed (add_identity_multiple m multiple)) /\
  (forall m, well_formed m -> (0 < number_nonzeros m)%nat ->
     well_formed (pop m) /\ S (number_nonzeros (pop m)) = number_nonzeros m /\
     stored_entries (pop m) = removelast (stored_entries m)).
Proof.
  split; [intros; repeat split|]. split; [intros; repeat split|].
  split; [intros; now apply insert_well_formed|].
  split; [intros; now apply add_identity_multiple_well_formed|].
  intros m W P.
  assert (Wp : well_formed (pop m)).
  { destruct W as (Wv & Wr & Wc). unfold well_formed, pop. simpl.
    rewrite !removelast_firstn_len, !length_firstn. lia. }
  split; [exact Wp|]. split; [unfold pop; simpl; lia|].
  rewrite (stored_entries_well_formed Wp), (stored_entries_well_formed W).
  destruct W as (Wv & Wr & Wc). unfold pop. simpl.
  rewrite !removelast_firstn_len, !length_combine, Wv, Wr, Wc, !Nat.min_id.
  now rewrite !combine_firstn.
Qed.

End COO_facts.

(** ** Inertia correction *)

Module Hessian_facts.
Import COO Hessian COO_facts.

Section ModifyInertia.
Context {Solver : Type} `{LinearSolver Solver}.

Lemma add_identity_multiple_unfold (m : COOSymmetricMatrix) (multiple : Q) :
  add_identity_multiple m multiple =
  mkCOO (dimension m) (number_nonzeros m + dimension m)
        (matrix m ++ repeat multiple (dimension m))
        (row_indices m ++ seq 0 (dimension m))
        (column_indices m ++ seq 0 (dimension m)).
Proof.
  unfold add_identity_multiple. now rewrite insert_diagonal_fold, length_seq.
Qed.

Lemma after_failures_succ (k : nat) (st : InertiaState) :
  after_failures (S k) st = increase_inertia (after_failures k st).
Proof.
  revert st. induction k as [|k IH]; intros st; [reflexivity|].
  change (after_failures (S (S k)) st) with (after_failures (S k) (increase_inertia st)).
  now rewrite IH.
Qed.

Lemma after_failures_dimension (k : nat) (st : InertiaState) :
  dimension (matrix_of (after_failures k st)) = dimension (matrix_of st).
Proof.
  revert st. induction k as [|k IH]; intros st; simpl; [reflexivity|].
  rewrite IH. unfold increase_inertia; simpl.
  now rewrite add_identity_multiple_unfold.
Qed.

(** Closed form of the inertia term and of the values appended to the matrix. *)
Lemma after_failures_closed_form (k : nat) (st : InertiaState) :
  inertia (after_failures k st) = inertia_sequence (inertia st) k /\
  matrix (matrix_of (after_failures k st)) =
  matrix (matrix_of st) ++ increments (dimension (matrix_of st)) (inertia st) k.
Proof.
  revert st. induction k as [|k IH]; intros st; simpl.
  - now rewrite app_nil_r.
  - destruct (IH (increase_inertia st)) as [Hi Hm]. rewrite Hi, Hm.
    unfold increase_inertia; simpl. rewrite add_identity_multiple_unfold; simpl.
    now rewrite <- app_assoc.
Qed.

(** The loop returns the first state whose factorization has the right
    inertia. *)
Lemma inertia_loop_sound (fuel : nat) (st st' : InertiaState) :
  inertia_loop fuel st = Some st' ->
  exists k, (k < fuel)%nat /\ st' = after_failures k st /\
            good_inertia (solver_of st') = true /\
            forall i, (i < k)%nat -> good_inertia (solver_of (after_failures i st)) = false.
Proof.
  revert st. induction fuel as [|fuel IH]; intros st; simpl; [discriminate|].
  destruct (good_inertia (solver_of st)) eqn:G.
  - intros [= <-]. exists 0%nat. repeat split; auto; lia.
  - intros E. destruct (IH _ E) as (k & Hk & -> & Hg & Hf).
    exists (S k). repeat split; auto; [lia|].
    intros [|i] Hi; simpl; [exact G|apply Hf; lia].
Qed.

Lemma inertia_loop_complete (k : nat) (st : InertiaState) :
  good_inertia (solver_of (after_failures k st)) = true ->
  exists st', inertia_loop (S k) st = Some st'.
Proof.
  revert st. induction k as [|k IH]; intros st G.
  - simpl in *. rewrite G. eauto.
  - change (after_failures (S k) st) with (after_failures k (increase_inertia st)) in G.
    change (inertia_loop (S (S k)) st)
      with (if good_inertia (solver_of st) then Some st
            else inertia_loop (S k) (increase_inertia st)).
    destruct (good_inertia (solver_of st)); [eauto|now apply IH].
Qed.

(** C2, as amended.  Before the first factorization the inertia term is
    [beta - min_diag(H)] when [min_diag(H) <= 0], and this strictly positive
    term is appended to the diagonal; it is 0 when [0 < min_diag(H)], and
    then the matrix is factorized as it is.  This is [max(0, beta -
    min_diag(H))] whenever [min_diag(H) <= 0] or [beta <= min_diag(H)].
    The matrix so prepared is the one of the first factorization.
    When the loop returns, it does so after some number [k] of failed
    factorizations; each failure replaces the term [delta] by [beta] if
    [delta = 0] and by [2 delta] otherwise, and appends to the matrix
    [dimension] diagonal entries whose value is the difference between the
    new term and the previous one.  The loop returns as soon as a
    factorization has the right inertia. *)
Theorem modify_inertia_regularization (matrix : COOSymmetricMatrix) (linear_solver : Solver) :
  let smallest := smallest_diagonal_entry matrix in
  let first := first_factorization matrix linear_solver in
  (smallest <= 0 ->
     inertia first = beta - smallest /\ 0 < inertia first /\
     matrix_of first = add_identity_multiple matrix (inertia first - 0) /\
     COO.matrix (matrix_of first) =
       COO.matrix matrix ++ repeat (inertia first - 0) (dimension matrix)) /\
  (0 < smallest -> inertia first = 0 /\ matrix_of first = matrix) /\
  (smallest <= 0 \/ beta <= smallest -> inertia first == spec_initial_inertia matrix) /\
  solver_of first =
    do_numerical_factorization (do_symbolic_factorization linear_solver (matrix_of first))
                               (matrix_of first) /\
  (forall fuel st, modify_inertia_run fuel matrix linear_solver = Some st ->
     exists k, (k < fuel)%nat /\ st = after_failures k first /\
       good_inertia (solver_of st) = true /\
       (forall i, (i < k)%nat ->
          let before := after_failures i first in
          let after := after_failures (S i) first in
          good_inertia (solver_of before) = false /\
          previous_inertia after = inertia before /\
          inertia after = (if Qeq_bool (inertia before) 0 then beta else 2 * inertia before) /\
          matrix_of after =
            add_identity_multiple (matrix_of before) (inertia after - inertia before) /\
          solver_of after = do_numerical_factorization (solver_of before) (matrix_of after) /\
          COO.matrix (matrix_of after) =
            COO.matrix (matrix_of before)
            ++ repeat (inertia after - inertia before) (dimension matrix)) /\
       inertia st = inertia_sequence (inertia first) k /\
       COO.matrix (matrix_of st) =
         COO.matrix (matrix_of first) ++ increments (dimension matrix) (inertia first) k) /\
  (forall k, good_inertia (solver_of (after_failures k first)) = true ->
     exists st, modify_inertia_run (S k) matrix linear_solver = Some st).
Proof.
  intros smallest first.
  assert (Hdim : dimension (matrix_of first) = dimension matrix).
  { subst first. unfold first_factorization; simpl.
    destruct (Qlt_bool 0 (initial_inertia matrix)); [|reflexivity].
    now rewrite add_identity_multiple_unfold. }
  split; [|split; [|split; [|split; [reflexivity|split]]]].
  - intros Hs. subst first. unfold first_factorization; simpl.
    assert (E : initial_inertia matrix = beta - smallest).
    { unfold initial_inertia. fold smallest.
      apply Qle_bool_iff in Hs. now rewrite Hs. }
    assert (P : 0 < initial_inertia matrix).
    { rewrite E. unfold beta. lra. }
    rewrite (proj2 (Qlt_bool_iff _ _) P).
    repeat split; auto. now rewrite add_identity_multiple_unfold.
  - intros Hs. subst first. unfold first_factorization; simpl.
    assert (E : initial_inertia matrix = 0).
    { unfold initial_inertia. fold smallest.
      destruct (Qle_bool smallest 0) eqn:L; [|reflexivity].
      apply Qle_bool_iff in L. lra. }
    rewrite E. split; reflexivity.
  - intros Hs. subst first. unfold first_factorization, spec_initial_inertia; simpl.
    fold smallest. unfold initial_inertia. fold smallest.
    destruct (Qle_bool smallest 0) eqn:L.
    + apply Qle_bool_iff in L. rewrite Q.max_r; [reflexivity|]. unfold beta. lra.
    + destruct Hs as [Hs|Hs]; [apply Qle_bool_iff in Hs; congruence|].
      rewrite Q.max_l; [reflexivity|]. lra.
  - intros fuel st E. apply inertia_loop_sound in E.
    destruct E as (k & Hk & -> & Hg & Hf). fold first.
    exists k. split; [exact Hk|]. split; [reflexivity|]. split; [exact Hg|].
    split; [|split].
    + intros i Hi. cbv zeta. rewrite after_failures_succ.
      split; [now apply Hf|]. do 4 (split; [reflexivity|]).
      unfold increase_inertia; simpl.
      rewrite add_identity_multiple_unfold; simpl.
      now rewrite after_failures_dimension, Hdim.
    + apply after_failures_closed_form.
    + rewrite <- Hdim. apply after_failures_closed_form.
  - intros k G. apply inertia_loop_complete. exact G.
Qed.

End ModifyInertia.

(** The claim fails between 0 and [beta]: the smallest diagonal entry of
    [tiny_diagonal] is 1/20000, the specification's term is 1/20000, and the
    code chooses 0 and factorizes the matrix unchanged. *)
Lemma initial_inertia_not_max :
  0 < smallest_diagonal_entry tiny_diagonal /\
  smallest_diagonal_entry tiny_diagonal < beta /\
  0 < spec_initial_inertia tiny_diagonal /\
  inertia (first_factorization tiny_diagonal (0, 0, 0)) = 0 /\
  ~ inertia (first_factorization tiny_diagonal (0, 0, 0)) == spec_initial_inertia tiny_diagonal /\
  matrix_of (first_factorization tiny_diagonal (0, 0, 0)) = tiny_diagonal /\
  option_map fst (modify_inertia 1 tiny_diagonal (0, 0, 0)) = Some tiny_diagonal.
Proof.
  repeat split; try reflexivity.
  intro E. vm_compute in E. discriminate.
Qed.

(** [[0, 1], [1, 0]] needs fifteen factorizations: the term goes from
    [beta] to [2^14 beta]. *)
Example modify_inertia_saddle :
  option_map (fun st => (Qred (inertia st), number_nonzeros (matrix_of st)))
             (modify_inertia_run 20 saddle (0, 0, 0))
  = Some (1024 # 625, 31%nat).
Proof. vm_compute. reflexivity. Qed.

(** The run on the saddle matrix ends after some number of failed
    factorizations, with the term of that rank in the sequence. *)
Lemma modify_inertia_witness :
  exists st k,
    modify_inertia_run 20 saddle (0, 0, 0) = Some st /\
    inertia st = inertia_sequence (inertia (first_factorization saddle (0, 0, 0))) k.
Proof.
  destruct (modify_inertia_run 20 saddle (0, 0, 0)) as [st|] eqn:E;
    [|vm_compute in E; discriminate].
  destruct (modify_inertia_regularization saddle (0, 0, 0)) as (_ & _ & _ & _ & L & _).
  destruct (L 20%nat st E) as (k & _ & _ & _ & _ & Hi & _).
  exists st, k. split; [reflexivity|exact Hi].
Defined.

(** *** The matrix returned *)

(** The entry [(i, j)] of the matrix that the triples denote (duplicates
    summed), after [add_identity_multiple]. *)
Lemma dense_entry_add_identity (m : COOSymmetricMatrix) (multiple : Q) (i j : nat) :
  well_formed m ->
  dense_entry (add_identity_multiple m multiple) i j
  == dense_entry m i j
     + (if (i =? j)%nat && (i <? dimension m)%nat then multiple else 0).
Proof.
  intros W. unfold dense_entry. rewrite !for_each_stored_entries.
  rewrite (stored_entries_add_identity multiple W), fold_left_app.
  generalize (fold_left
    (fun acc e =>
       if ((fst (fst e) =? i) && (snd (fst e) =? j) || (fst (fst e) =? j) && (snd (fst e) =? i))%nat
       then acc + snd e else acc) (stored_entries m) 0).
  intros a. induction (dimension m) as [|d IH].
  - simpl. rewrite andb_false_r. ring.
  - rewrite seq_S, map_app, fold_left_app. simpl Nat.add. cbn [map fold_left fst snd].
    destruct (Nat.eqb_spec d i) as [Ei|Ei], (Nat.eqb_spec d j) as [Ej|Ej];
      simpl andb; simpl orb; cbv iota; rewrite IH; clear IH.
    + subst i j. rewrite Nat.eqb_refl, Nat.ltb_irrefl. simpl.
      replace (d <? S d)%nat with true by (symmetry; apply Nat.ltb_lt; lia). ring.
    + subst i. replace (d =? j)%nat with false by (symmetry; now apply Nat.eqb_neq).
      simpl. reflexivity.
    + subst j. replace (i =? d)%nat with false
        by (symmetry; apply Nat.eqb_neq; congruence).
      simpl. reflexivity.
    + destruct (i =? j)%nat eqn:Eij; simpl; [|reflexivity].
      apply Nat.eqb_eq in Eij. subst j.
      destruct (i <? d)%nat eqn:L1, (i <? S d)%nat eqn:L2; try reflexivity.
      * apply Nat.ltb_lt in L1. apply Nat.ltb_ge in L2. lia.
      * apply Nat.ltb_ge in L1. apply Nat.ltb_lt in L2. lia.
Qed.

Section Regularization.
Context {Solver : Type} {linear_solver_interface : LinearSolver Solver}.

Lemma initial_inertia_cases (matrix : COOSymmetricMatrix) :
  (Qlt_bool 0 (initial_inertia matrix) = true /\ beta <= initial_inertia matrix) \/
  (Qlt_bool 0 (initial_inertia matrix) = false /\ initial_inertia matrix = 0).
Proof.
  unfold initial_inertia.
  destruct (Qle_bool (smallest_diagonal_entry matrix) 0) eqn:L.
  - apply Qle_bool_iff in L. left. split; [apply Qlt_bool_iff; unfold beta; lra|lra].
  - right. split; reflexivity.
Qed.

Lemma first_factorization_matrix (matrix : COOSymmetricMatrix) (linear_solver : Solver) :
  inertia (first_factorization matrix linear_solver) = initial_inertia matrix /\
  matrix_of (first_factorization matrix linear_solver) =
    if Qlt_bool 0 (initial_inertia matrix)
    then add_identity_multiple matrix (initial_inertia matrix - 0)
    else matrix.
Proof. split; reflexivity. Qed.

(** The first factorization is that of [H + inertia I]. *)
Lemma first_factorization_shift (matrix : COOSymmetricMatrix) (linear_solver : Solver) :
  well_formed matrix ->
  let st := first_factorization matrix linear_solver in
  well_formed (matrix_of st) /\
  dimension (matrix_of st) = dimension matrix /\
  forall i j,
    dense_entry (matrix_of st) i j
    == dense_entry matrix i j
       + (if (i =? j)%nat && (i <? dimension matrix)%nat then inertia st else 0).
Proof.
  intros W st. destruct (first_factorization_matrix matrix linear_solver) as [Hi Hm].
  fold st in Hi, Hm. rewrite Hi, Hm.
  destruct (initial_inertia_cases matrix) as [[T _]|[T Z]]; rewrite T.
  - split; [now apply add_identity_multiple_well_formed|].
    split; [now rewrite add_identity_multiple_fields|].
    intros i j. rewrite dense_entry_add_identity by exact W.
    destruct ((i =? j)%nat && (i <? dimension matrix)%nat); ring.
  - split; [exact W|]. split; [reflexivity|].
    intros i j. rewrite Z. destruct ((i =? j)%nat && (i <? dimension matrix)%nat); ring.
Qed.

(** A failed factorization keeps it so. *)
Lemma increase_inertia_shift (matrix : COOSymmetricMatrix) (st : InertiaState) :
  well_formed (matrix_of st) /\
  dimension (matrix_of st) = dimension matrix /\
  (forall i j,
     dense_entry (matrix_of st) i j
     == dense_entry matrix i j
        + (if (i =? j)%nat && (i <? dimension matrix)%nat then inertia st else 0)) ->
  well_formed (matrix_of (increase_inertia st)) /\
  dimension (matrix_of (increase_inertia st)) = dimension matrix /\
  (forall i j,
     dense_entry (matrix_of (increase_inertia st)) i j
     == dense_entry matrix i j
        + (if (i =? j)%nat && (i <? dimension matrix)%nat
           then inertia (increase_inertia st) else 0)).
Proof.
  intros (W & D & E). unfold increase_inertia; simpl.
  split; [now apply add_identity_multiple_well_formed|].
  split; [now rewrite add_identity_multiple_fields|].
  intros i j. rewrite dense_entry_add_identity by exact W. rewrite E, D.
  destruct ((i =? j)%nat && (i <? dimension matrix)%nat); ring.
Qed.

(** X9. [modify_inertia] returns [H + delta I], for the inertia term
    [delta] it ends with: reading the coordinate triples as a matrix
    (entries stored at the same position summed), every diagonal entry of
    the result within the dimension is the entry of the input plus the
    final inertia term, and every other entry is the entry of the input.
    The successive updates by [inertia - previous_inertia] add up to the
    final term.  The result is well formed and has the dimension of the
    input. *)
Theorem modify_inertia_adds_multiple_of_identity (fuel : nat) (matrix : COOSymmetricMatrix)
    (linear_solver : Solver) (st : InertiaState) :
  well_formed matrix ->
  modify_inertia_run fuel matrix linear_solver = Some st ->
  well_formed (matrix_of st) /\
  dimension (matrix_of st) = dimension matrix /\
  forall i j,
    dense_entry (matrix_of st) i j
    == dense_entry matrix i j
       + (if (i =? j)%nat && (i <? dimension matrix)%nat then inertia st else 0).
Proof.
  intros W E. unfold modify_inertia_run in E.
  apply inertia_loop_sound in E. destruct E as (k & _ & -> & _).
  induction k as [|k IH].
  - apply (first_factorization_shift linear_solver W).
  - rewrite after_failures_succ. apply increase_inertia_shift. exact IH.
Qed.

Lemma after_failures_storage (k : nat) (st : InertiaState) :
  let dim := dimension (matrix_of st) in
  number_nonzeros (matrix_of (after_failures k st))
    = (number_nonzeros (matrix_of st) + k * dim)%nat /\
  row_indices (matrix_of (after_failures k st))
    = row_indices (matrix_of st) ++ concat (repeat (seq 0 dim) k) /\
  column_indices (matrix_of (after_failures k st))
    = column_indices (matrix_of st) ++ concat (repeat (seq 0 dim) k).
Proof.
  revert st. induction k as [|k IH]; intros st dim; subst dim.
  - simpl. rewrite !app_nil_r. repeat split. lia.
  - change (after_failures (S k) st) with (after_failures k (increase_inertia st)).
    destruct (IH (increase_inertia st)) as (Hn & Hr & Hc). cbv zeta in *.
    rewrite Hn, Hr, Hc. unfold increase_inertia; simpl matrix_of.
    rewrite add_identity_multiple_fields. simpl.
    rewrite <- !app_assoc. repeat split. lia.
Qed.

Lemma inertia_sequence_nonzero (delta : Q) (k : nat) :
  ~ delta == 0 -> inertia_sequence delta k == delta * Base.Qpow 2 k.
Proof.
  revert delta. induction k as [|k IH]; intros delta N; simpl.
  - ring.
  - unfold next_inertia at 1. destruct (Qeq_bool delta 0) eqn:Z.
    + apply Qeq_bool_iff in Z. contradiction.
    + rewrite IH; [ring|]. intros Z2. apply N. lra.
Qed.

Lemma Qpow_two_ge_one (k : nat) : 1 <= Base.Qpow 2 k.
Proof.
  induction k as [|k IH]; simpl; lra.
Qed.

(** X10. The cost of the correction.  A run of [modify_inertia] that
    returns does so after some number [k] of failed factorizations: the
    factorizations of the first [k] states have the wrong inertia and the
    state returned is the one after them, whose factorization has the right
    inertia.  Such a run has appended [dimension]
    diagonal entries once for a positive initial term and once for each
    failure, after the entries of the input, which it keeps: the number of
    nonzeros has grown by [(k + 1) * dimension], or by [k * dimension] when
    the initial term is 0.  The final inertia term is the initial term
    times [2^k] when that term is positive; when it is 0, the final term is
    0 for [k = 0] and [beta * 2^(k-1)] otherwise.  So the final term is 0,
    and then the matrix is returned as it was given, or it is at least
    [beta]. *)
Theorem modify_inertia_cost (fuel : nat) (matrix : COOSymmetricMatrix)
    (linear_solver : Solver) (st : InertiaState) :
  modify_inertia_run fuel matrix linear_solver = Some st ->
  exists k,
    (k < fuel)%nat /\
    st = after_failures k (first_factorization matrix linear_solver) /\
    good_inertia (solver_of st) = true /\
    (forall i, (i < k)%nat ->
       good_inertia
         (solver_of (after_failures i (first_factorization matrix linear_solver))) = false) /\
    let updates := (k + (if Qlt_bool 0 (initial_inertia matrix) then 1 else 0))%nat in
    number_nonzeros (matrix_of st)
      = (number_nonzeros matrix + updates * dimension matrix)%nat /\
    row_indices (matrix_of st)
      = row_indices matrix ++ concat (repeat (seq 0 (dimension matrix)) updates) /\
    column_indices (matrix_of st)
      = column_indices matrix ++ concat (repeat (seq 0 (dimension matrix)) updates) /\
    (exists appended, COO.matrix (matrix_of st) = COO.matrix matrix ++ appended) /\
    inertia st
      == (if Qlt_bool 0 (initial_inertia matrix) then initial_inertia matrix * Base.Qpow 2 k
          else match k with O => 0 | S k' => beta * Base.Qpow 2 k' end) /\
    (inertia st == 0 -> matrix_of st = matrix) /\
    (~ inertia st == 0 -> beta <= inertia st).
Proof.
  intros E. unfold modify_inertia_run in E.
  apply inertia_loop_sound in E. destruct E as (k & Hk & -> & Hg & Hf).
  exists k. split; [exact Hk|]. split; [reflexivity|]. split; [exact Hg|].
  split; [exact Hf|]. clear Hg Hf. cbv zeta.
  set (first := first_factorization matrix linear_solver).
  destruct (after_failures_storage k first) as (Hn & Hr & Hc). cbv zeta in *.
  destruct (after_failures_closed_form k first) as (Hi & Hm).
  destruct (first_factorization_matrix matrix linear_solver) as [Fi Fm].
  fold first in Fi, Fm.
  assert (Hseq : inertia_sequence (initial_inertia matrix) k
                 == (if Qlt_bool 0 (initial_inertia matrix)
                     then initial_inertia matrix * Base.Qpow 2 k
                     else match k with O => 0 | S k' => beta * Base.Qpow 2 k' end)).
  { destruct (initial_inertia_cases matrix) as [[T B]|[T Z]]; rewrite T.
    - apply inertia_sequence_nonzero. unfold beta in B. lra.
    - rewrite Z. destruct k as [|k']; simpl; [reflexivity|].
      apply inertia_sequence_nonzero. unfold beta. lra. }
  rewrite Hn, Hr, Hc, Hi, Hm, Fi, Fm.
  assert (Hpos : forall j, 1 <= Base.Qpow 2 j) by apply Qpow_two_ge_one.
  destruct (initial_inertia_cases matrix) as [[T B]|[T Z]]; rewrite T in *.
  - rewrite add_identity_multiple_fields. simpl.
    rewrite <- !app_assoc.
    replace (k + 1)%nat with (S k) by lia. simpl repeat. simpl concat.
    split; [lia|]. split; [reflexivity|]. split; [reflexivity|].
    split; [eauto|]. split; [exact Hseq|].
    assert (Hb : beta <= initial_inertia matrix * Base.Qpow 2 k).
    { specialize (Hpos k). unfold beta in *. nra. }
    rewrite Hseq. unfold beta in *. split; intros H; [exfalso|]; lra.
  - rewrite Nat.add_0_r.
    split; [reflexivity|]. split; [reflexivity|]. split; [reflexivity|].
    split; [eauto|]. split; [exact Hseq|].
    rewrite Hseq. destruct k as [|k'].
    + split; [intros _; exact Fm|intros H; exfalso; apply H; reflexivity].
    + assert (Hb : beta <= beta * Base.Qpow 2 k').
      { specialize (Hpos k'). unfold beta. lra. }
      unfold beta in *. split; intros H; [exfalso|]; lra.
Qed.

End Regularization.

(** The saddle matrix, corrected: the diagonal entries are the final
    inertia term. *)
Lemma modify_inertia_adds_multiple_of_identity_witness :
  exists st,
    modify_inertia_run 20 saddle (0, 0, 0) = Some st /\
    dense_entry (matrix_of st) 0 0 == dense_entry saddle 0 0 + inertia st /\
    dense_entry (matrix_of st) 1 0 == dense_entry saddle 1 0 + 0.
Proof.
  destruct (modify_inertia_run 20 saddle (0, 0, 0)) as [st|] eqn:E;
    [|vm_compute in E; discriminate].
  assert (W : well_formed saddle) by (repeat split).
  destruct (modify_inertia_adds_multiple_of_identity 20 (0, 0, 0) W E) as (_ & _ & H).
  exists st. split; [reflexivity|]. split; [apply (H 0%nat 0%nat)|apply (H 1%nat 0%nat)].
Defined.

(** The saddle matrix: fourteen failures after the first factorization. *)
Lemma modify_inertia_cost_witness :
  exists st k,
    modify_inertia_run 20 saddle (0, 0, 0) = Some st /\
    st = after_failures k (first_factorization saddle (0, 0, 0)) /\
    number_nonzeros (matrix_of st) = (number_nonzeros saddle + (k + 1) * 2)%nat /\
    inertia st == beta * Base.Qpow 2 k.
Proof.
  destruct (modify_inertia_run 20 saddle (0, 0, 0)) as [st|] eqn:E;
    [|vm_compute in E; discriminate].
  destruct (modify_inertia_cost 20 saddle (0, 0, 0) E)
    as (k & _ & Hs & _ & _ & Hn & _ & _ & _ & Hi & _).
  exists st, k. split; [reflexivity|]. split; [exact Hs|]. split; [exact Hn|exact Hi].
Defined.

End Hessian_facts.

(** ** Trust-region mechanism *)

Module TrustRegion_facts.
Import Base TrustRegion.

Lemma Qpow_nonneg (q : Q) (k : nat) : 0 <= q -> 0 <= Qpow q k.
Proof.
  intros Hq. induction k as [|k IH]; simpl; [lra|].
  apply Qmult_le_0_compat; assumption.
Qed.

(** Bernoulli's inequality. *)
Lemma Qpow_bernoulli (q : Q) (k : nat) :
  1 <= q -> 1 + inject_Z (Z.of_nat k) * (q - 1) <= Qpow q k.
Proof.
  intros Hq. induction k as [|k IH].
  - simpl. unfold inject_Z. lra.
  - rewrite Nat2Z.inj_succ. unfold Z.succ. rewrite inject_Z_plus.
    change (Qpow q (S k)) with (q * Qpow q k).
    assert (Hk : 0 <= inject_Z (Z.of_nat k)).
    { change 0 with (inject_Z 0). rewrite <- Zle_Qle. lia. }
    set (n := inject_Z (Z.of_nat k)) in *. set (p := Qpow q k) in *.
    change (inject_Z 1) with 1.
    assert (Hp : q * (1 + n * (q - 1)) <= q * p) by (apply Qmult_le_l; lra).
    assert (Hsq : 0 <= n * ((q - 1) * (q - 1))).
    { apply Qmult_le_0_compat; [exact Hk|]. apply Qmult_le_0_compat; lra. }
    lra.
Qed.

(** A geometric sequence of ratio above 1 exceeds every bound. *)
Lemma Qpow_unbounded (r scale q : Q) :
  0 < scale -> 1 < q -> exists k, r < scale * Qpow q k.
Proof.
  intros Hs Hq.
  assert (Hd : 0 < scale * (q - 1)) by (apply Qmult_lt_0_compat; lra).
  destruct (Qarchimedean (r / (scale * (q - 1)))) as [p Hp].
  exists (Pos.to_nat p).
  apply (Qmult_lt_compat_r _ _ _ Hd) in Hp.
  assert (E : r / (scale * (q - 1)) * (scale * (q - 1)) == r).
  { unfold Qdiv. rewrite <- Qmult_assoc, (Qmult_comm (/ _)), Qmult_inv_r; lra. }
  rewrite E in Hp.
  assert (B := Qpow_bernoulli (Pos.to_nat p) (Qlt_le_weak _ _ Hq)).
  rewrite positive_nat_Z in B.
  change (inject_Z (Z.pos p)) with (Z.pos p # 1) in B.
  set (n := Z.pos p # 1) in *. set (pw := Qpow q (Pos.to_nat p)) in *.
  assert (Hm : scale * (1 + n * (q - 1)) <= scale * pw) by (apply Qmult_le_l; lra).
  lra.
Qed.


Lemma Qdiv_le_self (a d : Q) : 1 <= d -> 0 <= a -> a / d <= a.
Proof.
  intros Hd Ha. apply Qle_shift_div_r; [lra|].
  assert (0 <= a * (d - 1)) by (apply Qmult_le_0_compat; lra). lra.
Qed.

Section Mechanism.
Context {World Iterate Model : Type} `{ConstraintRelaxationStrategy World Iterate Model}.

Ltac run_in E :=
  repeat (simpl in E;
          match type of E with
          | context [snd ?c] => destruct c eqn:?
          | context [let (_, _) := ?c in _] => destruct c eqn:?
          | context [if ?c then _ else _] => destruct c eqn:?
          | context [match ?c with _ => _ end] => destruct c eqn:?
          end).

(** What one pass through the [try] block does to the radius, by the way it
    ends. *)
Lemma try_block_spec (m m' : Machine World) (o : Outcome Step) :
  try_block m = (m', o) ->
  same_parameters (this m') (this m) /\
  match o with
  | Returned (RejectedStep d) =>
      0 < radius (this m) /\
      radius (this m') = Qmin (radius (this m)) (norm d) / decrease_factor (this m) /\
      exists w trial model w' trial',
        is_acceptable w trial d model 1 = (w', Returned (false, trial'))
  | Returned (AcceptedStep trial' d) =>
      0 < radius (this m) /\
      (radius (this m') = radius (this m) \/
       radius (this m') = radius (this m) * increase_factor (this m)) /\
      exists w trial model w',
        is_acceptable w trial d model 1 = (w', Returned (true, trial'))
  | Thrown e =>
      0 < radius (this m) /\
      (radius (this m') = radius (this m) \/
       exists w trial w', register_accepted_iterate w trial = (w', Thrown e))
  | Aborted assertion =>
      (assertion = radius_assertion /\ ~ 0 < radius (this m) /\ m' = m) \/
      0 < radius (this m)
  end.
Proof.
  unfold try_block, bind, call, assert, pure, get, put, ret, add_statistics,
    rectify_active_set, check_unboundedness.
  intros E. destruct m as [tr w0]. simpl in E.
  destruct (Qlt_bool 0 (radius tr)) eqn:R.
  2:{ injection E as <- <-. split; [repeat split|]. left. repeat split.
      simpl. intros P. apply Qlt_bool_iff in P. congruence. }
  apply Qlt_bool_iff in R.
  run_in E; injection E as <- <-; simpl;
    (split; [repeat split|]); auto 10; try (split; [exact R|]); eauto 10.
Qed.


Lemma termination_false_iff (tr : TrustRegionStrategy) :
  termination tr = false <-> min_radius tr <= radius tr.
Proof. apply Qlt_bool_false_iff. Qed.

Lemma try_block_counts (m m' : Machine World) (o : Outcome Step) :
  try_block m = (m', o) -> 0 < radius (this m) ->
  number_iterations (this m') = S (number_iterations (this m)).
Proof.
  unfold try_block, bind, call, assert, pure, get, put, ret, add_statistics,
    rectify_active_set, check_unboundedness.
  intros E R. destruct m as [tr w0]. simpl in *.
  apply Qlt_bool_iff in R. rewrite R in E.
  run_in E; injection E as <- <-; reflexivity.
Qed.

Lemma loop_succ (fuel : nat) (m : Machine World) :
  loop (S fuel) m =
  if termination (this m) then Some (m, after_loop (this m))
  else match iteration m with
       | (m', Some result) => Some (m', result)
       | (m', None) => loop fuel m'
       end.
Proof. reflexivity. Qed.

Lemma entry_succ (k : nat) (m : Machine World) :
  entry (S k) m =
  if termination (this m) then None
  else match iteration m with
       | (m', None) => entry k m'
       | (_, Some _) => None
       end.
Proof. reflexivity. Qed.

(** What one pass through the body of the loop does, by the way it ends. *)
Lemma iteration_spec (m m' : Machine World) (r : option Result) :
  iteration m = (m', r) ->
  same_parameters (this m') (this m) /\
  match r with
  | None =>
      0 < radius (this m) /\
      ((exists d, try_block m = (m', Returned (RejectedStep d)) /\
                  radius (this m') = Qmin (radius (this m)) (norm d) / decrease_factor (this m)) \/
       (exists m1 what, try_block m = (m1, Thrown (NumericalError what)) /\
                        m' = catch_numerical_error m1 /\
                        (radius (this m1) = radius (this m) \/
                         exists w trial w',
                           register_accepted_iterate w trial = (w', Thrown (NumericalError what)))))
  | Some (ReturnedIterate trial n) =>
      exists d w trial0 model w',
        is_acceptable w trial0 d model 1 = (w', Returned (true, trial)) /\ n = norm d
  | Some (RuntimeError _) => False
  | Some (Uncaught e) => forall what, e <> NumericalError what
  | Some (AssertionViolated a) =>
      try_block m = (m', Aborted a) /\
      ((a = radius_assertion /\ ~ 0 < radius (this m) /\ m' = m) \/ 0 < radius (this m))
  end.
Proof.
  unfold iteration. destruct (try_block m) as [m1 o] eqn:E.
  destruct (try_block_spec m E) as [P Hs].
  destruct o as [[trial d|d]|[what|what]|a]; intros [= <- <-]; (split; [|clear P]).
  - exact P.
  - destruct Hs as (_ & _ & w & t0 & model & w' & Ha). exists d, w, t0, model, w'. auto.
  - exact P.
  - destruct Hs as (R & Hr & _). split; [exact R|]. left. eauto.
  - unfold same_parameters, catch_numerical_error in *. simpl. exact P.
  - destruct Hs as (R & Hr). split; [exact R|]. right. exists m1, what. auto.
  - exact P.
  - intros w. discriminate.
  - exact P.
  - split; [reflexivity|exact Hs].
Qed.




(** C6. When the trial direction [d] of a pass is rejected, the radius
    becomes [min(radius, norm d) / decrease_factor], and this is the radius
    at the next test of the loop and at the entry of the next pass; when
    [decrease_factor >= 1], the norm of [d] (a nonnegative number) is an
    upper bound of that radius. *)
Theorem rejected_direction_bounds_radius (m m' : Machine World) (d : Direction) :
  try_block m = (m', Returned (RejectedStep d)) ->
  radius (this m') = Qmin (radius (this m)) (norm d) / decrease_factor (this m) /\
  iteration m = (m', None) /\
  (termination (this m) = false ->
     (forall fuel, loop (S fuel) m = loop fuel m') /\
     (forall k, entry (S k) m = entry k m')) /\
  (1 <= decrease_factor (this m) -> 0 <= norm d -> radius (this m') <= norm d).
Proof.
  intros E. destruct (try_block_spec m E) as (_ & R & Hr & _).
  assert (I : iteration m = (m', None)) by (unfold iteration; now rewrite E).
  split; [exact Hr|]. split; [exact I|]. split.
  - intros T. split; [intros fuel; rewrite loop_succ|intros k; rewrite entry_succ];
      now rewrite T, I.
  - intros Hdf Hn. rewrite Hr.
    assert (Hmin : 0 <= Qmin (radius (this m)) (norm d)).
    { apply Q.min_glb; [apply Qlt_le_weak|]; assumption. }
    eapply Qle_trans; [apply Qdiv_le_self; assumption|apply Q.le_min_r].
Qed.


End Mechanism.

(** A rejected step of the scenario: radius 2, direction of norm 2, next radius 1. *)
Lemma rejected_direction_witness :
  let m' := mkMachine (mkTR (Qmin 2 2 / 2) 2 2 (1 # 1000000) (1 # 1000) 1) 2 in
  let d := mkDirection [2] (mkMultipliers [0] [0] []) (mkActiveBounds [] [])
                       OPTIMAL 2 0 1 None in
  try_block (toy_machine 2) = (m', Returned (RejectedStep d)) /\
  radius (this m') <= norm d.
Proof.
  intros m' d.
  assert (E : try_block (toy_machine 2) = (m', Returned (RejectedStep d)))
    by (vm_compute; reflexivity).
  split; [exact E|].
  apply (rejected_direction_bounds_radius (toy_machine 2) E);
    unfold Qle; simpl; lia.
Defined.

(** From radius 10: two evaluation errors, four rejections, then the step
    of norm 5/32 is accepted and the radius doubled. *)
Example toy_accepted :
  option_map (fun r => (Qred (radius (this (fst r))), number_iterations (this (fst r)), snd r))
             (compute_acceptable_iterate 20 (toy_machine 10))
  = Some (5 # 16, 7%nat, ReturnedIterate (10 # 64) (10 # 64)).
Proof. vm_compute. reflexivity. Qed.

Example toy_too_small :
  option_map snd (compute_acceptable_iterate 20 (toy_machine (1 # 2000)))
  = Some (RuntimeError too_small_error).
Proof. vm_compute. reflexivity. Qed.




(** *** The active set and the counter of iterations *)

Import Base_facts.

Lemma zeroed_length (l : list nat) (v : list Q) :
  length (fold_left (fun mu i => assign mu i 0) l v) = length v.
Proof.
  revert v. induction l as [|i l IH]; intros v; simpl; [reflexivity|].
  now rewrite IH, assign_length.
Qed.

(** One loop of [rectify_active_set]: the indices on the bound leave the
    active set, in order, and their multipliers are set to 0. *)
Lemma rectify_bounds_spec (x : list Q) (bound : Q) (active : list nat) (mu : list Q) :
  rectify_bounds x bound active mu =
  (filter (fun i => negb (Qeq_bool (nth i x 0) bound)) active,
   fold_left (fun mu i => assign mu i 0)
             (filter (fun i => Qeq_bool (nth i x 0) bound) active) mu).
Proof.
  revert mu. induction active as [|i rest IH]; intros mu; simpl; [reflexivity|].
  destruct (Qeq_bool (nth i x 0) bound); simpl.
  - apply IH.
  - now rewrite IH.
Qed.

Lemma filter_filter_negb (A : Type) (p : A -> bool) (l : list A) :
  filter p (filter (fun a => negb (p a)) l) = [] /\
  filter (fun a => negb (p a)) (filter (fun a => negb (p a)) l)
  = filter (fun a => negb (p a)) l.
Proof.
  induction l as [|a l [IH1 IH2]]; simpl; [split; reflexivity|].
  destruct (p a) eqn:E; simpl; [split; assumption|].
  rewrite E. simpl. split; [assumption|now f_equal].
Qed.

(** X11. [rectify_active_set], for a positive radius: the indices of the
    active set whose component of the direction lies on the trust region
    ([x[i] = -radius] at the lower bound, [x[i] = radius] at the upper
    bound) leave the active set and their bound multiplier becomes 0; the
    other indices stay, in their order, with their multipliers; the primal
    direction, the constraint multipliers and all other fields are
    unchanged.  For [radius <= 0] the assertion stops the program. *)
Theorem rectify_active_set_spec (direction : Direction) (radius : Q) :
  (0 < radius ->
   exists rectified,
     rectify_active_set direction radius = Returned rectified /\
     x rectified = x direction /\
     status rectified = status direction /\
     norm rectified = norm direction /\
     objective rectified = objective direction /\
     objective_multiplier rectified = objective_multiplier direction /\
     constraint_partition rectified = constraint_partition direction /\
     constraints_multipliers (multipliers rectified)
       = constraints_multipliers (multipliers direction) /\
     at_lower_bound (active_set_bounds rectified)
       = filter (fun i => negb (Qeq_bool (nth i (x direction) 0) (- radius)))
                (at_lower_bound (active_set_bounds direction)) /\
     at_upper_bound (active_set_bounds rectified)
       = filter (fun i => negb (Qeq_bool (nth i (x direction) 0) radius))
                (at_upper_bound (active_set_bounds direction)) /\
     length (lower_bounds (multipliers rectified))
       = length (lower_bounds (multipliers direction)) /\
     length (upper_bounds (multipliers rectified))
       = length (upper_bounds (multipliers direction)) /\
     (forall j,
        nth j (lower_bounds (multipliers rectified)) 0
        = if existsb (Nat.eqb j)
               (filter (fun i => Qeq_bool (nth i (x direction) 0) (- radius))
                       (at_lower_bound (active_set_bounds direction)))
          then 0 else nth j (lower_bounds (multipliers direction)) 0) /\
     (forall j,
        nth j (upper_bounds (multipliers rectified)) 0
        = if existsb (Nat.eqb j)
               (filter (fun i => Qeq_bool (nth i (x direction) 0) radius)
                       (at_upper_bound (active_set_bounds direction)))
          then 0 else nth j (upper_bounds (multipliers direction)) 0)) /\
  (~ 0 < radius -> rectify_active_set direction radius = Aborted radius_assertion).
Proof.
  unfold rectify_active_set. rewrite !rectify_bounds_spec. split.
  - intros P. apply Qlt_bool_iff in P. rewrite P.
    eexists. split; [reflexivity|]. simpl.
    repeat split; auto using zeroed_length, nth_zeroed.
  - intros N. destruct (Qlt_bool 0 radius) eqn:P; [|reflexivity].
    apply Qlt_bool_iff in P. contradiction.
Qed.

(** X12. [rectify_active_set] is idempotent: no index left in the active
    set lies on the trust region, so a second call changes nothing. *)
Theorem rectify_active_set_idempotent (direction rectified : Direction) (radius : Q) :
  rectify_active_set direction radius = Returned rectified ->
  rectify_active_set rectified radius = Returned rectified /\
  (forall i, In i (at_lower_bound (active_set_bounds rectified)) ->
     ~ nth i (x rectified) 0 == - radius) /\
  (forall i, In i (at_upper_bound (active_set_bounds rectified)) ->
     ~ nth i (x rectified) 0 == radius).
Proof.
  unfold rectify_active_set. rewrite !rectify_bounds_spec.
  destruct (Qlt_bool 0 radius) eqn:P; [|discriminate].
  intros [= <-].
  cbn [x multipliers active_set_bounds at_lower_bound at_upper_bound lower_bounds
       upper_bounds constraints_multipliers status norm objective objective_multiplier
       constraint_partition].
  destruct (filter_filter_negb (fun i => Qeq_bool (nth i (x direction) 0) (- radius))
              (at_lower_bound (active_set_bounds direction))) as [L1 L2].
  destruct (filter_filter_negb (fun i => Qeq_bool (nth i (x direction) 0) radius)
              (at_upper_bound (active_set_bounds direction))) as [U1 U2].
  rewrite L1, L2, U1, U2. cbn [fold_left]. split; [reflexivity|].
  split; intros i Hi E; apply filter_In in Hi; destruct Hi as [_ Hi];
    apply Qeq_bool_iff in E; rewrite E in Hi; discriminate.
Qed.

Lemma rectify_active_set_idempotent_witness :
  let d := mkDirection [2; -2; 1] (mkMultipliers [0; 7; 0] [5; 0; 3] [])
                       (mkActiveBounds [1%nat] [0%nat; 2%nat]) OPTIMAL 2 0 1 None in
  exists rectified,
    rectify_active_set d 2 = Returned rectified /\
    rectify_active_set rectified 2 = Returned rectified.
Proof.
  intros d.
  destruct (rectify_active_set d 2) as [rectified| |] eqn:E;
    try (vm_compute in E; discriminate).
  exists rectified. split; [reflexivity|].
  apply (rectify_active_set_idempotent d 2 E).
Defined.

Section Passes.
Context {World Iterate Model : Type}
        {strategy_interface : ConstraintRelaxationStrategy World Iterate Model}.

Ltac run_try E :=
  repeat (simpl in E;
          match type of E with
          | context [snd ?c] => destruct c eqn:?
          | context [let (_, _) := ?c in _] => destruct c eqn:?
          | context [if ?c then _ else _] => destruct c eqn:?
          | context [match ?c with _ => _ end] => destruct c eqn:?
          end).

(** X13. An accepted step.  When a pass accepts the trial iterate, the
    radius is multiplied by [increase_factor] if the norm of the direction
    is at least [radius - activity_tolerance] (the trust region is active),
    and is unchanged otherwise; the direction that was tested is the one
    returned by [rectify_active_set] for the radius of the pass, and the
    pass has incremented the counter of iterations. *)
Theorem accepted_step_radius (m m' : Machine World) (trial_iterate : Iterate)
    (direction : Direction) :
  try_block m = (m', Returned (AcceptedStep trial_iterate direction)) ->
  radius (this m') =
    (if Qle_bool (radius (this m) - activity_tolerance (this m)) (norm direction)
     then radius (this m) * increase_factor (this m)
     else radius (this m)) /\
  (exists computed,
     rectify_active_set computed (radius (this m)) = Returned direction) /\
  number_iterations (this m') = S (number_iterations (this m)).
Proof.
  unfold try_block, bind, call, assert, pure, get, put, ret, add_statistics,
    check_unboundedness.
  intros E. destruct m as [tr w0]. simpl in E.
  destruct (Qlt_bool 0 (radius tr)) eqn:R; [|discriminate].
  simpl in E.
  destruct (snd (create_current_subproblem w0 (radius tr))); try discriminate.
  simpl in E.
  destruct (snd (compute_feasible_direction _)) as [computed| |]; try discriminate.
  simpl in E.
  destruct (negb (Status_eqb (status computed) UNBOUNDED_PROBLEM)); try discriminate.
  simpl in E.
  destruct (rectify_active_set computed (radius tr)) as [rectified| |] eqn:Rect;
    try discriminate.
  run_try E; inversion E; subst; simpl; repeat split; eauto;
    match goal with Hb : Qle_bool _ _ = _ |- _ => now rewrite Hb end.
Qed.

Lemma iteration_counts (m m' : Machine World) (r : option Result) :
  iteration m = (m', r) -> 0 < radius (this m) ->
  number_iterations (this m') = S (number_iterations (this m)).
Proof.
  unfold iteration. destruct (try_block m) as [m1 o] eqn:E. intros I R.
  pose proof (try_block_counts m E R) as C.
  destruct o as [[trial d|d]|[what|what]|a]; injection I as <- _; exact C.
Qed.

Lemma loop_counts (fuel : nat) (m m' : Machine World) (result : Result) :
  0 < min_radius (this m) ->
  loop fuel m = Some (m', result) ->
  exists k,
    (k < fuel)%nat /\
    match result with
    | RuntimeError _ =>
        number_iterations (this m') = (number_iterations (this m) + k)%nat /\
        termination (this m') = true /\
        match k with
        | O => m' = m
        | S j => exists mj, entry j m = Some mj /\ iteration mj = (m', None)
        end
    | _ =>
        exists mk,
          entry k m = Some mk /\ iteration mk = (m', Some result) /\
          number_iterations (this mk) = (number_iterations (this m) + k)%nat /\
          number_iterations (this m') = S (number_iterations (this m) + k)
    end.
Proof.
  revert m. induction fuel as [|fuel IH]; intros m Hmin; [discriminate|].
  rewrite loop_succ. destruct (termination (this m)) eqn:T.
  - intros [= <- <-]. exists 0%nat. split; [lia|].
    unfold after_loop. destruct (Qlt_bool _ _); (split; [lia|split; [exact T|reflexivity]]).
  - assert (R : 0 < radius (this m)).
    { apply termination_false_iff in T. lra. }
    destruct (iteration m) as [m1 [r|]] eqn:I.
    + intros [= <- <-]. exists 0%nat. split; [lia|].
      pose proof (iteration_counts m I R) as C.
      destruct (iteration_spec m I) as [_ Hs].
      assert (E0 : entry 0 m = Some m) by (simpl; now rewrite T).
      destruct r; try contradiction; exists m; rewrite Nat.add_0_r; auto.
    + intros L. pose proof (iteration_counts m I R) as C.
      destruct (iteration_spec m I) as [(_ & _ & _ & Pm) _].
      destruct (IH m1) with (2 := L) as (k & Hk & Hres); [now rewrite Pm|].
      exists (S k). split; [lia|].
      assert (En : entry (S k) m = entry k m1) by (rewrite entry_succ; now rewrite T, I).
      rewrite C in Hres.
      destruct result; try (destruct Hres as (mk & He & Hi & Hc1 & Hc2);
                            exists mk; rewrite En; repeat split; auto; lia).
      destruct Hres as (Hc & Ht & Hp). split; [lia|]. split; [exact Ht|].
      destruct k as [|j].
      * subst m'. exists m. split; [simpl; now rewrite T|exact I].
      * destruct Hp as (mj & Ej & Ij). exists mj. split; [|exact Ij].
        rewrite entry_succ. now rewrite T, I.
Qed.

(** X14. [number_iterations] counts the passes through the body of the
    loop, for [min_radius > 0]: it is [k] at the entry of pass number [k]
    (from 0); when the call ends in a pass, by returning an accepted iterate
    or by an exception or assertion of that pass, it is the number of passes
    made, this one included; when the call ends after the loop with the
    error on the radius, the test of the loop has stopped it at the machine
    returned, and the counter is the number [k] of passes made: for [k = 0]
    nothing was done, and otherwise pass number [k - 1] was entered, after
    [k - 1] passes that were rejected steps or numerical errors, and was
    one itself. *)
Theorem number_iterations_counts_passes (m : Machine World) :
  0 < min_radius (this m) ->
  let m0 := mkMachine (set_number_iterations (this m) 0) (world m) in
  (forall k mk, entry k m0 = Some mk -> number_iterations (this mk) = k) /\
  (forall fuel m' result,
     compute_acceptable_iterate fuel m = Some (m', result) ->
     exists k,
       (k < fuel)%nat /\
       match result with
       | RuntimeError _ =>
           number_iterations (this m') = k /\
           termination (this m') = true /\
           match k with
           | O => m' = m0
           | S j => exists mj, entry j m0 = Some mj /\ iteration mj = (m', None)
           end
       | _ =>
           exists mk,
             entry k m0 = Some mk /\ iteration mk = (m', Some result) /\
             number_iterations (this m') = S k
       end).
Proof.
  intros Hmin m0. split.
  - intros k. assert (G : forall (m1 mk : Machine World),
        0 < min_radius (this m1) -> entry k m1 = Some mk ->
        number_iterations (this mk) = (number_iterations (this m1) + k)%nat).
    { induction k as [|k IH]; intros m1 mk Hm.
      - simpl. destruct (termination (this m1)); [discriminate|].
        intros [= <-]. lia.
      - rewrite entry_succ. destruct (termination (this m1)) eqn:T; [discriminate|].
        destruct (iteration m1) as [m2 [r|]] eqn:I; [discriminate|].
        intros E.
        assert (R : 0 < radius (this m1)) by (apply termination_false_iff in T; lra).
        destruct (iteration_spec m1 I) as [(_ & _ & _ & Pm) _].
        rewrite (IH m2 mk) by (auto; now rewrite Pm).
        rewrite (iteration_counts m1 I R). lia. }
    intros mk E. now rewrite (G m0 mk Hmin E).
  - intros fuel m' result L. unfold compute_acceptable_iterate in L. fold m0 in L.
    destruct (loop_counts fuel m0 Hmin L) as (k & Hk & Hres).
    exists k. split; [exact Hk|].
    destruct result; try (destruct Hres as (mk & He & Hi & _ & Hc); exists mk; auto).
    exact Hres.
Qed.

End Passes.

(** The accepted step of the scenario: radius 1/8, step of norm 1/8, on the
    boundary of the trust region: the radius is doubled. *)
Lemma accepted_step_radius_witness :
  exists m' trial_iterate direction,
    try_block (toy_machine (1 # 8)) = (m', Returned (AcceptedStep trial_iterate direction)) /\
    radius (this m') = (1 # 8) * 2.
Proof.
  destruct (try_block (toy_machine (1 # 8))) as [m' [[trial_iterate direction|]| |]] eqn:E;
    try (vm_compute in E; discriminate).
  exists m', trial_iterate, direction. split; [reflexivity|].
  destruct (accepted_step_radius (toy_machine (1 # 8)) E) as (Hr & _).
  rewrite Hr. vm_compute in E. injection E as _ _ <-. reflexivity.
Defined.

(** The scenario from radius 10: the iterate is accepted in the seventh
    pass. *)
Lemma number_iterations_counts_passes_witness :
  exists m' trial_iterate n,
    compute_acceptable_iterate 20 (toy_machine 10)
      = Some (m', ReturnedIterate trial_iterate n) /\
    exists k, number_iterations (this m') = S k.
Proof.
  destruct (compute_acceptable_iterate 20 (toy_machine 10))
    as [[m' [trial_iterate n| | |]]|] eqn:E; try (vm_compute in E; discriminate).
  exists m', trial_iterate, n. split; [reflexivity|].
  destruct (number_iterations_counts_passes (toy_machine 10)
              (eq_refl : 0 < min_radius (this (toy_machine 10)))) as [_ H].
  destruct (H 20%nat m' _ E) as (k & _ & mk & _ & _ & Hc).
  exists k. exact Hc.
Defined.

End TrustRegion_facts.

(** ** l1 relaxation *)

Module L1_facts.
Import Base L1.

(** C3, as amended.  For a step length different from 1,
    [compute_predicted_reduction] returns (current constraint violation -
    linearized constraint violation at [alpha]) + the subproblem model
    reduction at [alpha], the linearized violation being computed
    constraint-wise from [c(x) + alpha * grad c . d]; at the full step
    [alpha = 1] it returns the current constraint violation + the subproblem
    model reduction at 1, and the linearized violation is not subtracted. *)
Theorem compute_predicted_reduction_spec (problem : Problem) (current_iterate : Iterate)
    (direction : Direction) (predicted_reduction_model : Q -> Q) (alpha : Q) :
  (~ alpha == 1 ->
     compute_predicted_reduction problem current_iterate direction
                                 predicted_reduction_model alpha
     = spec_predicted_reduction problem current_iterate direction
                                predicted_reduction_model alpha) /\
  (alpha == 1 ->
     compute_predicted_reduction problem current_iterate direction
                                 predicted_reduction_model alpha
     = errors_constraints current_iterate + predicted_reduction_model alpha) /\
  (alpha == 1 ->
     compute_predicted_reduction problem current_iterate direction
                                 predicted_reduction_model alpha
     == spec_predicted_reduction problem current_iterate direction
                                 predicted_reduction_model alpha
        + spec_linearized_violation problem current_iterate direction alpha).
Proof.
  unfold compute_predicted_reduction, spec_predicted_reduction, spec_linearized_violation.
  split; [|split]; intros Ha.
  - destruct (Qeq_bool alpha 1) eqn:E; [|reflexivity].
    apply Qeq_bool_iff in E. contradiction.
  - apply Qeq_bool_iff in Ha. now rewrite Ha.
  - apply Qeq_bool_iff in Ha. rewrite Ha. ring.
Qed.

(** At the full step the claimed formula fails: in the scenario the current
    violation is 3 and the linearized violation of the step [d = 1] is 2;
    the code returns [3 + model(1)], the formula gives [1 + model(1)]. *)
Lemma full_step_omits_linearized_violation :
  let direction := toy_direction 0 in
  let model := toy_model direction in
  spec_linearized_violation toy_problem toy_iterate direction 1 == 2 /\
  compute_predicted_reduction toy_problem toy_iterate direction model 1 == 3 + model 1 /\
  spec_predicted_reduction toy_problem toy_iterate direction model 1 == 1 + model 1 /\
  ~ compute_predicted_reduction toy_problem toy_iterate direction model 1
    == spec_predicted_reduction toy_problem toy_iterate direction model 1.
Proof.
  repeat split; try (vm_compute; reflexivity).
  intro E. vm_compute in E. discriminate.
Qed.

Example half_step_predicted_reduction :
  let direction := toy_direction 0 in
  compute_predicted_reduction toy_problem toy_iterate direction (toy_model direction) (1 # 2)
  == (3 - (5 # 2)) + toy_model direction (1 # 2).
Proof. vm_compute. reflexivity. Qed.

(** The half step of the scenario follows the formula of the
    specification. *)
Lemma compute_predicted_reduction_witness :
  let direction := toy_direction 0 in
  compute_predicted_reduction toy_problem toy_iterate direction (toy_model direction) (1 # 2)
  = spec_predicted_reduction toy_problem toy_iterate direction (toy_model direction) (1 # 2).
Proof.
  intros direction.
  apply (proj1 (compute_predicted_reduction_spec toy_problem toy_iterate direction
                  (toy_model direction) (1 # 2))).
  intro E. vm_compute in E. discriminate.
Defined.

Section Strategy.
Context {Sub G : Type} {subproblem_interface : Subproblem Sub}
        {strategy_interface : GlobalizationStrategy G}.

(** C10. For a direction whose norm equals 0, [is_acceptable] returns
    [true]; the only calls it makes are, when the definition of the
    subproblem has changed, the reset of the globalization strategy and the
    progress measures of the current iterate, and then the optimality
    conditions of the trial iterate for the objective multiplier of the
    direction: neither [check_acceptance] nor [compute_predicted_reduction]
    is called.  The penalty parameter is added to the statistics. *)
Theorem null_step_accepted (problem : Problem) (m : Machine Sub G)
    (direction : Direction) (predicted_reduction_model : Q -> Q) (step_length : Q) :
  norm direction == 0 ->
  exists m' events,
    is_acceptable problem direction predicted_reduction_model step_length m
      = (m', Returned true) /\
    history m' = history m ++ events /\
    events =
      (if subproblem_definition_changed (subproblem (this m))
       then [ev_reset; ev_compute_progress_measures Current] else [])
      ++ [ev_compute_optimality_conditions Trial (objective_multiplier direction)] /\
    Forall (fun e => is_check_acceptance e = false
                     /\ is_compute_predicted_reduction e = false) events /\
    statistics m' = statistics m ++ [("penalty param."%string, penalty_parameter (this m))] /\
    trial_iterate m' =
      compute_optimality_conditions (trial_iterate m) (objective_multiplier direction) /\
    penalty_parameter (this m') = penalty_parameter (this m) /\
    globalization_strategy (this m') =
      (if subproblem_definition_changed (subproblem (this m))
       then reset (globalization_strategy (this m))
       else globalization_strategy (this m)).
Proof.
  intros Hn. apply Qeq_bool_iff in Hn.
  unfold is_acceptable, bind, get. rewrite Hn.
  destruct (subproblem_definition_changed (subproblem (this m))) eqn:C;
    cbn; rewrite ?C; cbn;
    (eexists; eexists; split; [reflexivity|]); cbn; rewrite <- ?app_assoc; cbn;
    repeat split; auto.
Qed.

End Strategy.

(** The null step in the scenario, after a change of the subproblem. *)
Lemma null_step_witness :
  exists m' events,
    is_acceptable toy_problem null_direction (toy_model null_direction) 1
                  (toy_machine 1 (1 # 2) true)
      = (m', Returned true) /\
    history m' = events /\
    events = [ev_reset; ev_compute_progress_measures Current;
              ev_compute_optimality_conditions Trial 1] /\
    statistics m' = [("penalty param."%string, 1)].
Proof.
  destruct (null_step_accepted toy_problem (toy_machine 1 (1 # 2) true)
              null_direction (toy_model null_direction) 1 (Qeq_refl 0))
    as (m' & events & E & Hh & He & _ & Hs & _).
  exists m', events. repeat split; assumption.
Defined.

(** A step of norm 1 in the same scenario goes through the globalization
    strategy. *)
Example nonnull_step_checked :
  history (fst (is_acceptable toy_problem (toy_direction 0) (toy_model (toy_direction 0)) 1
                              (toy_machine 1 (1 # 2) false)))
  = [ev_compute_progress_measures Trial; ev_compute_predicted_reduction 1;
     ev_check_acceptance 1 (3 + toy_model (toy_direction 0) 1);
     ev_compute_optimality_conditions Trial 0].
Proof. reflexivity. Qed.

Section Steering.
Context {Sub G : Type} {subproblem_interface : Subproblem Sub}
        {strategy_interface : GlobalizationStrategy G}.

Lemma assigned_penalties_app (l1 l2 : list Event) :
  assigned_penalties (l1 ++ l2) = assigned_penalties l1 ++ assigned_penalties l2.
Proof.
  induction l1 as [|e l1 IH]; simpl; [reflexivity|].
  destruct e; simpl; now rewrite ?IH.
Qed.

Lemma last_nonempty (c : Q) (l : list Q) (a b : Q) : last (c :: l) a = last (c :: l) b.
Proof.
  revert c. induction l as [|d l IH]; intros c; [reflexivity|].
  change (last (d :: l) a = last (d :: l) b). apply IH.
Qed.

Lemma last_cons_default (b : Q) (l : list Q) (a : Q) : last (b :: l) a = last l b.
Proof.
  destruct l as [|c l]; [reflexivity|].
  change (last (c :: l) a = last (c :: l) b). apply last_nonempty.
Qed.

Lemma last_app_default (l1 l2 : list Q) (a : Q) :
  last (l1 ++ l2) a = last l2 (last l1 a).
Proof.
  revert a. induction l1 as [|b l1 IH]; intros a; [reflexivity|].
  rewrite <- app_comm_cons, !last_cons_default. apply IH.
Qed.

Lemma chain_app (R : Q -> Q -> Prop) (a : Q) (l1 l2 : list Q) :
  chain R a l1 -> chain R (last l1 a) l2 -> chain R a (l1 ++ l2).
Proof.
  revert a. induction l1 as [|b l1 IH]; intros a H1 H2; [exact H2|].
  destruct H1 as [Hab H1]. split; [exact Hab|].
  apply IH; [exact H1|]. now rewrite last_cons_default in H2.
Qed.

Lemma chain_weaken (R R' : Q -> Q -> Prop) (a : Q) (l : list Q) :
  (forall u v, R u v -> R' u v) -> chain R a l -> chain R' a l.
Proof.
  intros HR. revert a. induction l as [|b l IH]; intros a; simpl; [auto|].
  intros [Hab Hl]. split; auto.
Qed.

(** Along a chain of decreasing updates the parameter stays between 0 and
    its first value. *)
Lemma chain_last_bounds (df a : Q) (l : list Q) :
  0 <= a -> chain (decreasing_update df) a l -> 0 <= last l a <= a.
Proof.
  revert a. induction l as [|b l IH]; intros a Ha Hc.
  - simpl. split; [exact Ha|apply Qle_refl].
  - destruct Hc as [(Hb & Hba & _) Hc]. rewrite last_cons_default.
    destruct (IH b Hb Hc) as [H0 H1]. split; [exact H0|].
    eapply Qle_trans; eassumption.
Qed.

Lemma updates_refl (m : Machine Sub G) : updates m m [].
Proof.
  exists []. rewrite app_nil_r. repeat split; auto.
Qed.

Lemma updates_trans (m m1 m2 : Machine Sub G) (l1 l2 : list Q) :
  updates m m1 l1 -> updates m1 m2 l2 -> updates m m2 (l1 ++ l2).
Proof.
  intros (e1 & Hh1 & Ha1 & Hr1 & Hp1 & Hg1 & Hq1 & Ht1 & He1)
         (e2 & Hh2 & Ha2 & Hr2 & Hp2 & Hg2 & Hq2 & Ht2 & He2).
  exists (e1 ++ e2). rewrite Hh2, Hh1, app_assoc, assigned_penalties_app, Ha1, Ha2.
  rewrite last_app_default, <- Hp1, <- Hp2.
  repeat split; try congruence.
  intros Hi. apply in_app_or in Hi. tauto.
Qed.

Lemma updates_quiet_l (m m1 m2 : Machine Sub G) (l : list Q) :
  updates m m1 [] -> updates m1 m2 l -> updates m m2 l.
Proof. intros H1 H2. apply (updates_trans H1 H2). Qed.

Lemma updates_quiet_r (m m1 m2 : Machine Sub G) (l : list Q) :
  updates m m1 l -> updates m1 m2 [] -> updates m m2 l.
Proof.
  intros H1 H2. rewrite <- (app_nil_r l). apply (updates_trans H1 H2).
Qed.

(** How a sequence of two computations ends. *)
Lemma bind_inv (A B : Type) (c : M (Sub := Sub) (G := G) A) (k : A -> M B)
    (m m' : Machine Sub G) (o : Outcome B) :
  bind c k m = (m', o) ->
  (exists a m1, c m = (m1, Returned a) /\ k a m1 = (m', o)) \/
  (exists o1, c m = (m', o1) /\ (forall a, o1 <> Returned a) /\ (forall b, o <> Returned b)).
Proof.
  unfold bind. destruct (c m) as [m1 [a|e|s]]; intros E.
  - left. eauto.
  - right. injection E as <- <-. eexists. repeat split; intros; discriminate.
  - right. injection E as <- <-. eexists. repeat split; intros; discriminate.
Qed.

Lemma Quiet_bind (A B : Type) (c : M (Sub := Sub) (G := G) A) (k : A -> M B) :
  Quiet c -> (forall a, Quiet (k a)) -> Quiet (bind c k).
Proof.
  intros Hc Hk m m' o E. destruct (bind_inv _ _ _ E) as [(a & m1 & E1 & E2)|(o1 & E1 & _)].
  - apply (updates_quiet_l (Hc _ _ _ E1) (Hk _ _ _ _ E2)).
  - apply (Hc _ _ _ E1).
Qed.

Lemma Quiet_ret (A : Type) (a : A) : Quiet (ret (St := Machine Sub G) a).
Proof. intros m m' o [= <- <-]. apply updates_refl. Qed.

Lemma Quiet_get : Quiet (get (Sub := Sub) (G := G)).
Proof. intros m m' o [= <- <-]. apply updates_refl. Qed.

Lemma Quiet_assert (b : bool) (s : string) : Quiet (assert (St := Machine Sub G) b s).
Proof. intros m m' o [= <- <-]. apply updates_refl. Qed.

Lemma Quiet_put_subproblem (s : Sub) : Quiet (put_subproblem (G := G) s).
Proof. intros m m' o [= <- <-]. exists []. simpl. rewrite app_nil_r. repeat split; auto. Qed.

Lemma Quiet_put_iterate (w : Which) (i : Iterate) : Quiet (put_iterate (Sub := Sub) (G := G) w i).
Proof.
  intros m m' o [= <- <-]. exists []. destruct w; simpl; rewrite app_nil_r; repeat split; auto.
Qed.

Lemma Quiet_log (e : Event) :
  assigned_penalties [e] = [] -> e <> ev_reset -> Quiet (log (Sub := Sub) (G := G) e).
Proof.
  intros He Hr m m' o [= <- <-]. exists [e]. simpl. repeat split; auto.
  intros [E|[]]. congruence.
Qed.

Ltac quiet :=
  repeat first
    [ apply Quiet_ret | apply Quiet_get | apply Quiet_assert | apply Quiet_put_subproblem
    | apply Quiet_put_iterate | apply Quiet_log; [reflexivity|discriminate]
    | apply Quiet_bind; [|intro]
    | match goal with
      | |- Quiet (let '(_, _) := ?c in _) => destruct c
      end ].

Lemma Quiet_subproblem_solve : Quiet (subproblem_solve (Sub := Sub) (G := G)).
Proof.
  unfold subproblem_solve. apply Quiet_bind; [apply Quiet_get|intros m].
  destruct (solve (subproblem (this m)) (current_iterate m)) as [[s i] d]. quiet.
Qed.

Lemma Quiet_remove_elastic_variables : Quiet (remove_elastic_variables (Sub := Sub) (G := G)).
Proof. unfold remove_elastic_variables. quiet. Qed.

Lemma Quiet_solve_subproblem : Quiet (solve_subproblem (Sub := Sub) (G := G)).
Proof.
  unfold solve_subproblem.
  apply Quiet_bind; [apply Quiet_subproblem_solve|intros d].
  apply Quiet_bind; [apply Quiet_assert|intros _].
  apply Quiet_bind; [apply Quiet_get|intros m].
  apply Quiet_bind; [apply Quiet_remove_elastic_variables|intros _]. apply Quiet_ret.
Qed.

Lemma Quiet_resolve_subproblem (objective_multiplier : Q) :
  Quiet (resolve_subproblem (Sub := Sub) (G := G) objective_multiplier).
Proof.
  unfold resolve_subproblem.
  apply Quiet_bind; [|intros _].
  { unfold subproblem_build_objective_model. apply Quiet_bind; [apply Quiet_get|intros m].
    destruct (build_objective_model _ _ _) as [s i]. quiet. }
  apply Quiet_bind; [unfold add_elastic_variables; quiet|intros _].
  apply Quiet_bind; [apply Quiet_subproblem_solve|intros d].
  apply Quiet_bind; [apply Quiet_assert|intros _].
  apply Quiet_bind; [apply Quiet_remove_elastic_variables|intros _]. apply Quiet_ret.
Qed.

Lemma Quiet_compute_error (problem : Problem) (displacements : Multipliers) (sigma : Q) :
  Quiet (compute_error (Sub := Sub) (G := G) problem displacements sigma).
Proof. unfold compute_error. quiet. Qed.

Lemma set_penalty_parameter_updates (v : Q) (m m' : Machine Sub G) (o : Outcome unit) :
  set_penalty_parameter v m = (m', o) -> o = Returned tt /\ updates m m' [v].
Proof.
  intros [= <- <-]. split; [reflexivity|].
  exists [ev_penalty_parameter v]. simpl. repeat split; auto.
  intros [E|[]]. discriminate.
Qed.

Lemma Qsquare_nonneg (t : Q) : 0 <= t * t.
Proof.
  destruct (Qlt_le_dec t 0) as [N|P].
  - setoid_replace (t * t) with ((- t) * (- t)) by ring.
    apply Qmult_le_0_compat; lra.
  - apply Qmult_le_0_compat; assumption.
Qed.

Lemma get_inv (m m0 m1 : Machine Sub G) :
  get m = (m1, Returned m0) -> m0 = m /\ m1 = m.
Proof. intros [= <- <-]. auto. Qed.

Lemma ret_inv (A : Type) (a : A) (m m' : Machine Sub G) (o : Outcome A) :
  ret a m = (m', o) -> m' = m /\ o = Returned a.
Proof. intros [= <- <-]. auto. Qed.

Lemma updates_penalty (m m' : Machine Sub G) :
  updates m m' [] -> penalty_parameter (this m') = penalty_parameter (this m).
Proof. intros (e & _ & _ & _ & Hp & _). exact Hp. Qed.

Lemma updates_parameters (m m' : Machine Sub G) (l : list Q) :
  updates m m' l ->
  parameters (this m') = parameters (this m) /\
  penalty_threshold (this m') = penalty_threshold (this m) /\
  elastic_variables (this m') = elastic_variables (this m) /\
  globalization_strategy (this m') = globalization_strategy (this m) /\
  penalty_parameter (this m') = last l (penalty_parameter (this m)).
Proof. intros (e & _ & _ & _ & Hp & Hg & Hq & Ht & He). auto. Qed.

(** The stages before the loop make at most one update, to 0 or to
    [min(sigma, t^2)]. *)
Lemma update_penalty_parameter_updates (problem : Problem)
    (d d0 : Direction) (r0 : Q) (m m' : Machine Sub G) (o : Outcome (Direction * bool)) :
  update_penalty_parameter problem d d0 r0 m = (m', o) ->
  0 < penalty_parameter (this m) ->
  exists l, updates m m' l /\
            chain (decreasing_update (decrease_factor (parameters (this m))))
                  (penalty_parameter (this m)) l.
Proof.
  unfold update_penalty_parameter. intros E Hpos.
  apply bind_inv in E. destruct E as [(m0 & m1 & Eg & E)|(o1 & Eg & Hn & _)];
    [|exfalso; injection Eg as _ <-; now apply (Hn m)].
  apply get_inv in Eg. destruct Eg as [-> ->].
  destruct (negb _).
  2:{ apply ret_inv in E. destruct E as [-> _]. exists []. split; [apply updates_refl|exact I]. }
  apply bind_inv in E. destruct E as [(err & m1 & Ec & E)|(o1 & Ec & _)];
    [|exists []; split; [apply (Quiet_compute_error Ec)|exact I]].
  pose proof (Quiet_compute_error Ec) as Q1.
  pose proof (updates_penalty Q1) as P1.
  destruct (Qeq_bool err 0).
  - apply bind_inv in E. destruct E as [([] & m2 & Es & E)|(o1 & Es & Hn & _)].
    + apply set_penalty_parameter_updates in Es. destruct Es as [_ U].
      apply ret_inv in E. destruct E as [-> _].
      exists [0]. split; [apply (updates_quiet_l Q1 U)|].
      split; [|exact I]. repeat split; [apply Qle_refl|now apply Qlt_le_weak|auto].
      right. right. reflexivity.
    + apply set_penalty_parameter_updates in Es. destruct Es as [-> _].
      exfalso. now apply (Hn tt).
  - apply bind_inv in E. destruct E as [(m0 & m2 & Eg & E)|(o1 & Eg & Hn & _)];
      [|exfalso; injection Eg as _ <-; now apply (Hn m1)].
    apply get_inv in Eg. destruct Eg as [-> ->].
    set (t := err / Qmax 1 (errors_constraints (current_iterate m1))) in *.
    assert (C : chain (decreasing_update (decrease_factor (parameters (this m))))
                      (penalty_parameter (this m))
                      [Qmin (penalty_parameter (this m1)) (t * t)]).
    { split; [|exact I]. rewrite P1. repeat split.
      - apply Q.min_glb; [now apply Qlt_le_weak|apply Qsquare_nonneg].
      - apply Q.le_min_l.
      - left. exists t. reflexivity. }
    apply bind_inv in E. destruct E as [([] & m2 & Es & E)|(o1 & Es & Hn & _)];
      [|apply set_penalty_parameter_updates in Es; destruct Es as [-> _];
        exfalso; now apply (Hn tt)].
    apply set_penalty_parameter_updates in Es. destruct Es as [_ U].
    pose proof (updates_quiet_l Q1 U) as U2.
    eexists. split; [|exact C].
    apply bind_inv in E. destruct E as [(m0 & m3 & Eg & E)|(o1 & Eg & Hn & _)];
      [|exfalso; injection Eg as _ <-; now apply (Hn m2)].
    apply get_inv in Eg. destruct Eg as [-> ->].
    apply bind_inv in E. destruct E as [(d' & m3 & Ed & E)|(o1 & Ed & _)].
    + apply ret_inv in E. destruct E as [-> _].
      apply (updates_quiet_r U2).
      destruct (Qlt_bool _ _); [destruct (Qeq_bool _ _)|].
      * apply (Quiet_ret Ed).
      * eapply Quiet_resolve_subproblem; exact Ed.
      * apply (Quiet_ret Ed).
    + apply (updates_quiet_r U2).
      destruct (Qlt_bool _ _); [destruct (Qeq_bool _ _)|].
      * apply (Quiet_ret Ed).
      * eapply Quiet_resolve_subproblem; exact Ed.
      * apply (Quiet_ret Ed).
Qed.

Lemma Qdiv_nonneg_le (a d : Q) : 0 <= a -> 1 <= d -> 0 <= a / d <= a.
Proof.
  intros Ha Hd. split.
  - apply Qle_shift_div_l; lra.
  - apply Qle_shift_div_r; [lra|].
    assert (0 <= a * (d - 1)) by (apply Qmult_le_0_compat; lra). lra.
Qed.

(** One pass of the loop makes no update, or divides the parameter by
    [decrease_factor] and then possibly sets it to 0. *)
Lemma steering_pass_updates (d0 : Direction) (r0 : Q) (d : Direction) (lr : Q) (c1 : bool)
    (m m' : Machine Sub G) (o : Outcome (Direction * Q * bool * bool)) :
  steering_pass d0 r0 d lr c1 m = (m', o) ->
  0 <= penalty_parameter (this m) ->
  1 <= decrease_factor (parameters (this m)) ->
  exists l, updates m m' l /\
            chain (decreasing_update (decrease_factor (parameters (this m))))
                  (penalty_parameter (this m)) l.
Proof.
  unfold steering_pass. intros E Hpos Hdf.
  apply bind_inv in E. destruct E as [(m0 & m1 & Eg & E)|(o1 & Eg & Hn & _)];
    [|exfalso; injection Eg as _ <-; now apply (Hn m)].
  apply get_inv in Eg. destruct Eg as [-> ->].
  destruct (steering_conditions d0 r0 d lr c1 m) as [c1' c2].
  destruct (negb _).
  2:{ apply ret_inv in E. destruct E as [-> _]. exists []. split; [apply updates_refl|exact I]. }
  set (sigma := penalty_parameter (this m)) in *.
  set (df := decrease_factor (parameters (this m))) in *.
  destruct (Qdiv_nonneg_le Hpos Hdf) as [Hq0 Hq1].
  assert (D : decreasing_update df sigma (sigma / df)).
  { repeat split; auto. right. left. reflexivity. }
  apply bind_inv in E. destruct E as [([] & m1 & Es & E)|(o1 & Es & Hn & _)];
    [|apply set_penalty_parameter_updates in Es; destruct Es as [-> _];
      exfalso; now apply (Hn tt)].
  apply set_penalty_parameter_updates in Es. destruct Es as [_ U].
  apply bind_inv in E. destruct E as [(m0 & m2 & Eg & E)|(o1 & Eg & Hn & _)];
    [|exfalso; injection Eg as _ <-; now apply (Hn m1)].
  apply get_inv in Eg. destruct Eg as [-> ->].
  destruct (Qlt_bool _ _).
  - apply bind_inv in E. destruct E as [([] & m2 & Es & E)|(o1 & Es & Hn & _)];
      [|apply set_penalty_parameter_updates in Es; destruct Es as [-> _];
        exfalso; now apply (Hn tt)].
    apply set_penalty_parameter_updates in Es. destruct Es as [_ U0].
    apply ret_inv in E. destruct E as [-> _].
    exists [sigma / df; 0]. split; [apply (updates_trans U U0)|].
    split; [exact D|]. split; [|exact I].
    repeat split; [apply Qle_refl|exact Hq0|]. right. right. reflexivity.
  - exists [sigma / df]. split; [|split; [exact D|exact I]].
    apply bind_inv in E. destruct E as [(d' & m2 & Ed & E)|(o1 & Ed & _)].
    + apply bind_inv in E. destruct E as [(m0 & m3 & Eg & E)|(o1 & Eg & Hn & _)];
        [|exfalso; injection Eg as _ <-; now apply (Hn m2)].
      apply get_inv in Eg. destruct Eg as [-> ->].
      apply ret_inv in E. destruct E as [-> _].
      apply (updates_quiet_r U). eapply Quiet_resolve_subproblem; exact Ed.
    + apply (updates_quiet_r U). eapply Quiet_resolve_subproblem; exact Ed.
Qed.

Lemma steering_loop_updates (fuel : nat) (d0 : Direction) (r0 : Q) :
  forall (d : Direction) (lr : Q) (c1 : bool) (m m' : Machine Sub G) (o : Outcome Direction),
  steering_loop fuel d0 r0 d lr c1 m = Some (m', o) ->
  0 <= penalty_parameter (this m) ->
  1 <= decrease_factor (parameters (this m)) ->
  exists l, updates m m' l /\
            chain (decreasing_update (decrease_factor (parameters (this m))))
                  (penalty_parameter (this m)) l.
Proof.
  induction fuel as [|fuel IH]; intros d lr c1 m m' o E Hpos Hdf; [discriminate|].
  cbn [steering_loop] in E.
  destruct (steering_pass d0 r0 d lr c1 m) as [m1 o1] eqn:Ep.
  destruct (steering_pass_updates _ _ _ _ _ _ Ep Hpos Hdf) as (l1 & U1 & C1).
  destruct o1 as [[[[d' lr'] c1'] c2]|e|a];
    try (injection E as <- <-; exists l1; split; assumption).
  destruct c2; [injection E as <- <-; exists l1; split; assumption|].
  destruct (updates_parameters U1) as (Hp & _ & _ & _ & Hs).
  destruct (@chain_last_bounds _ _ _ Hpos C1) as [B0 B1].
  destruct (IH _ _ _ _ _ _ E) as (l2 & U2 & C2).
  - now rewrite Hs.
  - now rewrite Hp.
  - exists (l1 ++ l2). split; [apply (updates_trans U1 U2)|].
    apply chain_app; [exact C1|]. now rewrite <- Hs, <- Hp.
Qed.

Lemma lowest_violation_stage_updates (problem : Problem) (d : Direction)
    (m m' : Machine Sub G) (o : Outcome (Direction * Q * (Direction * bool))) :
  lowest_violation_stage problem d m = (m', o) ->
  0 < penalty_parameter (this m) ->
  exists l, updates m m' l /\
            chain (decreasing_update (decrease_factor (parameters (this m))))
                  (penalty_parameter (this m)) l.
Proof.
  unfold lowest_violation_stage. intros E Hpos.
  apply bind_inv in E. destruct E as [(d0 & m1 & Er & E)|(o1 & Er & _)].
  2:{ exists []. split; [eapply Quiet_resolve_subproblem; exact Er|exact I]. }
  assert (Q1 : updates m m1 []) by (eapply Quiet_resolve_subproblem; exact Er).
  destruct (updates_parameters Q1) as (Hp & _ & _ & _ & Hs). simpl in Hs.
  apply bind_inv in E. destruct E as [(m0 & m2 & Eg & E)|(o1 & Eg & Hn & _)];
    [|exfalso; injection Eg as _ <-; now apply (Hn m1)].
  apply get_inv in Eg. destruct Eg as [-> ->].
  apply bind_inv in E. destruct E as [(u & m2 & Eu & E)|(o1 & Eu & _)].
  - apply ret_inv in E. destruct E as [-> _].
    apply update_penalty_parameter_updates in Eu; [|now rewrite Hs].
    destruct Eu as (l & U & C). exists l. split; [apply (updates_quiet_l Q1 U)|].
    now rewrite <- Hp, <- Hs.
  - apply update_penalty_parameter_updates in Eu; [|now rewrite Hs].
    destruct Eu as (l & U & C). exists l. split; [apply (updates_quiet_l Q1 U)|].
    now rewrite <- Hp, <- Hs.
Qed.

Lemma relaxed_stages_updates (fuel : nat) (problem : Problem) (d : Direction) (lr : Q)
    (m m' : Machine Sub G) (o : Outcome Direction) :
  relaxed_stages fuel problem d lr m = Some (m', o) ->
  0 < penalty_parameter (this m) ->
  1 <= decrease_factor (parameters (this m)) ->
  exists l, updates m m' l /\
            chain (decreasing_update (decrease_factor (parameters (this m))))
                  (penalty_parameter (this m)) l.
Proof.
  unfold relaxed_stages. intros E Hpos Hdf.
  destruct (lowest_violation_stage problem d m) as [m1 o1] eqn:E1.
  destruct (lowest_violation_stage_updates _ _ _ E1 Hpos) as (l1 & U1 & C1).
  destruct o1 as [[[d0 r0] [d1 run_loop]]|e|a];
    try (injection E as <- <-; exists l1; split; assumption).
  destruct run_loop; [|injection E as <- <-; exists l1; split; assumption].
  destruct (updates_parameters U1) as (Hp & _ & _ & _ & Hs).
  destruct (@chain_last_bounds _ _ _ (Qlt_le_weak _ _ Hpos) C1) as [B0 B1].
  apply steering_loop_updates in E; [|now rewrite Hs|now rewrite Hp].
  destruct E as (l2 & U2 & C2).
  exists (l1 ++ l2). split; [apply (updates_trans U1 U2)|].
  apply chain_app; [exact C1|]. now rewrite <- Hs, <- Hp.
Qed.

Lemma Qlt_bool_irrefl (q : Q) : Qlt_bool q q = false.
Proof. apply Qlt_bool_false_iff, Qle_refl. Qed.

(** The summary of a run of updates that is not followed by a reset. *)
Lemma summary_without_reset (m m' : Machine Sub G) (o : Outcome Direction) (l : list Q) :
  updates m m' l ->
  l = [] \/ 0 < penalty_parameter (this m) ->
  chain (decreasing_update (decrease_factor (parameters (this m))))
        (penalty_parameter (this m)) l ->
  (forall d, o = Returned d ->
     Qlt_bool (penalty_parameter (this m')) (penalty_parameter (this m)) = false) ->
  steering_summary m m' o.
Proof.
  intros (events & Hh & Ha & Hr & Hp & Hg & _) Hl C Hret.
  exists events. rewrite Ha.
  split; [exact Hh|]. split; [|split; [|split; [exact Hp|split]]].
  - eapply chain_weaken; [|exact C]. intros u v (_ & _ & K). exact K.
  - eapply chain_weaken; [|exact C]. intros u v (_ & K & _). exact K.
  - rewrite Hp. destruct Hl as [->|Hpos]; [apply Qle_refl|].
    apply (@chain_last_bounds _ _ l (Qlt_le_weak _ _ Hpos) C).
  - intros d Ho. rewrite (Hret d Ho). split; assumption.
Qed.

(** The summary of a run of updates followed by the reset. *)
Lemma summary_with_reset (m m2 m' : Machine Sub G) (d : Direction) (l : list Q) :
  updates m m2 l ->
  0 < penalty_parameter (this m) ->
  chain (decreasing_update (decrease_factor (parameters (this m))))
        (penalty_parameter (this m)) l ->
  Qlt_bool (penalty_parameter (this m2)) (penalty_parameter (this m)) = true ->
  strategy_reset m2 = (m', Returned tt) ->
  steering_summary m m' (Returned d).
Proof.
  intros (events & Hh & Ha & Hr & Hp & Hg & _) Hpos C L Er.
  injection Er as <-.
  exists (events ++ [ev_reset]). simpl.
  rewrite assigned_penalties_app, Ha, app_nil_r, Hh, app_assoc, L.
  split; [reflexivity|]. split; [|split; [|split; [exact Hp|split]]].
  - eapply chain_weaken; [|exact C]. intros u v (_ & _ & K). exact K.
  - eapply chain_weaken; [|exact C]. intros u v (_ & K & _). exact K.
  - rewrite Hp. apply (@chain_last_bounds _ _ l (Qlt_le_weak _ _ Hpos) C).
  - intros d' _. split; [now rewrite Hg|].
    exists events. split; [reflexivity|exact Hr].
Qed.

(** C5. Within one call of [solve_with_steering_rule], for
    [decrease_factor >= 1]: every assignment to the penalty parameter
    replaces its value [u] by [min(u, t^2)] for some [t], by
    [u / decrease_factor] or by 0; none increases it; its value at exit is
    the last value assigned and is at most its value at entry; and when the
    call returns with a value strictly smaller than at entry, the
    globalization strategy has been reset, as the last action of the call
    (it is left alone otherwise). *)
Theorem penalty_parameter_never_increases (fuel : nat) (problem : Problem)
    (m m' : Machine Sub G) (o : Outcome Direction) :
  1 <= decrease_factor (parameters (this m)) ->
  solve_with_steering_rule fuel problem m = Some (m', o) ->
  let sigma := penalty_parameter (this m) in
  let df := decrease_factor (parameters (this m)) in
  exists events,
    history m' = history m ++ events /\
    chain (penalty_update df) sigma (assigned_penalties events) /\
    chain (fun u v => v <= u) sigma (assigned_penalties events) /\
    penalty_parameter (this m') = last (assigned_penalties events) sigma /\
    penalty_parameter (this m') <= sigma /\
    (forall d, o = Returned d ->
       if Qlt_bool (penalty_parameter (this m')) sigma
       then globalization_strategy (this m') = reset (globalization_strategy (this m)) /\
            exists before, events = before ++ [ev_reset] /\ ~ In ev_reset before
       else globalization_strategy (this m') = globalization_strategy (this m) /\
            ~ In ev_reset events).
Proof.
  intros Hdf E. change (steering_summary m m' o).
  unfold solve_with_steering_rule in E.
  destruct (solve_subproblem m) as [m1 o1] eqn:E1.
  assert (Q1 : updates m m1 []) by (eapply Quiet_solve_subproblem; exact E1).
  destruct (updates_parameters Q1) as (Hp & _ & _ & _ & Hs). simpl in Hs.
  assert (Early : forall o', steering_summary m m1 o').
  { intros o'. apply (summary_without_reset Q1); [now left|exact I|].
    intros _ _. rewrite Hs. apply Qlt_bool_irrefl. }
  destruct o1 as [d1|e|a]; try (injection E as <- <-; apply Early).
  destruct (Qlt_bool 0 (penalty_parameter (this m1))) eqn:Pos;
    [|injection E as <- <-; apply Early].
  cbv zeta in E.
  destruct (negb _); [|injection E as <- <-; apply Early].
  apply Qlt_bool_iff in Pos.
  destruct (relaxed_stages fuel problem d1 _ m1) as [[m2 o2]|] eqn:E2; [|discriminate].
  apply relaxed_stages_updates in E2; [|exact Pos|now rewrite Hp].
  destruct E2 as (l & U2 & C2). rewrite Hp, Hs in C2.
  pose proof (updates_quiet_l Q1 U2) as U. rewrite Hs in Pos.
  destruct o2 as [d2|e|a].
  - injection E as E. unfold reset_if_decreased, bind, get in E.
    rewrite Hs in E.
    destruct (Qlt_bool (penalty_parameter (this m2)) (penalty_parameter (this m))) eqn:L.
    + destruct (strategy_reset m2) as [m3 o3] eqn:Er.
      assert (o3 = Returned tt) as -> by (injection Er as _ <-; reflexivity).
      injection E as <- <-. apply (summary_with_reset d2 U Pos C2 L Er).
    + injection E as <- <-. apply (summary_without_reset U); auto.
  - injection E as <- <-. apply (summary_without_reset U); auto. intros; discriminate.
  - injection E as <- <-. apply (summary_without_reset U); auto. intros; discriminate.
Qed.

(** The exit of the loop on the threshold: when the conditions fail and the
    divided parameter falls below the threshold, the parameter is set to 0
    and the pass ends the loop with the direction it was given, whatever the
    direction of lowest violation. *)
Lemma steering_pass_threshold (d0 : Direction) (r0 : Q) (d : Direction) (lr : Q) (c1 : bool)
    (m : Machine Sub G) :
  snd (steering_conditions d0 r0 d lr c1 m) = false ->
  penalty_parameter (this m) / decrease_factor (parameters (this m))
    < penalty_threshold (this m) ->
  exists m',
    steering_pass d0 r0 d lr c1 m
      = (m', Returned (d, lr, fst (steering_conditions d0 r0 d lr c1 m), true)) /\
    penalty_parameter (this m') = 0 /\
    history m' = history m
                 ++ [ev_penalty_parameter
                       (penalty_parameter (this m) / decrease_factor (parameters (this m)));
                     ev_penalty_parameter 0] /\
    forall fuel, steering_loop (S fuel) d0 r0 d lr c1 m = Some (m', Returned d).
Proof.
  intros Hc Ht. apply Qlt_bool_iff in Ht.
  assert (P : exists m',
             steering_pass d0 r0 d lr c1 m
               = (m', Returned (d, lr, fst (steering_conditions d0 r0 d lr c1 m), true)) /\
             penalty_parameter (this m') = 0 /\
             history m' = history m
                          ++ [ev_penalty_parameter
                                (penalty_parameter (this m)
                                 / decrease_factor (parameters (this m)));
                              ev_penalty_parameter 0]).
  { unfold steering_pass, bind, get.
    destruct (steering_conditions d0 r0 d lr c1 m) as [c1' c2] eqn:Ec.
    simpl in Hc. subst c2. cbn. rewrite Ht. cbn.
    eexists. split; [reflexivity|]. cbn. rewrite <- app_assoc. split; reflexivity. }
  destruct P as (m' & P & Hs & Hh). exists m'. repeat split; auto.
  intros fuel. cbn [steering_loop]. rewrite P. reflexivity.
Qed.

(** A pass after which the loop goes on has divided the parameter by
    [decrease_factor], and the quotient is not below the threshold. *)
Lemma steering_pass_continues (d0 : Direction) (r0 : Q) (d : Direction) (lr : Q) (c1 : bool)
    (m m' : Machine Sub G) (d' : Direction) (lr' : Q) (c1' : bool) :
  steering_pass d0 r0 d lr c1 m = (m', Returned (d', lr', c1', false)) ->
  penalty_parameter (this m')
    = penalty_parameter (this m) / decrease_factor (parameters (this m)) /\
  parameters (this m') = parameters (this m) /\
  penalty_threshold (this m') = penalty_threshold (this m) /\
  penalty_threshold (this m)
    <= penalty_parameter (this m) / decrease_factor (parameters (this m)).
Proof.
  unfold steering_pass. intros E.
  apply bind_inv in E. destruct E as [(m0 & m1 & Eg & E)|(o1 & _ & _ & Hn)];
    [|exfalso; now apply (Hn (d', lr', c1', false))].
  apply get_inv in Eg. destruct Eg as [-> ->].
  destruct (steering_conditions d0 r0 d lr c1 m) as [c1'' c2].
  destruct c2; cbn [negb] in E; [apply ret_inv in E; destruct E as [_ [=]]|].
  apply bind_inv in E. destruct E as [([] & m1 & Es & E)|(o1 & _ & _ & Hn)];
    [|exfalso; now apply (Hn (d', lr', c1', false))].
  apply set_penalty_parameter_updates in Es. destruct Es as [_ U].
  destruct (updates_parameters U) as (Hp & Ht & _ & _ & Hs). simpl in Hs.
  apply bind_inv in E. destruct E as [(m0 & m2 & Eg & E)|(o1 & _ & _ & Hn)];
    [|exfalso; now apply (Hn (d', lr', c1', false))].
  apply get_inv in Eg. destruct Eg as [-> ->].
  destruct (Qlt_bool (penalty_parameter (this m1)) (penalty_threshold (this m1))) eqn:L.
  - apply bind_inv in E. destruct E as [([] & m2 & _ & E)|(o1 & _ & _ & Hn)];
      [|exfalso; now apply (Hn (d', lr', c1', false))].
    apply ret_inv in E. destruct E as [_ [=]].
  - apply Qlt_bool_false_iff in L. rewrite Hs, Ht in L.
    apply bind_inv in E. destruct E as [(d2 & m2 & Ed & E)|(o1 & _ & _ & Hn)];
      [|exfalso; now apply (Hn (d', lr', c1', false))].
    assert (Q2 : updates m1 m2 []) by (eapply Quiet_resolve_subproblem; exact Ed).
    destruct (updates_parameters Q2) as (Hp2 & Ht2 & _ & _ & Hs2). simpl in Hs2.
    apply bind_inv in E. destruct E as [(m0 & m3 & Eg & E)|(o1 & _ & _ & Hn)];
      [|exfalso; now apply (Hn (d', lr', c1', false))].
    apply get_inv in Eg. destruct Eg as [-> ->].
    apply ret_inv in E. destruct E as [-> _].
    repeat split; congruence.
Qed.

(** The loop ends within [k + 1] passes when the parameter is below
    [penalty_threshold * decrease_factor^k]. *)
Lemma steering_loop_terminates (d0 : Direction) (r0 : Q) (k : nat) :
  forall (d : Direction) (lr : Q) (c1 : bool) (m : Machine Sub G),
  1 < decrease_factor (parameters (this m)) ->
  0 <= penalty_parameter (this m) ->
  penalty_parameter (this m)
    < penalty_threshold (this m) * Qpow (decrease_factor (parameters (this m))) k ->
  exists r, steering_loop (S k) d0 r0 d lr c1 m = Some r.
Proof.
  induction k as [|k IH]; intros d lr c1 m Hdf Hpos Hlt.
  - cbn [steering_loop].
    destruct (steering_pass d0 r0 d lr c1 m) as [m1 [[[[d' lr'] c1'] [|]]|e|a]] eqn:Ep;
      eauto.
    exfalso. apply steering_pass_continues in Ep. destruct Ep as (_ & _ & _ & Hge).
    destruct (Qdiv_nonneg_le Hpos (Qlt_le_weak _ _ Hdf)) as [_ Hq].
    simpl in Hlt.
    apply (Qlt_irrefl (penalty_threshold (this m))).
    eapply Qle_lt_trans; [exact Hge|]. eapply Qle_lt_trans; [exact Hq|].
    now rewrite Qmult_1_r in Hlt.
  - change (steering_loop (S (S k)) d0 r0 d lr c1 m)
      with (match steering_pass d0 r0 d lr c1 m with
            | (m, Returned (direction, linearized_residual, condition1, condition2)) =>
                if condition2 : bool then Some (m, Returned direction)
                else steering_loop (S k) d0 r0 direction linearized_residual condition1 m
            | (m, Thrown e) => Some (m, Thrown e)
            | (m, Aborted a) => Some (m, Aborted a)
            end).
    destruct (steering_pass d0 r0 d lr c1 m) as [m1 [[[[d' lr'] c1'] [|]]|e|a]] eqn:Ep;
      eauto.
    apply steering_pass_continues in Ep. destruct Ep as (Hs & Hp & Ht & _).
    destruct (Qdiv_nonneg_le Hpos (Qlt_le_weak _ _ Hdf)) as [Hq0 _].
    apply IH; rewrite ?Hp, ?Hs, ?Ht; auto.
    change (Qpow (decrease_factor (parameters (this m))) (S k))
      with (decrease_factor (parameters (this m))
            * Qpow (decrease_factor (parameters (this m))) k) in Hlt.
    apply Qlt_shift_div_r; [lra|].
    eapply Qlt_le_trans; [exact Hlt|]. apply Qle_lteq. right. ring.
Qed.

(** For [decrease_factor > 1] and a positive threshold, a call of
    [solve_with_steering_rule] ends: some number of passes is enough. *)
Lemma solve_with_steering_rule_terminates (problem : Problem) (m : Machine Sub G) :
  1 < decrease_factor (parameters (this m)) ->
  0 < penalty_threshold (this m) ->
  exists fuel m' o, solve_with_steering_rule fuel problem m = Some (m', o).
Proof.
  intros Hdf Hth. unfold solve_with_steering_rule.
  destruct (solve_subproblem m) as [m1 o1] eqn:E1.
  assert (Q1 : updates m m1 []) by (eapply Quiet_solve_subproblem; exact E1).
  destruct (updates_parameters Q1) as (Hp & Ht & _ & _ & Hs). simpl in Hs.
  destruct o1 as [d1|e|a]; [|exists 0%nat; eauto|exists 0%nat; eauto].
  destruct (Qlt_bool 0 (penalty_parameter (this m1))) eqn:Pos; [|exists 0%nat; eauto].
  cbv zeta. destruct (negb _); [|exists 0%nat; eauto].
  apply Qlt_bool_iff in Pos.
  unfold relaxed_stages.
  destruct (lowest_violation_stage problem d1 m1) as [m2 o2] eqn:E2.
  destruct (lowest_violation_stage_updates _ _ _ E2 Pos) as (l & U2 & C2).
  destruct (updates_parameters U2) as (Hp2 & Ht2 & _ & _ & Hs2).
  destruct (@chain_last_bounds _ _ _ (Qlt_le_weak _ _ Pos) C2) as [B0 _].
  rewrite <- Hs2 in B0.
  assert (Final : forall (m3 : Machine Sub G) (d : Direction),
             exists m' o,
               Some ((reset_if_decreased (penalty_parameter (this m1)) ;;; ret d)%monad m3)
               = Some (m', o)).
  { intros m3 d. destruct ((reset_if_decreased _ ;;; ret d)%monad m3) as [m' o]. eauto. }
  destruct o2 as [[[d0 r0] [d2 [|]]]|e|a];
    [|exists 0%nat; apply Final|exists 0%nat; eauto|exists 0%nat; eauto].
  assert (Hdf2 : 1 < decrease_factor (parameters (this m2))) by now rewrite Hp2, Hp.
  assert (Hth2 : 0 < penalty_threshold (this m2)) by now rewrite Ht2, Ht.
  destruct (TrustRegion_facts.Qpow_unbounded (penalty_parameter (this m2)) Hth2 Hdf2)
    as [k Hk].
  destruct (@steering_loop_terminates d0 r0 k d2
              (compute_linearized_constraint_residual (elastic_variables (this m1)) (x d1))
              false m2 Hdf2 B0 Hk) as [[m3 o3] E3].
  exists (S k). rewrite E3. destruct o3 as [d3|e|a]; eauto.
Qed.

End Steering.

(** A run of the scenario: the parameter goes from 1 to 1/9 and to 1/90,
    and the strategy is reset. *)
Lemma steering_witness :
  exists m' d,
    solve_with_steering_rule 20 toy_problem (toy_machine 1 (1 # 10000000000) false)
      = Some (m', Returned d) /\
    penalty_parameter (this m') <= 1 /\
    globalization_strategy (this m') = 1%nat.
Proof.
  destruct (solve_with_steering_rule 20 toy_problem (toy_machine 1 (1 # 10000000000) false))
    as [[m' [d|e|a]]|] eqn:E; try (vm_compute in E; discriminate).
  exists m', d. split; [reflexivity|].
  assert (Hdf : 1 <= decrease_factor
                       (parameters (this (toy_machine 1 (1 # 10000000000) false))))
    by (unfold Qle; simpl; lia).
  destruct (@penalty_parameter_never_increases _ _ _ _ 20 toy_problem
              (toy_machine 1 (1 # 10000000000) false) m' (Returned d) Hdf E)
    as (events & _ & _ & _ & _ & Hle & Hreset).
  split; [exact Hle|].
  specialize (Hreset d eq_refl).
  vm_compute in E. injection E as <- <-.
  exact (proj1 Hreset).
Defined.

(** C1, on the code.  In the scenario with threshold 1/2 the parameter 1/9,
    divided by 10, falls below the threshold: it is set to 0 and the loop
    exits, but the direction returned is the one computed for the parameter
    1/9 ([d = -1], elastic variable 4), not the direction of lowest
    violation computed for the parameter 0 ([d = 1], elastic variable 2). *)
Theorem threshold_exit_returns_stale_direction :
  let m := toy_machine 1 (1 # 2) false in
  exists m1 d1 m2 d0 m' d,
    solve_subproblem m = (m1, Returned d1) /\
    resolve_subproblem 0 m1 = (m2, Returned d0) /\
    solve_with_steering_rule 20 toy_problem m = Some (m', Returned d) /\
    map Qred (assigned_penalties (history m')) = [1 # 9; 1 # 90; 0] /\
    penalty_parameter (this m') = 0 /\
    x d0 = [1; 2] /\ objective_multiplier d0 = 0 /\
    x d = [-1; 4] /\ objective_multiplier d == 1 # 9 /\
    d <> d0.
Proof.
  intros m. do 6 eexists.
  split; [vm_compute; reflexivity|].
  split; [vm_compute; reflexivity|].
  split; [vm_compute; reflexivity|].
  repeat split. discriminate.
Qed.


(** *** Multipliers, residuals and the direction of the steering rule *)

Import Base_facts.

(** The loop of [set_multipliers], as a loop that assigns at most once to
    each position. *)
Lemma set_multipliers_pointwise (number_constraints : nat)
    (constraint_bounds : list Bounds.Range) (current_iterate : Iterate) (v : list Q) :
  length (set_multipliers number_constraints constraint_bounds current_iterate v) = length v /\
  forall j, (j < length v)%nat ->
    nth j (set_multipliers number_constraints constraint_bounds current_iterate v) 0
    = if (j <? number_constraints)%nat then
        let bounds := nth j constraint_bounds Bounds.free in
        let constraint := Bounds.Finite (nth j (constraints current_iterate) 0) in
        if Bounds.ltb constraint (Bounds.lb bounds) then 1
        else if Bounds.ltb (Bounds.ub bounds) constraint then -1
             else nth j v 0
      else nth j v 0.
Proof.
  set (g := fun j =>
         let bounds := nth j constraint_bounds Bounds.free in
         let constraint := Bounds.Finite (nth j (constraints current_iterate) 0) in
         if Bounds.ltb constraint (Bounds.lb bounds) then Some 1
         else if Bounds.ltb (Bounds.ub bounds) constraint then Some (-1)
              else None).
  assert (F : set_multipliers number_constraints constraint_bounds current_iterate v
              = fold_left (fun mu j => match g j with Some a => assign mu j a | None => mu end)
                          (seq 0 number_constraints) v).
  { unfold set_multipliers. apply fold_left_ext_in.
    intros mu j _. unfold g. cbv zeta.
    destruct (Bounds.ltb _ (Bounds.lb _)); [reflexivity|].
    destruct (Bounds.ltb (Bounds.ub _) _); reflexivity. }
  rewrite F. destruct (assign_loop g number_constraints v) as [Hl Hk].
  split; [exact Hl|]. intros j Hj.
  rewrite (Hk j Hj). destruct (j <? number_constraints)%nat; [|reflexivity].
  unfold g. cbv zeta.
  destruct (Bounds.ltb _ (Bounds.lb _)); [reflexivity|].
  destruct (Bounds.ltb (Bounds.ub _) _); reflexivity.
Qed.

(** X15. [set_multipliers] visits the constraints [j < number_constraints]:
    the multiplier becomes 1 when the constraint value is below its lower
    bound, -1 when it is above its upper bound (and not below the lower
    one), and is unchanged when the value is within the bounds; the
    multipliers of the other positions are unchanged, and so is the length
    of the vector.  A second call changes nothing. *)
Theorem set_multipliers_spec (number_constraints : nat)
    (constraint_bounds : list Bounds.Range) (current_iterate : Iterate)
    (constraints_multipliers : list Q) :
  let updated :=
    set_multipliers number_constraints constraint_bounds current_iterate
                    constraints_multipliers in
  length updated = length constraints_multipliers /\
  (forall j, (j < length constraints_multipliers)%nat ->
     nth j updated 0 =
     if (j <? number_constraints)%nat then
       let bounds := nth j constraint_bounds Bounds.free in
       let constraint := Bounds.Finite (nth j (constraints current_iterate) 0) in
       if Bounds.ltb constraint (Bounds.lb bounds) then 1
       else if Bounds.ltb (Bounds.ub bounds) constraint then -1
            else nth j constraints_multipliers 0
     else nth j constraints_multipliers 0) /\
  set_multipliers number_constraints constraint_bounds current_iterate updated = updated.
Proof.
  cbv zeta.
  destruct (set_multipliers_pointwise number_constraints constraint_bounds current_iterate
              constraints_multipliers) as [L P].
  split; [exact L|]. split; [exact P|].
  destruct (set_multipliers_pointwise number_constraints constraint_bounds current_iterate
              (set_multipliers number_constraints constraint_bounds current_iterate
                               constraints_multipliers)) as [L2 P2].
  apply nth_ext with (d := 0) (d' := 0); [exact L2|].
  intros j Hj. rewrite L2 in Hj. rewrite (P2 j Hj). rewrite L in Hj. rewrite (P j Hj).
  destruct (j <? number_constraints)%nat; [|reflexivity]. cbv zeta.
  destruct (Bounds.ltb _ (Bounds.lb _)); [reflexivity|].
  destruct (Bounds.ltb (Bounds.ub _) _); reflexivity.
Qed.

Lemma for_each_value_sum (v : SparseVector nat) (direction : list Q) (a : Q) :
  for_each_value 0%nat v (fun i residual => residual + nth i direction 0) a
  = fold_left (fun acc k => acc + nth (nth k (values v) 0%nat) direction 0)
              (seq 0 (number_nonzeros v)) a.
Proof. reflexivity. Qed.

(** X16. The linearized constraint residual is the sum of the components
    of the direction at the elastic variables.  When these components are
    nonnegative, as the bounds of the elastic variables require, the
    residual is nonnegative, and it is zero exactly when every elastic
    component is zero: the test [linearized_residual != 0] of the steering
    rule then means that some elastic variable is positive. *)
Theorem linearized_residual_zero_iff (elastic : ElasticVariables) (direction : list Q) :
  (forall k, (k < number_nonzeros (positive elastic))%nat ->
     0 <= nth (nth k (values (positive elastic)) 0%nat) direction 0) ->
  (forall k, (k < number_nonzeros (negative elastic))%nat ->
     0 <= nth (nth k (values (negative elastic)) 0%nat) direction 0) ->
  0 <= compute_linearized_constraint_residual elastic direction /\
  (compute_linearized_constraint_residual elastic direction == 0 <->
   (forall k, (k < number_nonzeros (positive elastic))%nat ->
      nth (nth k (values (positive elastic)) 0%nat) direction 0 == 0) /\
   (forall k, (k < number_nonzeros (negative elastic))%nat ->
      nth (nth k (values (negative elastic)) 0%nat) direction 0 == 0)).
Proof.
  intros Hp Hn. unfold compute_linearized_constraint_residual.
  rewrite !for_each_value_sum.
  set (gp := fun k => nth (nth k (values (positive elastic)) 0%nat) direction 0).
  set (gn := fun k => nth (nth k (values (negative elastic)) 0%nat) direction 0).
  set (p := fold_left (fun acc k => acc + gp k) (seq 0 (number_nonzeros (positive elastic))) 0).
  destruct (fold_sum_nonneg gp (seq 0 (number_nonzeros (positive elastic))) 0) as [P1 P2].
  { intros k Hk. apply in_seq in Hk. apply Hp. lia. }
  destruct (fold_sum_nonneg gn (seq 0 (number_nonzeros (negative elastic))) p) as [N1 N2].
  { intros k Hk. apply in_seq in Hk. apply Hn. lia. }
  fold p in P1, P2.
  set (r := fold_left (fun acc k => acc + gn k) (seq 0 (number_nonzeros (negative elastic))) p)
    in *.
  change (0 <= r /\ (r == 0 <->
            (forall k, (k < number_nonzeros (positive elastic))%nat -> gp k == 0) /\
            (forall k, (k < number_nonzeros (negative elastic))%nat -> gn k == 0))).
  split; [lra|]. split.
  - intros Z. assert (Zp : p == 0) by lra. split.
    + intros k Hk. apply P2; [exact Zp|]. apply in_seq. lia.
    + intros k Hk. apply N2; [lra|]. apply in_seq. lia.
  - intros [Zp Zn].
    assert (E1 : p == 0).
    { apply P2. intros k Hk. apply in_seq in Hk. apply Zp. lia. }
    assert (E2 : r == p).
    { apply N2. intros k Hk. apply in_seq in Hk. apply Zn. lia. }
    lra.
Qed.

(** The elastic variable of the scenario has the value 2 in the first
    direction. *)
Lemma linearized_residual_zero_iff_witness :
  0 <= compute_linearized_constraint_residual toy_elastic [1; 2] /\
  ~ compute_linearized_constraint_residual toy_elastic [1; 2] == 0.
Proof.
  assert (Hp : forall k, (k < number_nonzeros (positive toy_elastic))%nat ->
            0 <= nth (nth k (values (positive toy_elastic)) 0%nat) [1; 2] 0).
  { intros [|k] Hk; simpl in *; [discriminate|lia]. }
  assert (Hn : forall k, (k < number_nonzeros (negative toy_elastic))%nat ->
            0 <= nth (nth k (values (negative toy_elastic)) 0%nat) [1; 2] 0).
  { intros k Hk; simpl in *; lia. }
  destruct (linearized_residual_zero_iff toy_elastic [1; 2] Hp Hn) as [H0 Hiff].
  split; [exact H0|]. intros Z. apply Hiff in Z. destruct Z as [Zp _].
  specialize (Zp 0%nat (Nat.lt_0_1)). vm_compute in Zp. discriminate.
Defined.

(** The loop of [compute_error]: the multipliers of the iterate are added
    to the first [number_constraints] displacements. *)
Lemma add_constraint_multipliers_spec (problem : Problem) (displacements current : list Q) :
  let sum := add_constraint_multipliers problem displacements current in
  length sum = length displacements /\
  forall j, (j < length displacements)%nat ->
    nth j sum 0 = if (j <? number_constraints problem)%nat
                  then nth j displacements 0 + nth j current 0
                  else nth j displacements 0.
Proof.
  unfold add_constraint_multipliers.
  induction (number_constraints problem) as [|n IH]; cbv zeta.
  - split; [reflexivity|]. intros j _. reflexivity.
  - rewrite seq_S, fold_left_app. simpl Nat.add.
    destruct IH as [Hl Hk]. set (r := fold_left _ (seq 0 n) displacements) in *.
    cbn [fold_left]. split; [now rewrite assign_length|].
    intros j Hj. destruct (Nat.eq_dec n j) as [<-|Hne].
    + rewrite nth_assign_eq by lia. rewrite Hk by exact Hj.
      rewrite Nat.ltb_irrefl.
      replace (n <? S n)%nat with true by (symmetry; apply Nat.ltb_lt; lia). reflexivity.
    + rewrite nth_assign_neq by exact Hne. rewrite Hk by exact Hj.
      destruct (j <? n)%nat eqn:E1, (j <? S n)%nat eqn:E2; try reflexivity.
      * apply Nat.ltb_lt in E1. apply Nat.ltb_ge in E2. lia.
      * apply Nat.ltb_ge in E1. apply Nat.ltb_lt in E2. lia.
Qed.

Lemma norm_1_nonneg (v : list Q) : 0 <= norm_1 v.
Proof.
  unfold norm_1. assert (G : forall a, 0 <= a -> 0 <= fold_left (fun acc vi => acc + Qabs vi) v a).
  { induction v as [|b v IH]; intros a Ha; simpl; [exact Ha|].
    apply IH. pose proof (Qabs_nonneg b). lra. }
  apply G. apply Qle_refl.
Qed.

Section Directions.
Context {Sub G : Type} {subproblem_interface : Subproblem Sub}
        {strategy_interface : GlobalizationStrategy G}.

(** What a solve that returns has done. *)
Lemma solve_subproblem_returned (m m' : Machine Sub G) (d : Direction) :
  solve_subproblem m = (m', Returned d) ->
  no_infeasible_constraint d = true /\
  objective_multiplier d = penalty_parameter (this m) /\
  penalty_parameter (this m') = penalty_parameter (this m) /\
  elastic_variables (this m') = elastic_variables (this m) /\
  history m' = history m ++ [ev_solve].
Proof.
  unfold solve_subproblem, subproblem_solve, remove_elastic_variables, bind, get, log,
    put_subproblem, put_iterate, ret, assert, pure.
  destruct (solve (subproblem (this m)) (current_iterate m)) as [[s it] d0]. simpl.
  destruct (no_infeasible_constraint d0) eqn:N; simpl; [|discriminate].
  intros [= <- <-]. simpl. repeat split; auto.
Qed.

Lemma resolve_subproblem_returned (objective_multiplier : Q) (m m' : Machine Sub G)
    (d : Direction) :
  resolve_subproblem objective_multiplier m = (m', Returned d) ->
  no_infeasible_constraint d = true /\
  Base.objective_multiplier d = objective_multiplier /\
  penalty_parameter (this m') = penalty_parameter (this m) /\
  elastic_variables (this m') = elastic_variables (this m) /\
  history m' = history m ++ [ev_build_objective_model objective_multiplier; ev_solve].
Proof.
  unfold resolve_subproblem, subproblem_build_objective_model, add_elastic_variables,
    subproblem_solve, remove_elastic_variables, bind, get, log,
    put_subproblem, put_iterate, ret, assert, pure.
  destruct (build_objective_model (subproblem (this m)) (current_iterate m)
                                  objective_multiplier) as [s0 it0]. simpl.
  destruct (solve _ _) as [[s it] d0]. simpl.
  destruct (no_infeasible_constraint d0) eqn:N; simpl; [|discriminate].
  intros [= <- <-]. simpl. rewrite <- app_assoc. repeat split; auto.
Qed.

(** X17. [compute_error] measures the error at the multipliers obtained
    from the displacements of the direction by adding the constraint
    multipliers of the iterate to the constraint part, position by position
    for the constraints of the problem; the bound multipliers are the
    displacements themselves.  It returns the complementarity error at
    these multipliers plus the l1 norm of the gradient of the Lagrangian
    evaluated with them and the given penalty parameter, hence no less than
    the complementarity error; it stores that gradient in the iterate and
    leaves the strategy as it is. *)
Theorem compute_error_spec (problem : Problem) (multipliers_displacements : Multipliers)
    (current_penalty_parameter : Q) (m : Machine Sub G) :
  exists multipliers,
    lower_bounds multipliers = lower_bounds multipliers_displacements /\
    upper_bounds multipliers = upper_bounds multipliers_displacements /\
    length (constraints_multipliers multipliers)
      = length (constraints_multipliers multipliers_displacements) /\
    (forall j, (j < length (constraints_multipliers multipliers_displacements))%nat ->
       nth j (constraints_multipliers multipliers) 0 =
       if (j <? number_constraints problem)%nat
       then nth j (constraints_multipliers multipliers_displacements) 0
            + nth j (constraints_multipliers (iterate_multipliers (current_iterate m))) 0
       else nth j (constraints_multipliers multipliers_displacements) 0) /\
    let evaluated :=
      evaluate_lagrangian_gradient (current_iterate m) current_penalty_parameter multipliers in
    let error :=
      compute_complementarity_error (current_iterate m) multipliers
      + norm_1 (lagrangian_gradient evaluated) in
    compute_error problem multipliers_displacements current_penalty_parameter m
    = (mkMachine (this m) (statistics m) evaluated (trial_iterate m)
                 (history m ++ [ev_compute_error current_penalty_parameter]),
       Returned error) /\
    compute_complementarity_error (current_iterate m) multipliers <= error.
Proof.
  eexists (mkMultipliers _ _ _). simpl.
  split; [reflexivity|]. split; [reflexivity|].
  destruct (add_constraint_multipliers_spec problem
              (constraints_multipliers multipliers_displacements)
              (constraints_multipliers (iterate_multipliers (current_iterate m))))
    as [Hl Hk].
  split; [exact Hl|]. split; [exact Hk|]. split; [reflexivity|].
  match goal with |- _ <= _ + norm_1 ?v => pose proof (norm_1_nonneg v) end. lra.
Qed.

(** X18. When the penalty parameter is not positive at the call, or when
    the first direction has a zero linearized residual, the steering rule
    is one solve of the subproblem: the call ends as [solve_subproblem]
    does, whatever the fuel; when it returns, the direction carries the
    penalty parameter as objective multiplier, the penalty parameter is
    unchanged, and the subproblem has been solved once, without resolve and
    without reset of the globalization strategy. *)
Theorem steering_rule_single_solve (fuel : nat) (problem : Problem) (m m1 : Machine Sub G)
    (o : Outcome Direction) :
  solve_subproblem m = (m1, o) ->
  (penalty_parameter (this m) <= 0 \/
   exists d, o = Returned d /\
     compute_linearized_constraint_residual (elastic_variables (this m1)) (x d) == 0) ->
  solve_with_steering_rule fuel problem m = Some (m1, o) /\
  (forall d, o = Returned d ->
     objective_multiplier d = penalty_parameter (this m) /\
     penalty_parameter (this m1) = penalty_parameter (this m) /\
     history m1 = history m ++ [ev_solve]).
Proof.
  intros E Hc. split.
  - unfold solve_with_steering_rule. rewrite E.
    destruct o as [d|e|a]; try reflexivity.
    destruct (solve_subproblem_returned m E) as (_ & _ & Hp & _).
    destruct Hc as [Hle|(d' & [= <-] & Z)].
    + replace (Qlt_bool 0 (penalty_parameter (this m1))) with false; [reflexivity|].
      symmetry. apply Qlt_bool_false_iff. now rewrite Hp.
    + destruct (Qlt_bool 0 (penalty_parameter (this m1))); [|reflexivity].
      apply Qeq_bool_iff in Z. rewrite Z. reflexivity.
  - intros d ->. destruct (solve_subproblem_returned m E) as (_ & H1 & H2 & _ & H3). auto.
Qed.

Lemma bind_returned_inv (A B : Type) (c : M (Sub := Sub) (G := G) A) (k : A -> M B)
    (m m' : Machine Sub G) (b : B) :
  bind c k m = (m', Returned b) ->
  exists a m1, c m = (m1, Returned a) /\ k a m1 = (m', Returned b).
Proof.
  unfold bind. destruct (c m) as [m1 [a|e|s]]; intros E; [eauto|discriminate|discriminate].
Qed.

Lemma set_penalty_parameter_returned (v : Q) (m m' : Machine Sub G) (u : unit) :
  set_penalty_parameter v m = (m', Returned u) -> penalty_parameter (this m') = v.
Proof. intros [= <-]. reflexivity. Qed.

Ltac step E a m Ea :=
  apply bind_returned_inv in E; destruct E as (a & m & Ea & E).

Ltac step_get E :=
  let a := fresh "a" in let m := fresh "m" in let Ea := fresh "E" in
  apply bind_returned_inv in E; destruct E as (a & m & Ea & E);
  apply get_inv in Ea; destruct Ea as [-> ->].

(** The stages before the loop keep the direction and the penalty
    parameter in step. *)
Lemma update_penalty_parameter_direction (problem : Problem)
    (d d0 : Direction) (r0 : Q) (m m' : Machine Sub G) (d' : Direction) (run : bool) :
  update_penalty_parameter problem d d0 r0 m = (m', Returned (d', run)) ->
  no_infeasible_constraint d = true ->
  objective_multiplier d == penalty_parameter (this m) \/ penalty_parameter (this m) == 0 ->
  no_infeasible_constraint d0 = true -> objective_multiplier d0 = 0 ->
  no_infeasible_constraint d' = true /\
  (objective_multiplier d' == penalty_parameter (this m') \/
   penalty_parameter (this m') == 0).
Proof.
  unfold update_penalty_parameter. intros E Nd Id Nd0 Md0.
  step_get E.
  destruct (negb _).
  2:{ apply ret_inv in E. destruct E as [-> [= <- _]]. auto. }
  step E err m1 Eerr. pose proof (updates_penalty (Quiet_compute_error Eerr)) as P1.
  destruct (Qeq_bool err 0).
  - step E u m2 Eset. apply set_penalty_parameter_returned in Eset.
    apply ret_inv in E. destruct E as [-> [= <- _]].
    split; [exact Nd0|]. right. rewrite Eset. reflexivity.
  - step_get E. step E u m2 Eset. apply set_penalty_parameter_returned in Eset.
    step_get E. step E d2 m3 Edir.
    apply ret_inv in E. destruct E as [-> [= <- _]].
    destruct (Qlt_bool (penalty_parameter (this m2)) (penalty_parameter (this m1))) eqn:L.
    + destruct (Qeq_bool (penalty_parameter (this m2)) 0) eqn:Z.
      * apply ret_inv in Edir. destruct Edir as [-> [= <-]].
        split; [exact Nd0|]. right. now apply Qeq_bool_iff.
      * destruct (resolve_subproblem_returned _ _ Edir) as (N & Mu & P & _).
        split; [exact N|]. left. rewrite Mu, P. reflexivity.
    + apply ret_inv in Edir. destruct Edir as [-> [= <-]].
      split; [exact Nd|].
      apply Qlt_bool_false_iff in L. rewrite Eset in *.
      assert (Hmin : Qmin (penalty_parameter (this m1))
                          (err / Qmax 1 (errors_constraints (current_iterate m1))
                           * (err / Qmax 1 (errors_constraints (current_iterate m1))))
                     == penalty_parameter (this m1)).
      { apply Qle_antisym; [apply Q.le_min_l|exact L]. }
      rewrite Hmin, P1. exact Id.
Qed.

(** One pass of the loop keeps them in step. *)
Lemma steering_pass_direction (d0 : Direction) (r0 : Q) (d : Direction) (lr : Q) (c1 : bool)
    (m m' : Machine Sub G) (d' : Direction) (lr' : Q) (c1' c2' : bool) :
  steering_pass d0 r0 d lr c1 m = (m', Returned (d', lr', c1', c2')) ->
  no_infeasible_constraint d = true ->
  objective_multiplier d == penalty_parameter (this m) \/ penalty_parameter (this m) == 0 ->
  no_infeasible_constraint d' = true /\
  (objective_multiplier d' == penalty_parameter (this m') \/
   penalty_parameter (this m') == 0).
Proof.
  unfold steering_pass. intros E Nd Id.
  step_get E.
  destruct (steering_conditions d0 r0 d lr c1 m) as [c1n c2n].
  destruct (negb c2n).
  2:{ apply ret_inv in E. destruct E as [-> [= <- _ _ _]]. auto. }
  step E u m1 Eset. apply set_penalty_parameter_returned in Eset.
  step_get E.
  destruct (Qlt_bool _ _).
  - step E u0 m2 Eset0. apply set_penalty_parameter_returned in Eset0.
    apply ret_inv in E. destruct E as [-> [= <- _ _ _]].
    split; [exact Nd|]. right. rewrite Eset0. reflexivity.
  - step E d2 m2 Edir. step_get E.
    apply ret_inv in E. destruct E as [-> [= <- _ _ _]].
    destruct (resolve_subproblem_returned _ _ Edir) as (N & Mu & P & _).
    split; [exact N|]. left. rewrite Mu, P. reflexivity.
Qed.

Lemma steering_loop_direction (fuel : nat) (d0 : Direction) (r0 : Q) :
  forall (d : Direction) (lr : Q) (c1 : bool) (m m' : Machine Sub G) (d' : Direction),
  steering_loop fuel d0 r0 d lr c1 m = Some (m', Returned d') ->
  no_infeasible_constraint d = true ->
  objective_multiplier d == penalty_parameter (this m) \/ penalty_parameter (this m) == 0 ->
  no_infeasible_constraint d' = true /\
  (objective_multiplier d' == penalty_parameter (this m') \/
   penalty_parameter (this m') == 0).
Proof.
  induction fuel as [|fuel IH]; intros d lr c1 m m' d' E Nd Id; [discriminate|].
  cbn [steering_loop] in E.
  destruct (steering_pass d0 r0 d lr c1 m) as [m1 o1] eqn:Ep.
  destruct o1 as [[[[d1 lr1] c11] c21]|e|a]; try discriminate.
  destruct (steering_pass_direction _ _ _ _ _ _ Ep Nd Id) as [N1 I1].
  destruct c21.
  - injection E as <- <-. auto.
  - apply (IH _ _ _ _ _ _ E N1 I1).
Qed.

Lemma strategy_reset_penalty (m m' : Machine Sub G) (o : Outcome unit) :
  strategy_reset m = (m', o) -> penalty_parameter (this m') = penalty_parameter (this m).
Proof. intros [= <- _]. reflexivity. Qed.

(** X19. The direction returned by the steering rule.  It carries no
    constraint partition with infeasible constraints, and its objective
    multiplier is the penalty parameter the strategy is left with, unless
    that parameter is 0: a direction computed for an earlier, positive
    penalty parameter can only be returned together with a penalty parameter
    equal to 0. *)
Theorem steering_rule_direction (fuel : nat) (problem : Problem) (m m' : Machine Sub G)
    (d : Direction) :
  solve_with_steering_rule fuel problem m = Some (m', Returned d) ->
  no_infeasible_constraint d = true /\
  (objective_multiplier d == penalty_parameter (this m') \/
   penalty_parameter (this m') == 0).
Proof.
  unfold solve_with_steering_rule.
  destruct (solve_subproblem m) as [m1 [d1|e|a]] eqn:E1; try discriminate.
  destruct (solve_subproblem_returned m E1) as (N1 & Mu1 & P1 & _).
  assert (I1 : objective_multiplier d1 == penalty_parameter (this m1) \/
               penalty_parameter (this m1) == 0).
  { left. rewrite Mu1, P1. reflexivity. }
  destruct (Qlt_bool 0 (penalty_parameter (this m1))); [|intros [= <- <-]; auto].
  destruct (negb _); [|intros [= <- <-]; auto].
  unfold relaxed_stages.
  destruct (lowest_violation_stage problem d1 m1) as [m2 o2] eqn:E2.
  assert (G2 : forall d0 r0 d2 run,
            o2 = Returned (d0, r0, (d2, run)) ->
            no_infeasible_constraint d0 = true /\
            no_infeasible_constraint d2 = true /\
            (objective_multiplier d2 == penalty_parameter (this m2) \/
             penalty_parameter (this m2) == 0)).
  { intros d0 r0 d2 run ->. unfold lowest_violation_stage in E2.
    step E2 dlv m3 Edlv.
    destruct (resolve_subproblem_returned _ _ Edlv) as (N0 & Mu0 & P0 & _).
    step_get E2. step E2 upd m4 Eupd. apply ret_inv in E2.
    destruct E2 as [-> Eo]. injection Eo as Hd0 _ Hupd. subst d0 upd.
    assert (I0 : objective_multiplier d1 == penalty_parameter (this m3) \/
                 penalty_parameter (this m3) == 0) by (now rewrite P0).
    destruct (update_penalty_parameter_direction _ _ _ _ _ Eupd N1 I0 N0 Mu0) as [N2 I2].
    auto. }
  destruct o2 as [[[d0 r0] [d2 run]]|e|a]; try discriminate.
  destruct (G2 d0 r0 d2 run eq_refl) as (N0 & N2 & I2).
  assert (F : forall m3 d3,
            no_infeasible_constraint d3 = true ->
            (objective_multiplier d3 == penalty_parameter (this m3) \/
             penalty_parameter (this m3) == 0) ->
            Some ((reset_if_decreased (penalty_parameter (this m1)) ;;; ret d3)%monad m3)
            = Some (m', Returned d) ->
            no_infeasible_constraint d = true /\
            (objective_multiplier d == penalty_parameter (this m') \/
             penalty_parameter (this m') == 0)).
  { intros m3 d3 N3 I3 [= E]. step E u m4 Ereset.
    apply ret_inv in E. destruct E as [-> [= <-]].
    unfold reset_if_decreased in Ereset. step_get Ereset.
    destruct (Qlt_bool _ _).
    - apply strategy_reset_penalty in Ereset. rewrite Ereset. auto.
    - apply ret_inv in Ereset. destruct Ereset as [-> _]. auto. }
  destruct run.
  - destruct (steering_loop fuel d0 r0 d2 _ false m2) as [[m3 [d3|e|a]]|] eqn:E3;
      try discriminate.
    eapply steering_loop_direction in E3; [|exact N2|exact I2].
    destruct E3 as [N3 I3]. apply (F m3 d3 N3 I3).
  - apply (F m2 d2 N2 I2).
Qed.

End Directions.

(** The scenario with penalty parameter 0. *)
Lemma steering_rule_single_solve_witness :
  solve_with_steering_rule 0 toy_problem (toy_machine 0 (1 # 2) false)
  = Some (solve_subproblem (toy_machine 0 (1 # 2) false)).
Proof.
  destruct (solve_subproblem (toy_machine 0 (1 # 2) false)) as [m1 o] eqn:E.
  apply (steering_rule_single_solve 0 toy_problem (toy_machine 0 (1 # 2) false) E).
  left. apply Qle_refl.
Defined.

(** The run of the scenario that ends on the threshold: the penalty
    parameter is left at 0. *)
Lemma steering_rule_direction_witness :
  exists m' d,
    solve_with_steering_rule 10 toy_problem (toy_machine 1 (1 # 2) false)
      = Some (m', Returned d) /\
    (objective_multiplier d == penalty_parameter (this m') \/
     penalty_parameter (this m') == 0).
Proof.
  destruct (solve_with_steering_rule 10 toy_problem (toy_machine 1 (1 # 2) false))
    as [[m' [d|e|a]]|] eqn:E; try (vm_compute in E; discriminate).
  exists m', d. split; [reflexivity|].
  apply (steering_rule_direction 10 toy_problem (toy_machine 1 (1 # 2) false) E).
Defined.

End L1_facts.

(** ** Feasibility restoration *)

Module Restoration_facts.
Import Base Restoration.

Section Strategy.
Context {Sub G : Type} {subproblem_interface : Subproblem Sub}
        {strategy_interface : GlobalizationStrategy G}.

(** The measures of infeasibility read the subproblem and the elastic
    variables of the strategy, and nothing else of it. *)
Lemma infeasibility_measures_ext (t t' : FeasibilityRestoration Sub G) (iterate : Iterate)
    (partition : option ConstraintPartition) :
  subproblem t' = subproblem t ->
  elastic_variables t' = elastic_variables t ->
  elastic_objective_coefficient t' = elastic_objective_coefficient t ->
  infeasibility_measures t' iterate partition = infeasibility_measures t iterate partition.
Proof.
  intros Hs He Hc. unfold infeasibility_measures. now rewrite Hs, He, Hc.
Qed.








End Strategy.


(** The same direction with a step of norm 1 enters the restoration phase. *)
Example restoration_entered :
  let d := feasibility_direction 1 in
  let m := toy_machine OPTIMALITY in
  let m' := fst (is_acceptable d (fun _ => 0) 1 m) in
  let current := toy_iterate 0 3 in
  current_phase (this m') = FEASIBILITY_RESTORATION /\
  history m' =
    [ev_notify Phase2 current; ev_reset Phase1; ev_compute_infeasibility_measures Current;
     ev_notify Phase1 (infeasibility_measures (this m) current (constraint_partition d));
     ev_compute_infeasibility_measures Trial; ev_check_acceptance Phase1 0 0;
     ev_compute_residuals Trial 0] /\
  phase_2_strategy (this m') = [current].
Proof. cbv zeta. repeat split. Qed.

(** A direction with a positive objective multiplier leaves the restoration
    phase. *)
Example optimality_resumed :
  let m' := fst (is_acceptable (optimality_direction 1) (fun _ => 0) 1
                               (toy_machine FEASIBILITY_RESTORATION)) in
  current_phase (this m') = OPTIMALITY /\
  history m' =
    [ev_evaluate_constraints Current; ev_compute_progress_measures Current;
     ev_set_number_variables Trial; ev_evaluate_constraints Trial;
     ev_compute_progress_measures Trial; ev_check_acceptance Phase2 1 0;
     ev_compute_residuals Trial 1].
Proof. cbv zeta. repeat split. Qed.


(** *** Restoration multipliers, the proximal term and the direction *)

Import Base_facts.

(** X20. [set_restoration_multipliers]: the multiplier of a constraint
    listed as infeasible at its upper bound becomes -1; that of a constraint
    listed as infeasible at its lower bound only becomes 1; every other
    multiplier is left as it is, and so is the length of the vector.  (A
    constraint listed in both sets gets -1: the second loop wins.) *)
Theorem set_restoration_multipliers_spec (constraint_multipliers : list Q)
    (constraint_partition : ConstraintPartition) :
  let updated := set_restoration_multipliers constraint_multipliers constraint_partition in
  length updated = length constraint_multipliers /\
  forall j, (j < length constraint_multipliers)%nat ->
    nth j updated 0 =
    if existsb (Nat.eqb j) (upper_bound_infeasible constraint_partition) then -1
    else if existsb (Nat.eqb j) (lower_bound_infeasible constraint_partition) then 1
         else nth j constraint_multipliers 0.
Proof.
  unfold set_restoration_multipliers. cbv zeta. split.
  - now rewrite !assigned_length.
  - intros j Hj. rewrite nth_assigned by (now rewrite assigned_length).
    destruct (existsb (Nat.eqb j) (upper_bound_infeasible constraint_partition));
      [reflexivity|].
    now apply nth_assigned.
Qed.

Lemma proximal_weight_bounds (xi : Q) : 0 < proximal_weight xi <= 1.
Proof.
  unfold proximal_weight. destruct (Qeq_bool xi 0) eqn:Z; [lra|].
  apply Qeq_bool_neq in Z.
  assert (P : 0 < Qabs xi).
  { apply Qabs_case; intros H.
    - destruct (Qle_lt_or_eq _ _ H) as [L|E]; [exact L|]. exfalso. apply Z. now symmetry.
    - destruct (Qle_lt_or_eq _ _ H) as [L|E]; [lra|]. exfalso. now apply Z. }
  split; [|apply Q.le_min_l].
  apply Q.min_glb_lt; [lra|]. apply Qlt_shift_div_l; lra.
Qed.

Section Measures.
Context {Sub G : Type} {subproblem_interface : Subproblem Sub}
        {strategy_interface : GlobalizationStrategy G}.

(** The loop of [add_proximal_term_to_progress_measures]. *)
Lemma proximal_loop (coefficient : Q) (current : list Q) (l : list nat) (trial : Iterate) :
  let add_term (trial : Iterate) (i : nat) :=
    let dr := proximal_weight (nth i current 0) in
    let d := dr * (nth i (iterate_x trial) 0 - nth i current 0) in
    let proximal_term := coefficient * (d * d) in
    set_progress trial
      (mkProgress (feasibility (progress trial))
                  (objective_measure (progress trial) + proximal_term)) in
  let trial' := fold_left add_term l trial in
  iterate_x trial' = iterate_x trial /\
  constraints trial' = constraints trial /\
  multipliers_constraints trial' = multipliers_constraints trial /\
  feasibility (progress trial') = feasibility (progress trial) /\
  objective_measure (progress trial')
  = fold_left
      (fun acc i =>
         acc + coefficient
               * (proximal_weight (nth i current 0)
                  * (nth i (iterate_x trial) 0 - nth i current 0)
                  * (proximal_weight (nth i current 0)
                     * (nth i (iterate_x trial) 0 - nth i current 0))))
      l (objective_measure (progress trial)).
Proof.
  cbv zeta. revert trial. induction l as [|i l IH]; intros trial; simpl.
  - repeat split.
  - destruct (IH (set_progress trial
                    (mkProgress (feasibility (progress trial))
                       (objective_measure (progress trial)
                        + coefficient
                          * (proximal_weight (nth i current 0)
                             * (nth i (iterate_x trial) 0 - nth i current 0)
                             * (proximal_weight (nth i current 0)
                                * (nth i (iterate_x trial) 0 - nth i current 0)))))))
      as (H1 & H2 & H3 & H4 & H5).
    simpl in *. repeat split; assumption.
Qed.

(** X21. [add_proximal_term_to_progress_measures] adds to the objective
    measure of the trial iterate the proximal coefficient times the sum,
    over the variables of the subproblem, of the squares of
    [w_i (trial_i - current_i)], with weights [w_i = min(1, 1/|current_i|)]
    in (0, 1].  It changes nothing else.  For a nonnegative coefficient the
    objective measure does not decrease, and it is unchanged when the trial
    iterate equals the current iterate on these variables. *)
Theorem add_proximal_term_spec (m : Machine Sub G) :
  let coefficient := get_proximal_coefficient (subproblem (this m)) in
  let n := number_variables (subproblem (this m)) in
  let before := objective_measure (progress (trial_iterate m)) in
  exists trial',
    add_proximal_term_to_progress_measures m
    = (mkMachine (this m) (statistics m) (current_iterate m) trial'
                 (history m ++ [ev_add_proximal_term_to_progress_measures]),
       Returned tt) /\
    iterate_x trial' = iterate_x (trial_iterate m) /\
    constraints trial' = constraints (trial_iterate m) /\
    multipliers_constraints trial' = multipliers_constraints (trial_iterate m) /\
    feasibility (progress trial') = feasibility (progress (trial_iterate m)) /\
    objective_measure (progress trial')
    = fold_left
        (fun acc i =>
           let w := proximal_weight (nth i (iterate_x (current_iterate m)) 0) in
           let d := w * (nth i (iterate_x (trial_iterate m)) 0
                         - nth i (iterate_x (current_iterate m)) 0) in
           acc + coefficient * (d * d))
        (seq 0 n) before /\
    (forall xi, 0 < proximal_weight xi <= 1) /\
    (0 <= coefficient -> before <= objective_measure (progress trial')) /\
    ((forall i, (i < n)%nat ->
        nth i (iterate_x (trial_iterate m)) 0 == nth i (iterate_x (current_iterate m)) 0) ->
     objective_measure (progress trial') == before).
Proof.
  cbv zeta. eexists. split.
  { unfold add_proximal_term_to_progress_measures, bind, get, log, put_iterate.
    cbv beta iota zeta. reflexivity. }
  destruct (proximal_loop (get_proximal_coefficient (subproblem (this m)))
              (iterate_x (current_iterate m))
              (seq 0 (number_variables (subproblem (this m)))) (trial_iterate m))
    as (H1 & H2 & H3 & H4 & H5).
  cbv zeta in *.
  split; [exact H1|]. split; [exact H2|]. split; [exact H3|]. split; [exact H4|].
  split; [exact H5|]. split; [apply proximal_weight_bounds|].
  rewrite H5.
  set (g := fun i =>
         get_proximal_coefficient (subproblem (this m))
         * (proximal_weight (nth i (iterate_x (current_iterate m)) 0)
            * (nth i (iterate_x (trial_iterate m)) 0 - nth i (iterate_x (current_iterate m)) 0)
            * (proximal_weight (nth i (iterate_x (current_iterate m)) 0)
               * (nth i (iterate_x (trial_iterate m)) 0
                  - nth i (iterate_x (current_iterate m)) 0)))).
  change (fold_left _ _ _)
    with (fold_left (fun acc i => acc + g i) (seq 0 (number_variables (subproblem (this m))))
                    (objective_measure (progress (trial_iterate m)))).
  split.
  - intros Hc.
    apply (fold_sum_nonneg g). intros k _. unfold g.
    apply Qmult_le_0_compat; [exact Hc|].
    set (t := proximal_weight _ * _). clearbody t.
    destruct (Qlt_le_dec t 0) as [N|P].
    + setoid_replace (t * t) with ((- t) * (- t)) by ring.
      apply Qmult_le_0_compat; lra.
    + apply Qmult_le_0_compat; assumption.
  - intros Hx.
    assert (Z : forall k, In k (seq 0 (number_variables (subproblem (this m)))) -> g k == 0).
    { intros k Hk. apply in_seq in Hk. unfold g. rewrite (Hx k) by lia. ring. }
    clear Hx H1 H2 H3 H4 H5. revert Z.
    generalize (objective_measure (progress (trial_iterate m))).
    induction (seq 0 (number_variables (subproblem (this m)))) as [|k l IH];
      intros a Z; simpl; [reflexivity|].
    eapply Qeq_trans; [apply IH; intros k' Hk'; apply Z; now right|].
    assert (Zk : g k == 0) by (apply Z; now left). lra.
Qed.

End Measures.

Section Directions.
Context {Sub G : Type} {direction_interface : DirectionSubproblem Sub}.

Ltac run_direction E :=
  repeat (simpl in E;
          match type of E with
          | context [build_objective_model ?a ?b ?c] =>
              destruct (build_objective_model a b c) eqn:?
          | context [add_elastic_variables_to_subproblem ?a ?b ?c] =>
              destruct (add_elastic_variables_to_subproblem a b c) eqn:?
          | context [solve ?a ?b ?c] => destruct (solve a b c) as [[[? ?] ?] ?] eqn:?
          | context [use_proximal_term ?a] => destruct (use_proximal_term a) eqn:?
          | context [no_infeasible ?a] => destruct (no_infeasible a) eqn:?
          | context [Status_eqb (status ?a) OPTIMAL] => destruct (status a) eqn:?
          end).

(** X22. [compute_feasible_direction] returns a direction whose status is
    [OPTIMAL].  Either the subproblem was solved to optimality, and the
    direction is that of the solver with [objective_sign] as objective
    multiplier; or the subproblem was infeasible, the feasibility problem
    was formed and solved to optimality, and the direction is a feasibility
    direction: its objective multiplier is 0, and it carries the constraint
    partition of the infeasible direction when there is one, which then
    lists an infeasible constraint.  The phase, the globalization
    strategies and the trial iterate are not touched. *)
Theorem compute_feasible_direction_spec (objective_sign : Q) (m m' : Machine Sub G)
    (direction : Direction) :
  compute_feasible_direction objective_sign m = (m', Returned direction) ->
  exists s1 statistics1 iterate1 direction1,
    solve (subproblem (this m)) (statistics m) (current_iterate m)
    = (s1, statistics1, iterate1, direction1) /\
    status direction = OPTIMAL /\
    ((status direction1 = OPTIMAL /\
      direction = set_objective_multiplier direction1 objective_sign /\
      subproblem (this m') = s1 /\ statistics m' = statistics1 /\
      current_iterate m' = iterate1) \/
     (status direction1 = INFEASIBLE /\
      objective_multiplier direction = 0 /\
      match constraint_partition direction1 with
      | Some constraint_partition =>
          Base.constraint_partition direction = Some constraint_partition /\
          infeasible constraint_partition <> []
      | None => True
      end)) /\
    current_phase (this m') = current_phase (this m) /\
    phase_1_strategy (this m') = phase_1_strategy (this m) /\
    phase_2_strategy (this m') = phase_2_strategy (this m) /\
    trial_iterate m' = trial_iterate m.
Proof.
  unfold compute_feasible_direction, solve_feasibility_problem,
    create_current_feasibility_problem, subproblem_solve, subproblem_build_objective_model,
    add_proximal_term_to_subproblem, add_elastic_variables, remove_elastic_variables,
    put_current_multipliers, update_subproblem.
  unfold bind, get, ret, pure, assert, put_this, put_statistics, put_iterate.
  intros E. simpl in E.
  destruct (solve (subproblem (this m)) (statistics m) (current_iterate m))
    as [[[s1 statistics1] iterate1] direction1] eqn:S1.
  exists s1, statistics1, iterate1, direction1. split; [reflexivity|].
  simpl in E.
  destruct (status direction1) eqn:St; simpl in E; try discriminate.
  - injection E as <- <-. simpl. split; [exact St|]. split; [left; auto|]. repeat split.
  - destruct (constraint_partition direction1) as [partition|] eqn:P.
    + run_direction E; try discriminate; injection E as <- <-; simpl;
        (split; [assumption|]); (split; [|repeat split]); right;
        (split; [reflexivity|]); (split; [reflexivity|]); (split; [reflexivity|]);
        intros Hn; unfold no_infeasible in *; rewrite Hn in *; discriminate.
    + run_direction E; try discriminate; injection E as <- <-; simpl;
        (split; [assumption|]); (split; [|repeat split]); right; auto.
Qed.

End Directions.

(** The scenario: the subproblem is infeasible, the feasibility problem is
    solved, and the direction returned is a feasibility direction. *)
Lemma compute_feasible_direction_witness :
  exists m' direction,
    compute_feasible_direction 1 toy_direction_machine = (m', Returned direction) /\
    status direction = OPTIMAL /\
    objective_multiplier direction = 0.
Proof.
  destruct (compute_feasible_direction 1 toy_direction_machine) as [m' [direction|e|a]] eqn:E;
    try (vm_compute in E; discriminate).
  exists m', direction. split; [reflexivity|].
  destruct (compute_feasible_direction_spec 1 toy_direction_machine E)
    as (s1 & statistics1 & iterate1 & direction1 & S1 & St & [(O & _)|(_ & Mu & _)] & _).
  - exfalso. vm_compute in S1. injection S1 as _ _ _ <-. discriminate.
  - split; [exact St|exact Mu].
Defined.

End Restoration_facts.

(** ** MA27 *)

Module MA27_facts.
Import MA27.
Local Open Scope Z_scope.

(** X23. [get_inertia] on consistent information.  When the number of
    negative eigenvalues reported by MA27 is between 0 and the rank, and the
    rank (the dimension, or [info[IERROR]] for a rank-deficient matrix) is
    at most the dimension, the three numbers returned are nonnegative and
    add up to the dimension: the rank minus the negative eigenvalues, the
    negative eigenvalues, and the dimension minus the rank. *)
Theorem get_inertia_consistent (s : MA27Solver) :
  let reported_rank :=
    if nth IFLAG (info s) 0 =? RANKDEFECT then nth IERROR (info s) 0 else n s in
  0 <= nth NEIG (info s) 0 <= reported_rank ->
  reported_rank <= n s < 2 ^ 64 ->
  get_inertia s
  = (reported_rank - nth NEIG (info s) 0, nth NEIG (info s) 0, n s - reported_rank) /\
  rank s = reported_rank /\
  (let '(positive, negative, zero) := get_inertia s in
   0 <= positive /\ 0 <= negative /\ 0 <= zero /\ positive + negative + zero = n s).
Proof.
  intros reported_rank Hneg Hrank.
  assert (R : rank s = reported_rank).
  { unfold rank, reported_rank, to_size_t in *.
    destruct (nth IFLAG (info s) 0 =? RANKDEFECT); apply Z.mod_small; lia. }
  assert (G : get_inertia s
              = (reported_rank - nth NEIG (info s) 0, nth NEIG (info s) 0,
                 n s - reported_rank)).
  { unfold get_inertia, number_negative_eigenvalues. rewrite R. unfold to_size_t.
    rewrite (Z.mod_small (nth NEIG (info s) 0)) by lia.
    rewrite (Z.mod_small (n s)) by lia.
    rewrite !Z.mod_small by lia. reflexivity. }
  split; [exact G|]. split; [exact R|]. rewrite G. lia.
Qed.

Lemma get_inertia_consistent_witness :
  get_inertia (mkMA27 5 [] [] [3; 4; 0; 0; 0; 0; 0; 0; 0; 0; 0; 0; 0; 0; 1]) = (3, 1, 1).
Proof.
  apply (get_inertia_consistent (mkMA27 5 [] [] [3; 4; 0; 0; 0; 0; 0; 0; 0; 0; 0; 0; 0; 0; 1]));
    simpl; lia.
Defined.

(** X24. A matrix that MA27 flags as singular ([info[IFLAG] = SINGULAR])
    is reported by [matrix_is_singular], but [rank] still returns the
    dimension and [get_inertia] counts no zero eigenvalue: only the flag
    [RANKDEFECT] lowers the rank. *)
Theorem singular_matrix_has_full_rank (s : MA27Solver) :
  nth IFLAG (info s) 0 = SINGULAR ->
  matrix_is_singular s = true /\
  rank s = to_size_t (n s) /\
  snd (get_inertia s) = 0.
Proof.
  intros F. unfold matrix_is_singular, get_inertia, rank. rewrite F. simpl.
  repeat split. now rewrite Z.sub_diag.
Qed.

Lemma singular_matrix_has_full_rank_witness :
  let s := mkMA27 5 [] [] [-5; 2; 0; 0; 0; 0; 0; 0; 0; 0; 0; 0; 0; 0; 1] in
  matrix_is_singular s = true /\ get_inertia s = (4, 1, 0).
Proof.
  intros s. destruct (singular_matrix_has_full_rank s eq_refl) as (H1 & _ & _).
  split; [exact H1|reflexivity].
Defined.

Lemma to_int_small (z : Z) : 0 <= z < 2 ^ 31 -> to_int (to_size_t z) = z.
Proof.
  intros H. unfold to_int, to_size_t.
  rewrite (Z.mod_small z) by lia. rewrite Z.mod_small by lia. lia.
Qed.

Lemma save_matrix_loop (matrix : list (nat * nat * Q)) (rows columns : list Z) :
  fold_left
    (fun (acc : list Z * list Z) (entry : nat * nat * Q) =>
       let '(row_index, column_index, _) := entry in
       (fst acc ++ [to_int (to_size_t (Z.of_nat row_index + 1))],
        snd acc ++ [to_int (to_size_t (Z.of_nat column_index + 1))]))
    matrix (rows, columns)
  = (rows ++ map (fun e => to_int (to_size_t (Z.of_nat (fst (fst e)) + 1))) matrix,
     columns ++ map (fun e => to_int (to_size_t (Z.of_nat (snd (fst e)) + 1))) matrix).
Proof.
  revert rows columns. induction matrix as [|[[r c] v] matrix IH]; intros rows columns; simpl.
  - now rewrite !app_nil_r.
  - rewrite IH. simpl. now rewrite <- !app_assoc.
Qed.

(** X25. [save_matrix_to_local_format] replaces the stored indices by
    those of the matrix, one pair for each entry and in the order of the
    entries, shifted by one for Fortran: for an entry whose row and column
    are below [2^31 - 1], the indices stored are the row plus one and the
    column plus one, both at least 1.  The dimension and [info] are not
    touched. *)
Theorem save_matrix_to_local_format_spec (s : MA27Solver) (matrix : list (nat * nat * Q)) :
  let s' := save_matrix_to_local_format s matrix in
  length (irn s') = length matrix /\
  length (icn s') = length matrix /\
  n s' = n s /\ info s' = info s /\
  forall k row_index column_index element,
    nth_error matrix k = Some (row_index, column_index, element) ->
    Z.of_nat row_index < 2 ^ 31 - 1 -> Z.of_nat column_index < 2 ^ 31 - 1 ->
    nth k (irn s') 0 = Z.of_nat row_index + 1 /\
    nth k (icn s') 0 = Z.of_nat column_index + 1.
Proof.
  unfold save_matrix_to_local_format. cbv zeta.
  rewrite (save_matrix_loop matrix [] []). simpl.
  rewrite !length_map.
  split; [reflexivity|]. split; [reflexivity|]. split; [reflexivity|].
  split; [reflexivity|].
  intros k row_index column_index element H Hr Hc. split.
  - rewrite (nth_indep _ 0 (to_int (to_size_t (Z.of_nat (fst (fst (0%nat, 0%nat, 0%Q))) + 1))))
      by (rewrite length_map; apply nth_error_Some; congruence).
    rewrite (map_nth (fun e => to_int (to_size_t (Z.of_nat (fst (fst e)) + 1)))).
    rewrite (nth_error_nth _ _ _ H). simpl. apply to_int_small. lia.
  - rewrite (nth_indep _ 0 (to_int (to_size_t (Z.of_nat (snd (fst (0%nat, 0%nat, 0%Q))) + 1))))
      by (rewrite length_map; apply nth_error_Some; congruence).
    rewrite (map_nth (fun e => to_int (to_size_t (Z.of_nat (snd (fst e)) + 1)))).
    rewrite (nth_error_nth _ _ _ H). simpl. apply to_int_small. lia.
Qed.

End MA27_facts.

(** ** Bounds and constraints *)

Module ProblemBase_facts.
Import Base Sparse Bounds ProblemBase Base_facts.

Lemma Qmax_as_test (a b : Q) : (if Qlt_bool a b then b else a) == Qmax a b.
Proof.
  destruct (Qlt_bool a b) eqn:L.
  - apply Qlt_bool_iff in L. symmetry. apply Q.max_r. lra.
  - apply Qlt_bool_false_iff in L. symmetry. now apply Q.max_l.
Qed.

Lemma residual_parts (bounds : Range) (c : Q) :
  ltb (residual bounds c) (Finite 0) = false /\
  (eqb (residual bounds c) (Finite 0) = true <->
   ltb (Finite c) (lb bounds) = false /\ ltb (ub bounds) (Finite c) = false).
Proof.
  destruct bounds as [[|l|] [|u|]]; unfold residual, max, bound_minus, minus_bound; simpl;
    (split; [|split; [intros H; try discriminate; auto
                     |intros [H1 H2]; try discriminate; auto]]);
    try reflexivity.
  all: repeat match goal with
         | |- context [Qlt_bool ?a ?b] =>
             let L := fresh "L" in
             destruct (Qlt_bool a b) eqn:L;
             [apply Qlt_bool_iff in L|apply Qlt_bool_false_iff in L]; simpl
         | H : context [Qlt_bool ?a ?b] |- _ =>
             let L := fresh "L" in
             destruct (Qlt_bool a b) eqn:L;
             [apply Qlt_bool_iff in L|apply Qlt_bool_false_iff in L]; simpl in H
         | H : Qeq_bool _ _ = true |- _ => apply Qeq_bool_iff in H
         | |- Qeq_bool _ _ = true => apply Qeq_bool_iff
         | |- Qlt_bool _ _ = false => apply Qlt_bool_false_iff
         | H : Qlt_bool _ _ = false |- _ => apply Qlt_bool_false_iff in H
         | |- _ /\ _ => split
         end; try reflexivity; try discriminate; try lra.
Qed.

(** For finite bounds the residual is the number
    [max(max(0, lb - c), c - ub)]. *)
Lemma residual_finite (l u c : Q) :
  exists r, residual (mkRange (Finite l) (Finite u)) c = Finite r /\
            r == Qmax (Qmax 0 (l - c)) (c - u).
Proof.
  unfold residual, max, bound_minus, minus_bound. simpl.
  destruct (Qlt_bool 0 (l - c)) eqn:L1; simpl;
    [apply Qlt_bool_iff in L1|apply Qlt_bool_false_iff in L1];
    match goal with |- context [Qlt_bool ?a ?b] =>
      destruct (Qlt_bool a b) eqn:L2;
      [apply Qlt_bool_iff in L2|apply Qlt_bool_false_iff in L2]
    end;
    (eexists; split; [reflexivity|]);
    destruct (Q.max_spec 0 (l - c)) as [[? E1]|[? E1]];
    destruct (Q.max_spec (Qmax 0 (l - c)) (c - u)) as [[? E2]|[? E2]];
    rewrite E2; try rewrite E1; lra.
Qed.

(** X26. The vector of residuals of [compute_constraint_residual] has the
    length of the vector of constraint values; its element [j] is the
    residual [max(max(0, lb - c), c - ub)] of constraint [j] for
    [j < number_constraints], and 0 for the positions beyond.  An element is
    never negative, also with infinite bounds; it is zero exactly when the
    constraint value is within its bounds or the position is beyond
    [number_constraints]; and for finite bounds it is the number
    [max(max(0, lb - c), c - ub)]. *)
Theorem constraint_residuals_spec (number_constraints : nat) (constraint_bounds : list Range)
    (constraints : list Q) :
  let residuals := constraint_residuals number_constraints constraint_bounds constraints in
  length residuals = length constraints /\
  forall j, (j < length constraints)%nat ->
    nth j residuals (Finite 0) =
      (if (j <? number_constraints)%nat
       then residual (nth j constraint_bounds free) (nth j constraints 0)
       else Finite 0) /\
    ltb (nth j residuals (Finite 0)) (Finite 0) = false /\
    (eqb (nth j residuals (Finite 0)) (Finite 0) = true <->
     (number_constraints <= j)%nat \/
     (ltb (Finite (nth j constraints 0)) (lb (nth j constraint_bounds free)) = false /\
      ltb (ub (nth j constraint_bounds free)) (Finite (nth j constraints 0)) = false)) /\
    (forall l u, (j < number_constraints)%nat ->
       nth j constraint_bounds free = mkRange (Finite l) (Finite u) ->
       exists r, nth j residuals (Finite 0) = Finite r /\
                 r == Qmax (Qmax 0 (l - nth j constraints 0)) (nth j constraints 0 - u)).
Proof.
  unfold constraint_residuals. cbv zeta.
  destruct (update_loop
              (fun j => residual (nth j constraint_bounds free) (nth j constraints 0))
              (Finite 0) number_constraints (repeat (Finite 0) (length constraints)))
    as [Hl Hk].
  cbv zeta in *. rewrite repeat_length in *.
  split; [exact Hl|]. intros j Hj. rewrite (Hk j Hj).
  assert (Z : nth j (repeat (Finite 0) (length constraints)) (Finite 0) = Finite 0).
  { apply nth_repeat. }
  rewrite Z. split; [reflexivity|].
  destruct (residual_parts (nth j constraint_bounds free) (nth j constraints 0)) as [N E].
  destruct (j <? number_constraints)%nat eqn:L.
  - apply Nat.ltb_lt in L. split; [exact N|]. split.
    + rewrite E. split; [auto|]. intros [H|H]; [lia|exact H].
    + intros l u _ Eb. rewrite Eb. apply residual_finite.
  - apply Nat.ltb_ge in L. split; [reflexivity|]. split.
    + split; [auto|reflexivity].
    + intros l u Hlt _. lia.
Qed.

(** X27. [determine_bounds_types] classifies each pair of bounds and
    leaves the rest of the status vector as it is.  Equal bounds, infinite
    ones included, give [EQUAL_BOUNDS]; otherwise the type tells which of
    the two bounds restricts: [UNBOUNDED] when the lower bound is [-inf]
    and the upper bound [+inf], [BOUNDED_LOWER] when only the upper bound
    is [+inf], [BOUNDED_UPPER] when only the lower bound is [-inf], and
    [BOUNDED_BOTH_SIDES] in the remaining cases. *)
Theorem determine_bounds_types_spec (bounds : list Range) (status : list ConstraintType) :
  let updated := determine_bounds_types bounds status in
  length updated = length status /\
  (forall i, (i < length status)%nat ->
     nth i updated UNBOUNDED =
     if (i <? length bounds)%nat then bounds_type (nth i bounds free)
     else nth i status UNBOUNDED) /\
  (forall r,
     (bounds_type r = EQUAL_BOUNDS <-> eqb (lb r) (ub r) = true) /\
     (bounds_type r = UNBOUNDED <-> lb r = MinusInfinity /\ ub r = PlusInfinity) /\
     (bounds_type r = BOUNDED_LOWER <->
      lb r <> MinusInfinity /\ ub r = PlusInfinity /\ eqb (lb r) (ub r) = false) /\
     (bounds_type r = BOUNDED_UPPER <->
      lb r = MinusInfinity /\ ub r <> PlusInfinity /\ eqb (lb r) (ub r) = false) /\
     (bounds_type r = BOUNDED_BOTH_SIDES <->
      lb r <> MinusInfinity /\ ub r <> PlusInfinity /\ eqb (lb r) (ub r) = false)).
Proof.
  cbv zeta. unfold determine_bounds_types.
  destruct (update_loop (fun i => bounds_type (nth i bounds free)) UNBOUNDED
                        (length bounds) status) as [Hl Hk].
  split; [exact Hl|]. split; [exact Hk|].
  intros [[|l|] [|u|]]; unfold bounds_type; simpl;
    try (destruct (Qeq_bool l u));
    repeat split; try intros (? & ? & ?); try intros [? ?]; try intros ?;
    try congruence; try discriminate.
Qed.

Lemma determine_constraints_loop (n : nat) (constraint_status : list ConstraintType)
    (equalities inequalities : IndexMap) :
  let is_equality j := ConstraintType_eqb (nth j constraint_status UNBOUNDED) EQUAL_BOUNDS in
  let maps := determine_constraints_ n constraint_status equalities inequalities in
  current_equality_constraint maps = length (filter is_equality (seq 0 n)) /\
  current_inequality_constraint maps
    = length (filter (fun j => negb (is_equality j)) (seq 0 n)) /\
  (forall j, equality_constraints maps j =
             if (j <? n)%nat && is_equality j
             then Some (length (filter is_equality (seq 0 j)))
             else equalities j) /\
  (forall j, inequality_constraints maps j =
             if (j <? n)%nat && negb (is_equality j)
             then Some (length (filter (fun i => negb (is_equality i)) (seq 0 j)))
             else inequalities j).
Proof.
  cbv zeta. unfold determine_constraints_.
  induction n as [|n IH].
  - simpl. repeat split.
  - rewrite seq_S, fold_left_app. simpl Nat.add.
    destruct IH as (He & Hi & Hme & Hmi).
    set (maps := fold_left _ (seq 0 n) _) in *. cbn [fold_left].
    rewrite !filter_app, !length_app. cbn [filter].
    destruct (ConstraintType_eqb (nth n constraint_status UNBOUNDED) EQUAL_BOUNDS) eqn:T;
      cbn [negb length equality_constraints inequality_constraints
           current_equality_constraint current_inequality_constraint].
    + split; [lia|]. split; [lia|]. split.
      * intros j. unfold map_set. destruct (Nat.eqb_spec j n) as [->|N].
        -- rewrite T. replace (n <? S n)%nat with true by (symmetry; apply Nat.ltb_lt; lia).
           simpl. now rewrite He.
        -- rewrite Hme. replace (j <? S n)%nat with (j <? n)%nat; [reflexivity|].
           destruct (j <? n)%nat eqn:E1; symmetry;
             [apply Nat.ltb_lt in E1; apply Nat.ltb_lt|apply Nat.ltb_ge in E1; apply Nat.ltb_ge];
             lia.
      * intros j. rewrite Hmi. destruct (Nat.eqb_spec j n) as [->|N].
        -- rewrite T. simpl. now rewrite Nat.ltb_irrefl, !andb_false_r.
        -- replace (j <? S n)%nat with (j <? n)%nat; [reflexivity|].
           destruct (j <? n)%nat eqn:E1; symmetry;
             [apply Nat.ltb_lt in E1; apply Nat.ltb_lt|apply Nat.ltb_ge in E1; apply Nat.ltb_ge];
             lia.
    + split; [lia|]. split; [lia|]. split.
      * intros j. rewrite Hme. destruct (Nat.eqb_spec j n) as [->|N].
        -- rewrite T. simpl. now rewrite Nat.ltb_irrefl, !andb_false_r.
        -- replace (j <? S n)%nat with (j <? n)%nat; [reflexivity|].
           destruct (j <? n)%nat eqn:E1; symmetry;
             [apply Nat.ltb_lt in E1; apply Nat.ltb_lt|apply Nat.ltb_ge in E1; apply Nat.ltb_ge];
             lia.
      * intros j. unfold map_set. destruct (Nat.eqb_spec j n) as [->|N].
        -- rewrite T. replace (n <? S n)%nat with true by (symmetry; apply Nat.ltb_lt; lia).
           simpl. now rewrite Hi.
        -- rewrite Hmi. replace (j <? S n)%nat with (j <? n)%nat; [reflexivity|].
           destruct (j <? n)%nat eqn:E1; symmetry;
             [apply Nat.ltb_lt in E1; apply Nat.ltb_lt|apply Nat.ltb_ge in E1; apply Nat.ltb_ge];
             lia.
Qed.

Lemma filter_partition_length (A : Type) (p : A -> bool) (l : list A) :
  (length (filter p l) + length (filter (fun a => negb (p a)) l) = length l)%nat.
Proof.
  induction l as [|a l IH]; simpl; [reflexivity|].
  destruct (p a); simpl; lia.
Qed.

(** X28. [determine_constraints_], from empty maps: every constraint
    [j < number_constraints] is a key of exactly one of the two maps, the
    map of the equality constraints when its status is [EQUAL_BOUNDS] and
    the map of the inequality constraints otherwise; its value is its rank
    among the constraints of its kind, that is the number of constraints of
    this kind before it, so that the values of each map are
    [0, 1, ..., k - 1] in the order of the constraints; no other key is
    present, and the two kinds add up to [number_constraints]. *)
Theorem determine_constraints_spec (number_constraints : nat)
    (constraint_status : list ConstraintType) :
  let is_equality j := ConstraintType_eqb (nth j constraint_status UNBOUNDED) EQUAL_BOUNDS in
  let rank_equality j := length (filter is_equality (seq 0 j)) in
  let rank_inequality j := length (filter (fun i => negb (is_equality i)) (seq 0 j)) in
  let maps := determine_constraints_ number_constraints constraint_status
                                     empty_map empty_map in
  (forall j, (j < number_constraints)%nat ->
     if is_equality j
     then equality_constraints maps j = Some (rank_equality j) /\
          inequality_constraints maps j = None
     else inequality_constraints maps j = Some (rank_inequality j) /\
          equality_constraints maps j = None) /\
  (forall j, (number_constraints <= j)%nat ->
     equality_constraints maps j = None /\ inequality_constraints maps j = None) /\
  (forall j value, equality_constraints maps j = Some value ->
     (value < current_equality_constraint maps)%nat) /\
  (forall j value, inequality_constraints maps j = Some value ->
     (value < current_inequality_constraint maps)%nat) /\
  (current_equality_constraint maps + current_inequality_constraint maps
   = number_constraints)%nat.
Proof.
  cbv zeta.
  destruct (determine_constraints_loop number_constraints constraint_status
                                       empty_map empty_map) as (He & Hi & Hme & Hmi).
  cbv zeta in *.
  set (is_equality := fun j =>
         ConstraintType_eqb (nth j constraint_status UNBOUNDED) EQUAL_BOUNDS) in *.
  assert (Mono : forall (p : nat -> bool) j, (j < number_constraints)%nat -> p j = true ->
            (length (filter p (seq 0 j)) < length (filter p (seq 0 number_constraints)))%nat).
  { intros p j Hj Pj.
    replace number_constraints with (j + (number_constraints - j))%nat by lia.
    rewrite seq_app, filter_app, length_app. simpl.
    destruct (number_constraints - j)%nat as [|k] eqn:K; [lia|].
    simpl. rewrite Pj. simpl. lia. }
  split; [|split; [|split; [|split]]].
  - intros j Hj. rewrite Hme, Hmi.
    replace (j <? number_constraints)%nat with true by (symmetry; now apply Nat.ltb_lt).
    simpl. fold (is_equality j). destruct (is_equality j); simpl; split; reflexivity.
  - intros j Hj. rewrite Hme, Hmi.
    replace (j <? number_constraints)%nat with false by (symmetry; now apply Nat.ltb_ge).
    split; reflexivity.
  - intros j value. rewrite Hme, He.
    destruct (j <? number_constraints)%nat eqn:L; simpl; [|discriminate].
    fold (is_equality j). destruct (is_equality j) eqn:T; [|discriminate].
    intros [= <-]. apply Nat.ltb_lt in L. now apply Mono.
  - intros j value. rewrite Hmi, Hi.
    destruct (j <? number_constraints)%nat eqn:L; simpl; [|discriminate].
    fold (is_equality j). destruct (is_equality j) eqn:T; [discriminate|].
    intros [= <-]. apply Nat.ltb_lt in L. apply (Mono (fun i => negb (is_equality i))); auto.
    now rewrite T.
  - rewrite He, Hi.
    pose proof (filter_partition_length is_equality (seq 0 number_constraints)) as F.
    rewrite length_seq in F. exact F.
Qed.

(** X29. [set_multipliers] follows the residuals: for a constraint
    [j < number_constraints], the multiplier is left as it is when the
    residual of the constraint is zero, and is set to 1 or to -1 when the
    residual is not zero; 1 when the value is below the lower bound, -1
    otherwise. *)
Theorem set_multipliers_follows_residuals (number_constraints : nat)
    (constraint_bounds : list Range) (current_iterate : L1.Iterate)
    (constraints_multipliers : list Q) (j : nat) :
  (j < number_constraints)%nat ->
  (j < length constraints_multipliers)%nat ->
  (j < length (L1.constraints current_iterate))%nat ->
  let residuals :=
    constraint_residuals number_constraints constraint_bounds (L1.constraints current_iterate) in
  let updated :=
    L1.set_multipliers number_constraints constraint_bounds current_iterate
                       constraints_multipliers in
  (eqb (nth j residuals (Finite 0)) (Finite 0) = true ->
   nth j updated 0 = nth j constraints_multipliers 0) /\
  (eqb (nth j residuals (Finite 0)) (Finite 0) = false ->
   nth j updated 0
   = if ltb (Finite (nth j (L1.constraints current_iterate) 0)) (lb (nth j constraint_bounds free))
     then 1 else -1).
Proof.
  intros Hn Hm Hc. cbv zeta.
  destruct (L1_facts.set_multipliers_pointwise number_constraints constraint_bounds
              current_iterate constraints_multipliers) as [_ P].
  rewrite (P j Hm). clear P.
  unfold constraint_residuals.
  destruct (update_loop
              (fun j => residual (nth j constraint_bounds free)
                                 (nth j (L1.constraints current_iterate) 0))
              (Finite 0) number_constraints
              (repeat (Finite 0) (length (L1.constraints current_iterate))))
    as [_ Hk].
  cbv zeta in Hk. rewrite repeat_length in Hk. rewrite (Hk j Hc). clear Hk.
  replace (j <? number_constraints)%nat with true by (symmetry; now apply Nat.ltb_lt).
  cbv zeta.
  destruct (residual_parts (nth j constraint_bounds free)
                           (nth j (L1.constraints current_iterate) 0)) as [_ E].
  split.
  - intros Z. apply E in Z. destruct Z as [Z1 Z2]. now rewrite Z1, Z2.
  - intros Z.
    destruct (ltb (Finite (nth j (L1.constraints current_iterate) 0))
                  (lb (nth j constraint_bounds free))) eqn:L1; [reflexivity|].
    destruct (ltb (ub (nth j constraint_bounds free))
                  (Finite (nth j (L1.constraints current_iterate) 0))) eqn:L2; [reflexivity|].
    destruct E as [_ E]. rewrite E in Z by (split; reflexivity). discriminate.
Qed.

Lemma set_multipliers_follows_residuals_witness :
  let bounds := [mkRange (Finite 0) (Finite 1); mkRange MinusInfinity (Finite 2)] in
  let iterate :=
    L1.mkIterate [0] (mkMultipliers [] [] [5; 5]) [-1; 3] [] 0 (mkProgress 0 0) [] in
  nth 1 (L1.set_multipliers 2 bounds iterate [5; 5]) 0 = -1.
Proof.
  intros bounds iterate.
  destruct (@set_multipliers_follows_residuals 2 bounds iterate [5; 5] 1%nat) as [_ H];
    [simpl; lia ..|].
  exact (H eq_refl).
Defined.

End ProblemBase_facts.

(** ** Predicted reductions *)

Module PredictedReduction_facts.
Import Base PredictedReduction.

(** X30. The predicted reduction of the subproblems.  For the LP
    subproblem the two stages agree: the model is [-alpha * objective] at
    every step length, 1 included.  For the QP subproblem the model is the
    function of [SQP::compute_predicted_reduction]: [-objective] at the
    full step and [-alpha (g.d + alpha d.H.d / 2)] at any other step
    length, which is 0 at [alpha = 0]; the two stages agree at the full
    step exactly when the objective of the direction is
    [g.d + d.H.d / 2]. *)
Theorem predicted_reduction_models
    (quadratic_product : list Q -> list Q -> Q) (objective_gradient : SparseVector Q)
    (direction : Direction) :
  let linear_term := dot (x direction) objective_gradient in
  let quadratic_term := quadratic_product (x direction) (x direction) / 2 in
  let LP := LP_generate_predicted_reduction_model direction in
  let QP := QP_generate_predicted_reduction_model quadratic_product objective_gradient
                                                  direction in
  (forall step_length, evaluate LP step_length == - step_length * objective direction) /\
  (forall step_length,
     evaluate QP step_length
     = SQP_compute_predicted_reduction quadratic_product objective_gradient direction
                                       step_length) /\
  (forall step_length, ~ step_length == 1 ->
     evaluate QP step_length
     = - step_length * (linear_term + step_length * quadratic_term)) /\
  evaluate QP 1 = - objective direction /\
  evaluate QP 0 == 0 /\
  (evaluate QP 1 == partial_step_precomputation QP tt 1 <->
   objective direction == linear_term + quadratic_term).
Proof.
  cbv zeta. unfold evaluate, SQP_compute_predicted_reduction. simpl.
  split; [|split; [|split; [|split; [|split]]]].
  - intros a. destruct (Qeq_bool a 1) eqn:E; [|reflexivity].
    apply Qeq_bool_iff in E. rewrite E. ring.
  - intros a. reflexivity.
  - intros a N. destruct (Qeq_bool a 1) eqn:E; [|reflexivity].
    apply Qeq_bool_iff in E. contradiction.
  - reflexivity.
  - ring.
  - split; intros H; lra.
Qed.

End PredictedReduction_facts.
